(** * Stochastic evaluation system: gap classification, imputation, scoring

    Shallow embedding of [src/DynamicStochasticSystem.tsx]
    ([calculateCorrelation], [analyzeMissingType], [recalcScores],
    [handleRunAlgorithm]) and the properties of its specification.

    Number model.  A JavaScript number is read as an exact rational ([Q]):
    rounding error, NaN and the infinities are outside the model.  The
    divisors of the source are lengths of non-empty arrays, the constant 2,
    or guarded by [|| 1] or by a test against zero.  [Math.sqrt], [Math.log],
    [Math.cos] and [Math.PI] have no rational counterpart and are parameters
    of the development, as is the process-wide random source behind
    [Math.random]; the [while (u === 0)] loops of the sampler run on a bound
    of redraws.

    Object model.  [student.data] is a JavaScript object keyed by time-slot id
    whose values are objects keyed by subject id; a cell holds a number or
    [null].  It is a [gmap] of [gmap]s of [option Q] ([None] is [null]).
    Reading a key that is not there makes the source throw or produce
    [undefined]; the model answers [None] in the option monad for both, which
    is read as "the run left the number-or-null data model".

    Sections 1 to 7 are the program, 8 and 9 the notions and the concrete
    inputs the properties are stated with; the properties follow. *)

From Stdlib Require Import QArith Qround Qminmax Qabs Qpower Lqa ZArith Lia Bool.
From Stdlib Require Import List Permutation Sorted Ascii DecimalString DecimalNat.
From stdpp Require Import base option list strings gmap fin_maps.

Local Open Scope Q_scope.

(** ** 1. Configuration and data types *)

Inductive SubjectType := TMain | TSub.

Record TimeSlot := mkTimeSlot {
  t_id : string;
  t_label : string;
  t_weight : Q
}.

Record Subject := mkSubject {
  s_id : string;
  s_name : string;
  s_weight : Q;
  s_full : Q;
  s_type : SubjectType
}.

Inductive AlgorithmType := BoxMuller | Regression | Knn.

Inductive MissingType := MNone | Discrete | Continuous.

(** A score cell: [Some v] is the number [v], [None] is [null]. *)
Abbreviation Cell := (option Q).
Abbreviation Row := (gmap string (option Q)).
Abbreviation Matrix := (gmap string (gmap string (option Q))).

Record Detail := mkDetail {
  d_val : Q;
  d_type : MissingType;
  d_method : string
}.

Record Student := mkStudent {
  st_id : string;
  st_name : string;
  st_data : Matrix;
  st_finalScore : Q;
  st_imputedDetails : gmap string (gmap string Detail)
}.

(** [data[timeId][subId]]. *)
Definition getCell (d : Matrix) (timeId subId : string) : option Cell :=
  row ← d !! timeId; row !! subId.

(** [data[timeSlots[i].id][subId]]. *)
Definition cellAt (d : Matrix) (timeSlots : list TimeSlot) (subId : string)
    (i : nat) : option Cell :=
  t ← timeSlots !! i; getCell d (t_id t) subId.

(** ** 2. Gap classification *)

(** [while (i >= 0 && cell(i) === null) { missingLen++; i--; }], started at
    [i = n - 1]; the result is the number of increments. *)
Fixpoint scanBack (d : Matrix) (timeSlots : list TimeSlot) (subId : string)
    (n : nat) : option nat :=
  match n with
  | O => Some O
  | S i =>
      c ← cellAt d timeSlots subId i;
      match c with
      | None => S <$> scanBack d timeSlots subId i
      | Some _ => Some O
      end
  end.

(** [while (j < timeSlots.length && cell(j) === null) { missingLen++; j++; }];
    [k] is [timeSlots.length - j]. *)
Fixpoint scanFwd (d : Matrix) (timeSlots : list TimeSlot) (subId : string)
    (k j : nat) : option nat :=
  match k with
  | O => Some O
  | S k' =>
      c ← cellAt d timeSlots subId j;
      match c with
      | None => S <$> scanFwd d timeSlots subId k' (S j)
      | Some _ => Some O
      end
  end.

Definition analyzeMissingType (studentData : Matrix) (timeIdx : nat)
    (subId : string) (timeSlots : list TimeSlot) : option MissingType :=
  currentVal ← cellAt studentData timeSlots subId timeIdx;
  match currentVal with
  | Some _ => Some MNone
  | None =>
      back ← scanBack studentData timeSlots subId timeIdx;
      fwd ← scanFwd studentData timeSlots subId
               (length timeSlots - S timeIdx) (S timeIdx);
      let missingLen := (1 + back + fwd)%nat in
      let isEdge :=
        (timeIdx =? 0)%nat || (timeIdx =? length timeSlots - 1)%nat in
      if (2 <? missingLen)%nat || isEdge then Some Continuous
      else Some Discrete
  end.

(** ** 3. Scoring and ranking ([recalcScores]) *)

(** [x || 0] on a number: a falsy number is replaced by [0]. *)
Definition orZero (v : Q) : Q := if Qeq_bool v 0 then 0 else v.

(** [s.data[t.id]?.[sub.id] || 0]: a missing row, a missing key and [null]
    all count as [0]. *)
Definition scoreVal (d : Matrix) (timeId subId : string) : Q :=
  match d !! timeId with
  | None => 0
  | Some row =>
      match row !! subId with
      | Some (Some v) => orZero v
      | _ => 0
      end
  end.

(** The inner [subs.forEach]: [tScore += val * sub.weight]. *)
Definition slotScore (d : Matrix) (subs : list Subject) (t : TimeSlot) : Q :=
  fold_left (fun tScore sb =>
               tScore + scoreVal d (t_id t) (s_id sb) * s_weight sb) subs 0.

(** The outer [tSlots.forEach]: [total += tScore * t.weight]. *)
Definition totalScore (d : Matrix) (tSlots : list TimeSlot)
    (subs : list Subject) : Q :=
  fold_left (fun total t => total + slotScore d subs t * t_weight t) tSlots 0.

(** [{ ...s, finalScore: total }]. *)
Definition withFinalScore (s : Student) (total : Q) : Student :=
  mkStudent (st_id s) (st_name s) (st_data s) total (st_imputedDetails s).

Definition rescore (tSlots : list TimeSlot) (subs : list Subject)
    (s : Student) : Student :=
  withFinalScore s (totalScore (st_data s) tSlots subs).

(** The comparator [(a, b) => b.finalScore - a.finalScore]. *)
Definition compareFn (a b : Student) : Q := st_finalScore b - st_finalScore a.

(** [Array.prototype.sort] is a stable sort (ECMAScript 2019); for a
    consistent comparator its result is the unique stable sorted
    rearrangement, which insertion from the right computes: [x] is put before
    the first element it must precede, after none that compares equal and
    stood before it. *)
Fixpoint insertSorted (cmp : Student -> Student -> Q) (x : Student)
    (l : list Student) : list Student :=
  match l with
  | [] => [x]
  | y :: l' =>
      if Qle_bool (cmp x y) 0 then x :: y :: l'
      else y :: insertSorted cmp x l'
  end.

Definition stableSort (cmp : Student -> Student -> Q) (l : list Student)
    : list Student :=
  fold_right (insertSorted cmp) [] l.

Definition recalcScores (studentList : list Student) (tSlots : list TimeSlot)
    (subs : list Subject) : list Student :=
  let updated := map (rescore tSlots subs) studentList in
  stableSort compareFn updated.

(** ** 4. Helpers shared by the estimators *)

(** [reduce((a, b) => a + b, 0)]. *)
Definition sumQ (l : list Q) : Q := fold_left Qplus l 0.

(** [n || 1] on an array length. *)
Definition lenOrOne (n : nat) : Q :=
  if (n =? 0)%nat then 1 else inject_Z (Z.of_nat n).

(** [x || 1] on a number. *)
Definition orOne (x : Q) : Q := if Qeq_bool x 0 then 1 else x.

(** [Math.pow(x, 2)]. *)
Definition pow2 (x : Q) : Q := x ^ 2.

(** [l.forEach] / [reduce] whose body may leave the data model. *)
Fixpoint foldM {A S : Type} (f : S -> A -> option S) (l : list A) (s : S)
    : option S :=
  match l with
  | [] => Some s
  | x :: l' => s' ← f s x; foldM f l' s'
  end.

(** [students.map(s => s.data[timeId][subId])]. *)
Definition column (students : list Student) (timeId subId : string)
    : option (list Cell) :=
  mapM (fun s => getCell (st_data s) timeId subId) students.

(** [cells.filter(v => v !== null)]. *)
Definition presentValues (cells : list Cell) : list Q :=
  omap (M := list) (fun c : Cell => c) cells.

(** [students.map(s => s.data[timeId][subId]).filter(v => v !== null)]. *)
Definition validValues (students : list Student) (timeId subId : string)
    : option (list Q) :=
  cells ← column students timeId subId; Some (presentValues cells).

(** [Math.round]: the nearest integer, halves upwards. *)
Definition mathRound (x : Q) : Q := inject_Z (Qfloor (x + (1 # 2))).

(** [Math.max(0, Math.min(full, Math.round(x)))]. *)
Definition clampRound (full x : Q) : Q := Qmax 0 (Qmin full (mathRound x)).

(** [newData[timeId][subId] = v]. *)
Definition setCell (d : Matrix) (timeId subId : string) (v : Q)
    : option Matrix :=
  row ← d !! timeId; Some (<[timeId := <[subId := Some v]> row]> d).

(** [if (!details[timeId]) details[timeId] = {}; details[timeId][subId] = x]. *)
Definition setDetail (ds : gmap string (gmap string Detail))
    (timeId subId : string) (x : Detail) : gmap string (gmap string Detail) :=
  <[timeId := <[subId := x]> (default ∅ (ds !! timeId))]> ds.

(** A line of the imputation log; the source renders it with a template
    string from exactly these fields. *)
Inductive LogLine :=
| LogStart (algorithm : AlgorithmType)
| LogImputed (studentName subName method : string) (imputedVal : Q).

Section Engine.

(** [Math.sqrt], [Math.log], [Math.cos], [Math.PI]. *)
Variable Math_sqrt : Q -> Q.
Variable Math_log : Q -> Q.
Variable Math_cos : Q -> Q.
Variable Math_PI : Q.

(** The random source: [Math.random()] reads it and advances it. *)
Variable Rng : Type.
Variable Math_random : Rng -> Q * Rng.

(** Bound on the number of redraws of one [while (u === 0)] loop. *)
Variable fuel : nat.

(** ** 5. Box-Muller sampler *)

(** [while (u === 0) u = Math.random();] *)
Fixpoint drawNonZero (n : nat) (g : Rng) : option (Q * Rng) :=
  match n with
  | O => None
  | S n' =>
      let '(u, g') := Math_random g in
      if Qeq_bool u 0 then drawNonZero n' g' else Some (u, g')
  end.

Definition generateBoxMuller (mean std : Q) (g : Rng) : option (Q * Rng) :=
  '(u, g1) ← drawNonZero fuel g;
  '(v, g2) ← drawNonZero fuel g1;
  let z := Math_sqrt (-2 * Math_log u) * Math_cos (2 * Math_PI * v) in
  Some (z * std + mean, g2).

(** ** 6. Correlation *)

(** The body of [data.map]: the pair when both scores are numbers. *)
Definition validPair (timeId subA subB : string) (s : Student)
    : option (option (Q * Q)) :=
  a ← getCell (st_data s) timeId subA;
  b ← getCell (st_data s) timeId subB;
  match a, b with
  | Some x, Some y => Some (Some (x, y))
  | _, _ => Some None
  end.

(** The body of [validPairs.forEach], on [(num, denA, denB)]. *)
Definition corrStep (meanA meanB : Q) (acc : Q * Q * Q) (p : Q * Q)
    : Q * Q * Q :=
  let '(num, denA, denB) := acc in
  (num + (fst p - meanA) * (snd p - meanB),
   denA + pow2 (fst p - meanA),
   denB + pow2 (snd p - meanB)).

Definition corrSums (meanA meanB : Q) (validPairs : list (Q * Q))
    : Q * Q * Q :=
  fold_left (corrStep meanA meanB) validPairs (0, 0, 0).

Definition corrOfPairs (validPairs : list (Q * Q)) : Q :=
  if (length validPairs <? 3)%nat then 0
  else
    let n := inject_Z (Z.of_nat (length validPairs)) in
    let meanA := fold_left (fun s p => s + fst p) validPairs 0 / n in
    let meanB := fold_left (fun s p => s + snd p) validPairs 0 / n in
    let '(num, denA, denB) := corrSums meanA meanB validPairs in
    if Qeq_bool denA 0 || Qeq_bool denB 0 then 0
    else num / Math_sqrt (denA * denB).

Definition calculateCorrelation (data : list Student) (subA subB : string)
    (timeId : string) : option Q :=
  pairs ← mapM (validPair timeId subA subB) data;
  let validPairs := omap (M := list) (fun p : option (Q * Q) => p) pairs in
  Some (corrOfPairs validPairs).

(** ** 7. Imputation engine ([handleRunAlgorithm]) *)

Definition cohortMean (validVals : list Q) : Q :=
  sumQ validVals / lenOrOne (length validVals).

Definition cohortStd (validVals : list Q) (mean : Q) : Q :=
  Math_sqrt (fold_left (fun a b => a + pow2 (b - mean)) validVals 0
             / lenOrOne (length validVals)).

(** Step 1, the discrete-gap fast path.  The result is
    [(imputedVal, method, missingType)] and the random source; [method] stays
    empty when nothing was interpolated. *)
Definition tryInterpolate (newData : Matrix) (timeSlots : list TimeSlot)
    (tIdx : nat) (sb : Subject) (missingType : MissingType) (g : Rng)
    : option (Q * string * MissingType * Rng) :=
  match missingType with
  | Discrete =>
      prev ← (if (0 <? tIdx)%nat
              then cellAt newData timeSlots (s_id sb) (tIdx - 1)
              else Some None);
      next ← (if (tIdx <? length timeSlots - 1)%nat
              then cellAt newData timeSlots (s_id sb) (tIdx + 1)
              else Some None);
      match prev, next with
      | Some p, Some n =>
          let '(r, g') := Math_random g in
          Some ((p + n) / 2 + (r - (1 # 2)) * 5, "时序插值", Discrete, g')
      | _, _ => Some (0, "", Continuous, g)
      end
  | _ => Some (0, "", missingType, g)
  end.

(** [subjects.find(s => s.id !== sub.id && newData[time.id][s.id] !== null)]. *)
Fixpoint findRefSub (newData : Matrix) (timeId subId : string)
    (subjects : list Subject) : option (option Subject) :=
  match subjects with
  | [] => Some None
  | s :: rest =>
      if String.eqb (s_id s) subId then findRefSub newData timeId subId rest
      else
        c ← getCell newData timeId (s_id s);
        match c with
        | Some _ => Some (Some s)
        | None => findRefSub newData timeId subId rest
        end
  end.

(** The reference subject's cohort mean as the source computes it: the sum of
    the present values over [students.length]. *)
Definition refMeanOf (students : list Student) (timeId refId : string)
    : option Q :=
  refVals ← validValues students timeId refId;
  Some (sumQ refVals / inject_Z (Z.of_nat (length students))).

Definition regressionEstimate (students : list Student)
    (subjects : list Subject) (newData : Matrix) (time : TimeSlot)
    (sb : Subject) (mean : Q) : option (Q * string) :=
  refSub ← findRefSub newData (t_id time) (s_id sb) subjects;
  match refSub with
  | Some r =>
      refCell ← getCell newData (t_id time) (s_id r);
      refMean ← refMeanOf students (t_id time) (s_id r);
      (* [refCell] is a number here; [null] would coerce to 0 *)
      let refVal := default 0 refCell in
      Some (refVal * (mean / orOne refMean),
            String.append "回归(" (String.append (s_name r) ")"))
  | None => Some (mean, "均值填充")
  end.

(** The inner [subjects.forEach] of the nearest-neighbour search. *)
Definition knnDistance (subjects : list Subject) (newData : Matrix)
    (other : Student) (time : TimeSlot) (sb : Subject) : option (Q * nat) :=
  foldM (fun '(dist, count) s =>
           if String.eqb (s_id s) (s_id sb) then Some (dist, count)
           else
             v1 ← getCell newData (t_id time) (s_id s);
             v2 ← getCell (st_data other) (t_id time) (s_id s);
             match v1, v2 with
             | Some a, Some b => Some (dist + pow2 (a - b), S count)
             | _, _ => Some (dist, count)
             end)
        subjects (0, O).

(** [dist < minDist], where [None] is the initial [Infinity]. *)
Definition ltMinDist (dist : Q) (minDist : option Q) : bool :=
  match minDist with
  | None => true
  | Some m => negb (Qle_bool m dist)
  end.

(** The body of [students.forEach(other => ...)]; the accumulator is
    [(minDist, neighborVal)]. *)
Definition knnStep (student : Student) (subjects : list Subject)
    (newData : Matrix) (time : TimeSlot) (sb : Subject)
    (acc : option Q * Q) (other : Student) : option (option Q * Q) :=
  if String.eqb (st_id other) (st_id student) then Some acc
  else
    c ← getCell (st_data other) (t_id time) (s_id sb);
    match c with
    | None => Some acc
    | Some otherVal =>
        '(dist, count) ← knnDistance subjects newData other time sb;
        if (0 <? count)%nat then
          let dist' := Math_sqrt dist in
          if ltMinDist dist' (fst acc) then Some (Some dist', otherVal)
          else Some acc
        else Some acc
    end.

(** Step 2, the continuous-gap / fallback path. *)
Definition fallbackEstimate (students : list Student) (student : Student)
    (subjects : list Subject) (algorithm : AlgorithmType) (newData : Matrix)
    (time : TimeSlot) (sb : Subject) (g : Rng) : option (Q * string * Rng) :=
  validVals ← validValues students (t_id time) (s_id sb);
  let mean := cohortMean validVals in
  let std := cohortStd validVals mean in
  match algorithm with
  | Regression =>
      '(v, m) ← regressionEstimate students subjects newData time sb mean;
      Some (v, m, g)
  | Knn =>
      '(_, neighborVal) ←
        foldM (knnStep student subjects newData time sb) students (None, mean);
      Some (neighborVal, "KNN(最近邻)", g)
  | BoxMuller =>
      '(v, g') ← generateBoxMuller mean std g;
      Some (v, "Box-Muller", g')
  end.

(** The imputed value before rounding and clamping, with its method tag and
    the gap type that is recorded. *)
Definition imputeRaw (students : list Student) (student : Student)
    (timeSlots : list TimeSlot) (subjects : list Subject)
    (algorithm : AlgorithmType) (newData : Matrix) (tIdx : nat)
    (time : TimeSlot) (sb : Subject) (missingType : MissingType) (g : Rng)
    : option (Q * string * MissingType * Rng) :=
  '(imputedVal, method, missingType', g1) ←
    tryInterpolate newData timeSlots tIdx sb missingType g;
  if String.eqb method "" then
    '(v, m, g2) ← fallbackEstimate students student subjects algorithm
                     newData time sb g1;
    Some (v, m, missingType', g2)
  else Some (imputedVal, method, missingType', g1).

(** What the pass over one student carries along. *)
Record PassState := mkPassState {
  ps_data : Matrix;
  ps_details : gmap string (gmap string Detail);
  ps_logs : list LogLine;
  ps_rng : Rng
}.

(** The body of the inner [subjects.forEach(sub => ...)]. *)
Definition imputeCell (students : list Student) (student : Student)
    (timeSlots : list TimeSlot) (subjects : list Subject)
    (algorithm : AlgorithmType) (tIdx : nat) (time : TimeSlot)
    (ps : PassState) (sb : Subject) : option PassState :=
  missingType ← analyzeMissingType (st_data student) tIdx (s_id sb) timeSlots;
  match missingType with
  | MNone => Some ps
  | _ =>
      '(raw, method, missingType', g') ←
        imputeRaw students student timeSlots subjects algorithm (ps_data ps)
                  tIdx time sb missingType (ps_rng ps);
      let imputedVal := clampRound (s_full sb) raw in
      newData ← setCell (ps_data ps) (t_id time) (s_id sb) imputedVal;
      Some (mkPassState newData
              (setDetail (ps_details ps) (t_id time) (s_id sb)
                         (mkDetail imputedVal missingType' method))
              (ps_logs ps ++
                 [LogImputed (st_name student) (s_name sb) method imputedVal])
              g')
  end.

(** The body of [timeSlots.forEach((time, tIdx) => ...)]. *)
Definition imputeSlot (students : list Student) (student : Student)
    (timeSlots : list TimeSlot) (subjects : list Subject)
    (algorithm : AlgorithmType) (ps : PassState) (it : nat * TimeSlot)
    : option PassState :=
  foldM (imputeCell students student timeSlots subjects algorithm
                    (fst it) (snd it)) subjects ps.

(** [timeSlots] with the indices [forEach] passes along. *)
Definition indexed (timeSlots : list TimeSlot) : list (nat * TimeSlot) :=
  zip (seq 0 (length timeSlots)) timeSlots.

(** The body of [students.map(student => ...)]: [newData] starts as a deep
    copy of [student.data]; the log and the random source are shared by the
    whole run. *)
Definition imputeStudent (students : list Student)
    (timeSlots : list TimeSlot) (subjects : list Subject)
    (algorithm : AlgorithmType) (student : Student) (logs : list LogLine)
    (g : Rng) : option (Student * list LogLine * Rng) :=
  ps ← foldM (imputeSlot students student timeSlots subjects algorithm)
             (indexed timeSlots) (mkPassState (st_data student) ∅ logs g);
  Some (mkStudent (st_id student) (st_name student) (ps_data ps)
                  (st_finalScore student) (ps_details ps),
        ps_logs ps, ps_rng ps).

(** [students.map] of the pass, threading the log and the random source. *)
Definition imputeAll (students : list Student) (timeSlots : list TimeSlot)
    (subjects : list Subject) (algorithm : AlgorithmType)
    (todo : list Student) (logs : list LogLine) (g : Rng)
    : option (list Student * list LogLine * Rng) :=
  foldM (fun '(out, logs, g) student =>
           '(s', logs', g') ←
             imputeStudent students timeSlots subjects algorithm student logs g;
           Some (out ++ [s'], logs', g'))
        todo ([], logs, g).

(** The engine: impute every student, then rescore and rank. *)
Definition handleRunAlgorithm (students : list Student)
    (timeSlots : list TimeSlot) (subjects : list Subject)
    (algorithm : AlgorithmType) (g : Rng)
    : option (list Student * list LogLine * Rng) :=
  '(newStudents, logs, g') ←
    imputeAll students timeSlots subjects algorithm students
              [LogStart algorithm] g;
  Some (recalcScores newStudents timeSlots subjects, logs, g').

End Engine.

Arguments mkPassState {Rng} _ _ _ _.
Arguments ps_data {Rng} _.
Arguments ps_details {Rng} _.
Arguments ps_logs {Rng} _.
Arguments ps_rng {Rng} _.

(** ** 8. Notions the properties are stated with *)

(** *** Gaps *)

(** The cell of subject [subId] at index [i] holds a number. *)
Definition presentAt (d : Matrix) (ts : list TimeSlot) (subId : string)
    (i : nat) : Prop :=
  exists v : Q, cellAt d ts subId i = Some (Some v).

(** [lo..hi] is a gap: a maximal run of consecutive [null] cells of one
    subject along the time axis. *)
Record isGap (d : Matrix) (ts : list TimeSlot) (subId : string)
    (lo hi : nat) : Prop := mkGap {
  gap_order : (lo <= hi)%nat;
  gap_inside : (hi < length ts)%nat;
  gap_absent : forall k, (lo <= k <= hi)%nat -> cellAt d ts subId k = Some None;
  gap_left : lo = O \/ presentAt d ts subId (lo - 1);
  gap_right : hi = (length ts - 1)%nat \/ presentAt d ts subId (hi + 1)
}.

(** Every slot of the sequence has a cell (a number or [null]) for the
    subject. *)
Definition seriesDefined (d : Matrix) (ts : list TimeSlot) (subId : string)
    : Prop :=
  forall i, (i < length ts)%nat -> is_Some (cellAt d ts subId i).

(** What the source decides for an absent cell at [idx] whose gap is
    [lo..hi]. *)
Definition gapClass (ts : list TimeSlot) (idx lo hi : nat) : MissingType :=
  if (2 <? hi - lo + 1)%nat || (idx =? 0)%nat || (idx =? length ts - 1)%nat
  then Continuous else Discrete.

(** *** Scores and ranking *)

(** [sum over x in l of f x]. *)
Definition bigsum {A : Type} (f : A -> Q) (l : list A) : Q :=
  fold_right (fun x acc => f x + acc) 0 l.

(** The numeric value of a cell, [0] when it is absent. *)
Definition cellValue (d : Matrix) (timeId subId : string) : Q :=
  match getCell d timeId subId with
  | Some (Some v) => v
  | _ => 0
  end.

(** [sum over t of t.weight * (sum over s of v(t, s) * s.weight)]. *)
Definition weightedSum (d : Matrix) (tSlots : list TimeSlot)
    (subs : list Subject) : Q :=
  bigsum (fun t =>
            t_weight t *
            bigsum (fun sb => cellValue d (t_id t) (s_id sb) * s_weight sb)
                   subs)
         tSlots.

(** [a] may stand before [b] in a ranking: its score is not smaller. *)
Definition scoreGe (a b : Student) : Prop :=
  st_finalScore b <= st_finalScore a.

(** The students of [l] whose final score is [q], in the order of [l]. *)
Definition withScore (q : Q) (l : list Student) : list Student :=
  List.filter (fun s => Qeq_bool (st_finalScore s) q) l.

(** *** Paired samples *)

(** Student [s] has a number for both subjects at the time slot. *)
Definition bothPresent (timeId subA subB : string) (s : Student) : bool :=
  match getCell (st_data s) timeId subA, getCell (st_data s) timeId subB with
  | Some (Some _), Some (Some _) => true
  | _, _ => false
  end.

(** The paired sample of two subjects at a time slot: one pair of scores per
    student that has both. *)
Definition pairedSample (data : list Student) (timeId subA subB : string)
    : list (Q * Q) :=
  map (fun s => (cellValue (st_data s) timeId subA,
                 cellValue (st_data s) timeId subB))
      (List.filter (bothPresent timeId subA subB) data).

(** Every student has a cell (a number or [null]) for the subject at the
    time slot. *)
Definition cellsDefined (data : list Student) (timeId subId : string) : Prop :=
  Forall (fun s => is_Some (getCell (st_data s) timeId subId)) data.

Definition sampleMean (l : list Q) : Q :=
  bigsum (fun x => x) l / inject_Z (Z.of_nat (length l)).

(** Sum of the squared deviations from the mean, and the variance. *)
Definition devSq (l : list Q) : Q :=
  bigsum (fun x => (x - sampleMean l) * (x - sampleMean l)) l.

Definition variance (l : list Q) : Q :=
  devSq l / inject_Z (Z.of_nat (length l)).

(** *** The imputation pass *)

(** The detail recorded for a cell, if any. *)
Definition detailOf (s : Student) (timeId subId : string) : option Detail :=
  row ← st_imputedDetails s !! timeId; row !! subId.

(** The same student record with another matrix. *)
Definition withData (s : Student) (d : Matrix) : Student :=
  mkStudent (st_id s) (st_name s) d (st_finalScore s) (st_imputedDetails s).

(** What C1 states for the regression estimate: the reference value scaled
    by the target mean over the mean of the reference subject's present
    values ([1] in place of a zero mean). *)
Definition statedRegression (refVal mean : Q) (refPresent : list Q) : Q :=
  refVal * (mean / orOne (sumQ refPresent / lenOrOne (length refPresent))).

(** The matrix has a cell (a number or [null]) for every declared time slot
    and subject. *)
Definition matrixDefined (d : Matrix) (timeSlots : list TimeSlot)
    (subjects : list Subject) : Prop :=
  forall t sb, In t timeSlots -> In sb subjects ->
    is_Some (getCell d (t_id t) (s_id sb)).

Definition cohortDefined (students : list Student)
    (timeSlots : list TimeSlot) (subjects : list Subject) : Prop :=
  forall s, In s students -> matrixDefined (st_data s) timeSlots subjects.

(** Every present cell lies in [[0, full]] of its subject. *)
Definition presentInRange (students : list Student)
    (timeSlots : list TimeSlot) (subjects : list Subject) : Prop :=
  forall s t sb v, In s students -> In t timeSlots -> In sb subjects ->
    getCell (st_data s) (t_id t) (s_id sb) = Some (Some v) ->
    0 <= v /\ v <= s_full sb.

(** Subjects are told apart by their id: two entries with the same id carry
    the same full marks (so in particular when the ids are distinct). *)
Definition fullMarksById (subjects : list Subject) : Prop :=
  forall sb sb', In sb subjects -> In sb' subjects ->
    s_id sb = s_id sb' -> s_full sb == s_full sb'.

(** Every declared cell of the matrix holds a number within [[0, full]]. *)
Definition filledInRange (d : Matrix) (timeSlots : list TimeSlot)
    (subjects : list Subject) : Prop :=
  forall t sb, In t timeSlots -> In sb subjects ->
    exists v, getCell d (t_id t) (s_id sb) = Some (Some v) /\
              0 <= v /\ v <= s_full sb.

(** The cell holds a number. *)
Definition filled (d : Matrix) (timeId subId : string) : Prop :=
  exists v, getCell d timeId subId = Some (Some v).

(** No cell that holds a number loses it. *)
Definition keepsFilled (nd nd' : Matrix) : Prop :=
  forall timeId subId, filled nd timeId subId -> filled nd' timeId subId.

(** [v] is a rounded and clamped value of the subject with id [subId]. *)
Definition roundedClamped (subjects : list Subject) (subId : string) (v : Q)
    : Prop :=
  exists sb0 raw, In sb0 subjects /\ s_id sb0 = subId /\
                  v = clampRound (s_full sb0) raw.

(** The working copy [nd] against the snapshot [d0] during a pass: a declared
    cell is the one of the snapshot, or the snapshot had [null] there and the
    cell now holds a rounded and clamped number, within range. *)
Definition passInv (d0 nd : Matrix) (timeSlots : list TimeSlot)
    (subjects : list Subject) : Prop :=
  forall t sb, In t timeSlots -> In sb subjects ->
    exists c0 c,
      getCell d0 (t_id t) (s_id sb) = Some c0 /\
      getCell nd (t_id t) (s_id sb) = Some c /\
      (c = c0 \/
       (c0 = None /\ exists v, c = Some v /\ 0 <= v /\ v <= s_full sb /\
                               roundedClamped subjects (s_id sb) v)).

(** What the engine owes for a student [s] of the cohort: [s'] is the same
    student, every declared cell of its matrix is filled within range, the
    present cells of [s] are untouched and the absent ones hold a rounded and
    clamped value. *)
Definition imputedFrom (timeSlots : list TimeSlot) (subjects : list Subject)
    (s s' : Student) : Prop :=
  st_id s' = st_id s /\ st_name s' = st_name s /\
  passInv (st_data s) (st_data s') timeSlots subjects /\
  filledInRange (st_data s') timeSlots subjects.

(** ** 9. Concrete inputs *)

(** *** Matrices and series *)

Definition mkRow (l : list (string * Cell)) : Row := list_to_map l.

Definition mkData (l : list (string * list (string * Cell))) : Matrix :=
  list_to_map (map (fun '(t, r) => (t, mkRow r)) l).

Definition slots3 : list TimeSlot :=
  [mkTimeSlot "t1" "T1" 1; mkTimeSlot "t2" "T2" 1; mkTimeSlot "t3" "T3" 1].

(** Series 80, absent, absent, 90 over four slots: a discrete gap of
    length 2. *)
Definition slots4 : list TimeSlot :=
  [mkTimeSlot "t1" "T1" 1; mkTimeSlot "t2" "T2" 1; mkTimeSlot "t3" "T3" 1;
   mkTimeSlot "t4" "T4" 1].

Definition slot1 : TimeSlot := mkTimeSlot "t1" "T1" 1.

(** One subject, absent at the first two slots, 70 at the third. *)
Definition leadingGap : Matrix :=
  mkData [("t1", [("x", None)]); ("t2", [("x", None)]);
          ("t3", [("x", Some 70)])].

(** One subject: 80, absent, 90. *)
Definition interiorGap : Matrix :=
  mkData [("t1", [("x", Some 80)]); ("t2", [("x", None)]);
          ("t3", [("x", Some 90)])].

Definition doubleGap : Matrix :=
  mkData [("t1", [("x", Some 80)]); ("t2", [("x", None)]);
          ("t3", [("x", None)]); ("t4", [("x", Some 90)])].

Definition student1 (sid : string) (cells : list (string * Cell)) : Student :=
  mkStudent sid sid (mkData [("t1", cells)]) 0 ∅.

(** Series 80, absent, 90 of subject x over three slots, for one student. *)
Definition interiorStudent : Student :=
  mkStudent "o1" "o1" interiorGap 0 ∅.

Definition doubleGapStudent : Student := mkStudent "o1" "o1" doubleGap 0 ∅.

(** *** Subjects and cohorts *)

Definition subjectX : Subject := mkSubject "x" "X" 1 100 TMain.

Definition subjectA : Subject := mkSubject "A" "Alg" 1 150 TMain.
Definition subjectB : Subject := mkSubject "B" "Bio" 1 150 TMain.

Definition subjectsAB : list Subject := [subjectA; subjectB].

(** Three students with the same constant score in both subjects. *)
Definition constantCohort : list Student :=
  [student1 "o1" [("A", Some 50); ("B", Some 50)];
   student1 "o2" [("A", Some 50); ("B", Some 50)];
   student1 "o3" [("A", Some 50); ("B", Some 50)]].

(** Three students with identical, non-constant series in both subjects. *)
Definition identicalCohort : list Student :=
  [student1 "o1" [("A", Some 40); ("B", Some 40)];
   student1 "o2" [("A", Some 50); ("B", Some 50)];
   student1 "o3" [("A", Some 90); ("B", Some 90)]].

(** Regression with a reference subject that another student lacks:
    [p] misses A and has B = 40; [q] has A = 50 and misses B. *)
Definition studentP : Student := student1 "p" [("A", None); ("B", Some 40)].

Definition refMeanCohort : list Student :=
  [studentP;
   student1 "q" [("A", Some 50); ("B", None)]].

(** A student that misses both subjects, next to complete ones. *)
Definition missingBoth : Student := student1 "p" [("A", None); ("B", None)].

Definition bothMissingCohort : list Student :=
  [missingBoth;
   student1 "q" [("A", Some 60); ("B", Some 80)];
   student1 "r" [("A", Some 60); ("B", Some 30)];
   student1 "s" [("A", Some 90); ("B", Some 10)]].

(** The working copy of [missingBoth] once subject A got the value 70. *)
Definition afterA : Matrix := mkData [("t1", [("A", Some 70); ("B", None)])].

(** The example of the specification: one slot, one subject of full marks
    100, scores 90, absent, 70. *)
Definition exampleCohort : list Student :=
  [student1 "o1" [("x", Some 90)]; student1 "o2" [("x", None)];
   student1 "o3" [("x", Some 70)]].

(** *** Running the engine *)

(** A square root on the rationals that is exact on squares (and rounds the
    numerator down elsewhere): [sqrt (n / d) = sqrt (n * d) / d]. *)
Definition sqrtQ (y : Q) : Q :=
  Qmake (Z.sqrt (Qnum y * Zpos (Qden y))) (Qden y).

(** A random source that always answers one half (zero jitter), and
    stand-ins for the transcendental functions, to run the engine. *)
Definition halfRandom (g : unit) : Q * unit := (1 # 2, tt).

Definition zeroFn (x : Q) : Q := 0.

(** The engine run with the exact square root, the constant random source
    and one draw per loop. *)
Definition runEngine (students : list Student) (timeSlots : list TimeSlot)
    (subjects : list Subject) (algorithm : AlgorithmType)
    : option (list Student * list LogLine * unit) :=
  handleRunAlgorithm sqrtQ zeroFn zeroFn 0 unit halfRandom 1
                     students timeSlots subjects algorithm tt.

Definition rawEngine :=
  imputeRaw sqrtQ zeroFn zeroFn 0 unit halfRandom 1.

(** The student with id [sid] in the result of a run. *)
Definition resultOf (r : option (list Student * list LogLine * unit))
    (sid : string) : option Student :=
  '(out, _, _) ← r; List.find (fun s => String.eqb (st_id s) sid) out.

(** The cell and the detail of a student of the result. *)
Definition outcome (r : option (list Student * list LogLine * unit))
    (sid timeId subId : string) : option (option Cell * option Detail) :=
  s ← resultOf r sid; Some (getCell (st_data s) timeId subId,
                            detailOf s timeId subId).

(** ** 10. The rest of the component: trend chart, template, data loading *)

(** [subjects.filter(sub => s.data[t.id][sub.id] !== null)], each subject
    with the score that was read. *)
Fixpoint presentSubjects (d : Matrix) (timeId : string)
    (subjects : list Subject) : option (list (Subject * Q)) :=
  match subjects with
  | [] => Some []
  | sb :: rest =>
      c ← getCell d timeId (s_id sb);
      l ← presentSubjects d timeId rest;
      Some (match c with
            | Some v => (sb, v) :: l
            | None => l
            end)
  end.

(** One point of the weighted-score trend chart: the weighted mean of the
    present scores of the selected student at the slot, times 10; [0] when
    nobody is selected or the weights of the present subjects sum to 0. *)
Definition trendPoint (students : list Student) (selectedStudentId : string)
    (subjects : list Subject) (t : TimeSlot) : option (string * Q) :=
  match List.find (fun stu => String.eqb (st_id stu) selectedStudentId)
                  students with
  | None => Some (t_label t, 0)
  | Some s =>
      validSubs ← presentSubjects (st_data s) (t_id t) subjects;
      let sum := fold_left (fun acc p => acc + snd p * s_weight (fst p))
                           validSubs 0 in
      let weightSum := fold_left (fun acc p => acc + s_weight (fst p))
                                 validSubs 0 in
      Some (t_label t,
            if Qeq_bool weightSum 0 then 0 else sum / weightSum * 10)
  end.

(** The [data] of the area chart: [timeSlots.map(t => ...)]. *)
Definition trendData (students : list Student) (selectedStudentId : string)
    (timeSlots : list TimeSlot) (subjects : list Subject)
    : option (list (string * Q)) :=
  mapM (trendPoint students selectedStudentId subjects) timeSlots.

(** The line feed of ["\no001,"]. *)
Definition newline : string := String "010"%char EmptyString.

(** [headers] of [handleDownloadTemplate]: ["ID"], then one
    [`${t.id}_${s.id}`] per time slot and subject, pushed slot by slot. *)
Definition templateHeaders (timeSlots : list TimeSlot)
    (subjects : list Subject) : list string :=
  fold_left (fun headers t =>
               fold_left (fun headers s =>
                            headers ++
                            [String.append (t_id t)
                               (String.append "_" (s_id s))])
                         subjects headers)
            timeSlots ["ID"].

(** [headers.slice(1).map(() => "").join(",")]. *)
Definition templateBlanks (headers : list string) : string :=
  String.concat "," (map (fun _ : string => EmptyString) (tail headers)).

(** The text of the template:
    [headers.join(",") + "\no001," + blanks]. *)
Definition templateCsv (timeSlots : list TimeSlot) (subjects : list Subject)
    : string :=
  let headers := templateHeaders timeSlots subjects in
  String.append (String.concat "," headers)
    (String.append (String.append newline "o001,") (templateBlanks headers)).

(** The default configuration. *)
Definition DEFAULT_TIME_SLOTS : list TimeSlot :=
  [mkTimeSlot "t1" "月考1" (1 # 10);
   mkTimeSlot "t2" "月考2" (15 # 100);
   mkTimeSlot "t3" "期中" (2 # 10);
   mkTimeSlot "t4" "月考3" (15 # 100);
   mkTimeSlot "t5" "月考4" (2 # 10);
   mkTimeSlot "t6" "期末" (2 # 10)].

Definition DEFAULT_SUBJECTS : list Subject :=
  [mkSubject "x1" "语文" (14 # 100) 150 TMain;
   mkSubject "x2" "数学" (13 # 100) 150 TMain;
   mkSubject "x3" "英语" (13 # 100) 150 TMain;
   mkSubject "x4" "物理" (1 # 10) 100 TSub;
   mkSubject "x5" "化学" (1 # 10) 100 TSub;
   mkSubject "x6" "生物" (1 # 10) 100 TSub;
   mkSubject "x7" "历史" (1 # 10) 100 TSub;
   mkSubject "x8" "政治" (1 # 10) 100 TSub;
   mkSubject "x9" "地理" (1 # 10) 100 TSub].

(** A JavaScript object whose keys matter in their order ([Object.keys]): the
    entries in insertion order, for keys that are not array indices.
    [obj[k] = v] replaces the value of a key in place or appends the key. *)
Fixpoint objSet {V : Type} (o : list (string * V)) (k : string) (v : V)
    : list (string * V) :=
  match o with
  | [] => [(k, v)]
  | (k', v') :: o' =>
      if String.eqb k' k then (k', v) :: o' else (k', v') :: objSet o' k v
  end.

Fixpoint objGet {V : Type} (o : list (string * V)) (k : string) : option V :=
  match o with
  | [] => None
  | (k', v') :: o' => if String.eqb k' k then Some v' else objGet o' k
  end.

Definition objKeys {V : Type} (o : list (string * V)) : list string :=
  map fst o.

(** [`o${i}`]. *)
Definition mockId (i : nat) : string :=
  String.append "o" (NilEmpty.string_of_uint (Nat.to_uint i)).

(** [x < y] on numbers. *)
Definition Qlt_bool (x y : Q) : bool := negb (Qle_bool y x).

(** [d[timeId][subId] = null]. *)
Definition setNull (d : Matrix) (timeId subId : string) : option Matrix :=
  row ← d !! timeId; Some (<[timeId := <[subId := None]> row]> d).

Section DataLoading.

Variable Math_sqrt : Q -> Q.
Variable Math_log : Q -> Q.
Variable Math_cos : Q -> Q.
Variable Math_PI : Q.
Variable Rng : Type.
Variable Math_random : Rng -> Q * Rng.
Variable fuel : nat.

(** [String.prototype.toUpperCase]. *)
Variable toUpperCase : string -> string.

(** The body of [DEFAULT_SUBJECTS.forEach] in [generateMockData]: a clamped
    and rounded normal draw around three quarters of the full marks, punched
    out with probability one fifth. *)
Definition mockScore (s : Subject) (g : Rng) : option (Cell * Rng) :=
  '(x, g1) ← generateBoxMuller Math_sqrt Math_log Math_cos Math_PI Rng
                Math_random fuel (s_full s * (3 # 4)) 15 g;
  let score := Qmin (s_full s) (Qmax 0 (mathRound x)) in
  let '(r, g2) := Math_random g1 in
  Some (if Qlt_bool r (1 # 5) then None else Some score, g2).

(** [baseData[id][t.id] = {}] filled by the loop over the subjects. *)
Definition mockRow (subjects : list Subject) (g : Rng) : option (Row * Rng) :=
  foldM (fun '(row, g) s =>
           '(c, g') ← mockScore s g; Some (<[s_id s := c]> row, g'))
        subjects (∅, g).

(** [baseData[id] = {}] filled by the loop over the time slots. *)
Definition mockMatrix (timeSlots : list TimeSlot) (subjects : list Subject)
    (g : Rng) : option (Matrix * Rng) :=
  foldM (fun '(m, g) t =>
           '(row, g') ← mockRow subjects g; Some (<[t_id t := row]> m, g'))
        timeSlots (∅, g).

(** The loop [for (let i = 1; i <= count; i++)]. *)
Definition mockStudents (timeSlots : list TimeSlot) (subjects : list Subject)
    (count : nat) (g : Rng) : option (list (string * Matrix) * Rng) :=
  foldM (fun '(baseData, g) i =>
           '(m, g') ← mockMatrix timeSlots subjects g;
           Some (objSet baseData (mockId i) m, g'))
        (seq 1 count) ([], g).

(** [if (baseData['o1']) { baseData['o1']['t3']['x4'] = null; ... }]. *)
Definition punchO1 (baseData : list (string * Matrix))
    : option (list (string * Matrix)) :=
  match objGet baseData "o1" with
  | None => Some baseData
  | Some m =>
      m1 ← setNull m "t3" "x4";
      m2 ← setNull m1 "t3" "x5";
      Some (objSet baseData "o1" m2)
  end.

Definition generateMockData (count : nat) (g : Rng)
    : option (list (string * Matrix) * Rng) :=
  '(baseData, g') ← mockStudents DEFAULT_TIME_SLOTS DEFAULT_SUBJECTS count g;
  baseData' ← punchO1 baseData;
  Some (baseData', g').

(** [loadData]: one student per key of [rawData], in the order of
    [Object.keys].  The source then calls [recalcScores] on the list and
    drops what it returns, so the list is stored as it was built. *)
Definition loadData (rawData : list (string * Matrix)) (tSlots : list TimeSlot)
    (subs : list Subject) : option (list Student) :=
  initStudents ←
    mapM (fun key =>
            d ← objGet rawData key;
            Some (mkStudent key (String.append "学生 " (toUpperCase key)) d 0 ∅))
         (objKeys rawData);
  let _ := recalcScores initStudents tSlots subs in
  Some initStudents.

End DataLoading.

(** ** 11. Further notions *)

(** The record with its imputation details emptied. *)
Definition clearDetails (s : Student) : Student :=
  mkStudent (st_id s) (st_name s) (st_data s) (st_finalScore s) ∅.

(** Number of declared cells of the matrix that hold [null], counted along
    the two lists. *)
Definition absentInRow (d : Matrix) (subjects : list Subject) (t : TimeSlot)
    : nat :=
  length (List.filter
            (fun sb => match getCell d (t_id t) (s_id sb) with
                       | Some None => true
                       | _ => false
                       end) subjects).

Definition absentCells (d : Matrix) (timeSlots : list TimeSlot)
    (subjects : list Subject) : nat :=
  list_sum (map (absentInRow d subjects) timeSlots).

(** Number of occurrences of the comma in a string. *)
Fixpoint countComma (s : string) : nat :=
  match s with
  | EmptyString => O
  | String c s' => (if Ascii.eqb c ","%char then 1 else 0) + countComma s'
  end.

(** The state of the random source after [k] draws. *)
Fixpoint afterDraws {Rng : Type} (Math_random : Rng -> Q * Rng) (k : nat)
    (g : Rng) : Rng :=
  match k with
  | O => g
  | S k' => afterDraws Math_random k' (snd (Math_random g))
  end.

(** A student of the nearest-neighbour search that counts: another id, the
    cell present with value [v], at least one shared dimension, squared
    distance [d]. *)
Definition knnCandidate (student : Student) (subjects : list Subject)
    (newData : Matrix) (time : TimeSlot) (sb : Subject) (other : Student)
    (v d : Q) : Prop :=
  st_id other <> st_id student /\
  getCell (st_data other) (t_id time) (s_id sb) = Some (Some v) /\
  exists count, knnDistance subjects newData other time sb = Some (d, count)
                /\ (0 < count)%nat.

(** ** 12. Further concrete inputs *)

(** [leadingGap] with the scores of a second subject beside it. *)
Definition leadingGapWithY : Matrix :=
  mkData [("t1", [("x", None); ("y", Some 55)]);
          ("t2", [("x", None); ("y", None)]);
          ("t3", [("x", Some 70); ("y", Some 65)])].

(** A random source that answers 0 at its first draw and one half from then
    on; its state is the number of draws so far. *)
Definition zeroThenHalf (n : nat) : Q * nat :=
  (if (n =? 0)%nat then 0 else 1 # 2, S n).

(** A square root that does not tell apart two fractions of the same
    value. *)
Definition sqrtRed (y : Q) : Q := sqrtQ (Qred y).

(** A cohort in which nobody has a score for subject A. *)
Definition nobodyHasA : list Student :=
  [student1 "p" [("A", None); ("B", Some 40)];
   student1 "q" [("A", None); ("B", Some 80)]].

(** A time slot of weight zero. *)
Definition zeroSlot : TimeSlot := mkTimeSlot "t1" "T1" 0.

(** A pair with its two scores exchanged. *)
Definition swapPair (p : Q * Q) : Q * Q := (snd p, fst p).

(** The outcome of the nearest-neighbour search over the students [l],
    started from the mean: nobody counts and the mean stays, or the value
    of a candidate is taken whose distance is strictly below that of every
    candidate before it and not above that of any candidate after it. *)
Definition knnOutcome (Math_sqrt : Q -> Q) (student : Student)
    (subjects : list Subject) (newData : Matrix) (time : TimeSlot)
    (sb : Subject) (mean : Q) (l : list Student) (acc : option Q * Q)
    : Prop :=
  (acc = (None, mean) /\
   forall o v d, In o l ->
     ~ knnCandidate student subjects newData time sb o v d) \/
  (exists l1 o l2 v d,
     l = l1 ++ o :: l2 /\
     knnCandidate student subjects newData time sb o v d /\
     acc = (Some (Math_sqrt d), v) /\
     (forall o' v' d', In o' l1 ->
        knnCandidate student subjects newData time sb o' v' d' ->
        Math_sqrt d < Math_sqrt d') /\
     (forall o' v' d', In o' l2 ->
        knnCandidate student subjects newData time sb o' v' d' ->
        Math_sqrt d <= Math_sqrt d')).

(** The detail recorded under a pair of keys. *)
Definition detailAt (ds : gmap string (gmap string Detail))
    (timeId subId : string) : option Detail :=
  row ← ds !! timeId; row !! subId.

(** Every recorded detail belongs to a cell that the snapshot [d0] had
    absent, carries the value now in the matrix [nd], and a gap type. *)
Definition detailsSound (d0 nd : Matrix)
    (ds : gmap string (gmap string Detail)) : Prop :=
  forall timeId subId det,
    detailAt ds timeId subId = Some det ->
    getCell d0 timeId subId = Some None /\
    getCell nd timeId subId = Some (Some (d_val det)) /\
    d_type det <> MNone.

(** The details of [s'] account exactly for the cells that [s] had absent. *)
Definition detailsExact (timeSlots : list TimeSlot) (subjects : list Subject)
    (s s' : Student) : Prop :=
  detailsSound (st_data s) (st_data s') (st_imputedDetails s') /\
  forall t sb, In t timeSlots -> In sb subjects ->
    getCell (st_data s) (t_id t) (s_id sb) = Some None ->
    is_Some (detailAt (st_imputedDetails s') (t_id t) (s_id sb)).

(** No recorded detail gets lost from one state of the pass to another. *)
Definition keepsDetails {Rng : Type} (ps ps' : PassState Rng) : Prop :=
  forall timeId subId,
    is_Some (detailAt (ps_details ps) timeId subId) ->
    is_Some (detailAt (ps_details ps') timeId subId).

(** Number of absent declared cells in the whole cohort. *)
Definition absentInCohort (students : list Student)
    (timeSlots : list TimeSlot) (subjects : list Subject) : nat :=
  list_sum (map (fun s => absentCells (st_data s) timeSlots subjects)
                students).

(** A cohort with no absent cell. *)
Definition completeCohort : list Student :=
  [student1 "q" [("A", Some 60); ("B", Some 80)];
   student1 "s" [("A", Some 90); ("B", Some 10)]].

(** Every declared cell of every student holds a number. *)
Definition cohortComplete (students : list Student)
    (timeSlots : list TimeSlot) (subjects : list Subject) : Prop :=
  forall s t sb, In s students -> In t timeSlots -> In sb subjects ->
    filled (st_data s) (t_id t) (s_id sb).

(** The header of one cell of the template. *)
Definition cellHeader (t : TimeSlot) (s : Subject) : string :=
  String.append (t_id t) (String.append "_" (s_id s)).

(** The two lines of the template. *)
Definition templateHeaderLine (timeSlots : list TimeSlot)
    (subjects : list Subject) : string :=
  String.concat "," (templateHeaders timeSlots subjects).

Definition templateDataLine (timeSlots : list TimeSlot)
    (subjects : list Subject) : string :=
  String.append "o001," (templateBlanks (templateHeaders timeSlots subjects)).

(** The scores of a row lie within the full marks of their subjects. *)
Definition rowInRange (subjects : list Subject) (row : Row) : Prop :=
  forall sb v, In sb subjects -> row !! s_id sb = Some (Some v) ->
    0 <= v /\ v <= s_full sb.

(** A row is complete for the subjects and within range. *)
Definition rowGood (subjects : list Subject) (row : Row) : Prop :=
  rowInRange subjects row /\
  forall sb, In sb subjects -> is_Some (row !! s_id sb).

(** A matrix has a cell for every declared slot and subject, and its
    present cells are within range. *)
Definition matrixGood (timeSlots : list TimeSlot) (subjects : list Subject)
    (m : Matrix) : Prop :=
  matrixDefined m timeSlots subjects /\
  forall t sb v, In t timeSlots -> In sb subjects ->
    getCell m (t_id t) (s_id sb) = Some (Some v) -> 0 <= v /\ v <= s_full sb.

(** A freshly loaded student: no score yet, no details. *)
Definition freshStudent (timeSlots : list TimeSlot) (subjects : list Subject)
    (s : Student) : Prop :=
  matrixGood timeSlots subjects (st_data s) /\
  st_finalScore s = 0 /\ st_imputedDetails s = ∅.


(** The weight a subject brings to a point of the trend chart: its own when
    the cell holds a number, none when the cell is absent. *)
Definition presentWeight (d : Matrix) (timeId : string) (sb : Subject) : Q :=
  match getCell d timeId (s_id sb) with
  | Some (Some _) => s_weight sb
  | _ => 0
  end.

(** Sum of the weights of the subjects present at the slot, and sum of their
    weighted scores. *)
Definition presentWeightSum (d : Matrix) (timeId : string)
    (subjects : list Subject) : Q :=
  bigsum (presentWeight d timeId) subjects.

Definition presentScoreSum (d : Matrix) (timeId : string)
    (subjects : list Subject) : Q :=
  bigsum (fun sb => cellValue d timeId (s_id sb) * s_weight sb) subjects.

(** *** The paths that write a cell *)

(** The recorded gap type and method tag are those of a defined path:
    temporal interpolation of a discrete gap, or the estimator of the chosen
    algorithm on a continuous (or degraded) gap. *)
Definition definedPath (subjects : list Subject) (algorithm : AlgorithmType)
    (ty : MissingType) (method : string) : Prop :=
  (ty = Discrete /\ method = "时序插值") \/
  (ty = Continuous /\
   match algorithm with
   | Regression =>
       method = "均值填充" \/
       exists r, In r subjects /\
                 method = String.append "回归(" (String.append (s_name r) ")")
   | Knn => method = "KNN(最近邻)"
   | BoxMuller => method = "Box-Muller"
   end).

(** [z] is the integer nearest to [x], halves going up. *)
Definition nearestInteger (x : Q) (z : Z) : Prop :=
  inject_Z z - (1 # 2) <= x /\ x < inject_Z z + (1 # 2).

(** [v] is [r] brought into [[0, full]]. *)
Definition clampedTo (full r v : Q) : Prop :=
  (r < 0 /\ v == 0) \/ (0 <= r /\ r <= full /\ v == r) \/
  (full < r /\ v == full).

(** [v] is [raw] rounded to the nearest integer and then clamped to
    [[0, full]]. *)
Definition roundedThenClamped (full raw v : Q) : Prop :=
  exists z : Z, nearestInteger raw z /\ clampedTo full (inject_Z z) v.

(** The detail [det] under the keys [(timeId, subId)] of student [s] comes
    from the estimate [raw] of the engine: a declared slot and subject with
    these ids, whose cell the snapshot classifies as a gap, was estimated by
    [imputeRaw] on a working copy [nd] of the pass, giving [raw] with the
    recorded method and gap type, and the recorded value is [raw] rounded
    and clamped by the code. *)
Definition estimatedBy (Math_sqrt Math_log Math_cos : Q -> Q) (Math_PI : Q)
    (Rng : Type) (Math_random : Rng -> Q * Rng) (fuel : nat)
    (students : list Student) (s : Student) (timeSlots : list TimeSlot)
    (subjects : list Subject) (algorithm : AlgorithmType)
    (timeId subId : string) (raw : Q) (det : Detail) : Prop :=
  exists idx t sb mt nd g g',
    timeSlots !! idx = Some t /\ In sb subjects /\
    t_id t = timeId /\ s_id sb = subId /\
    analyzeMissingType (st_data s) idx (s_id sb) timeSlots = Some mt /\
    mt <> MNone /\
    passInv (st_data s) nd timeSlots subjects /\
    imputeRaw Math_sqrt Math_log Math_cos Math_PI Rng Math_random fuel
              students s timeSlots subjects algorithm nd idx t sb mt g
    = Some (raw, d_method det, d_type det, g') /\
    d_val det = clampRound (s_full sb) raw.

(** What the engine owes for the cells that student [s] had absent: each of
    them has in [s'] a detail whose value stands in the matrix, whose gap
    type and method tag are those of a defined path, and whose value is the
    estimate of that path rounded to the nearest integer and then clamped to
    the full marks of the subject. *)
Definition writtenByPaths (Math_sqrt Math_log Math_cos : Q -> Q) (Math_PI : Q)
    (Rng : Type) (Math_random : Rng -> Q * Rng) (fuel : nat)
    (students : list Student) (timeSlots : list TimeSlot)
    (subjects : list Subject) (algorithm : AlgorithmType)
    (s s' : Student) : Prop :=
  forall t sb, In t timeSlots -> In sb subjects ->
    getCell (st_data s) (t_id t) (s_id sb) = Some None ->
    exists det raw,
      detailOf s' (t_id t) (s_id sb) = Some det /\
      getCell (st_data s') (t_id t) (s_id sb) = Some (Some (d_val det)) /\
      definedPath subjects algorithm (d_type det) (d_method det) /\
      estimatedBy Math_sqrt Math_log Math_cos Math_PI Rng Math_random fuel
                  students s timeSlots subjects algorithm
                  (t_id t) (s_id sb) raw det /\
      roundedThenClamped (s_full sb) raw (d_val det).

(** Every detail of the pass state comes from an estimate of a defined
    path. *)
Definition detailsTraced (Math_sqrt Math_log Math_cos : Q -> Q) (Math_PI : Q)
    (Rng : Type) (Math_random : Rng -> Q * Rng) (fuel : nat)
    (students : list Student) (s : Student) (timeSlots : list TimeSlot)
    (subjects : list Subject) (algorithm : AlgorithmType)
    (ds : gmap string (gmap string Detail)) : Prop :=
  forall timeId subId det,
    detailAt ds timeId subId = Some det ->
    definedPath subjects algorithm (d_type det) (d_method det) /\
    exists raw,
      estimatedBy Math_sqrt Math_log Math_cos Math_PI Rng Math_random fuel
                  students s timeSlots subjects algorithm timeId subId raw
                  det.
(** * Properties *)

(** ** Gap classification *)

Lemma cellAt_lt d ts subId i c :
  cellAt d ts subId i = Some c -> (i < length ts)%nat.
Proof.
  unfold cellAt. intros H.
  destruct (ts !! i) as [t|] eqn:E; [|discriminate].
  apply lookup_lt_Some in E. exact E.
Qed.

Lemma scanBack_gap d ts subId lo n :
  (lo <= n)%nat ->
  (forall k, (lo <= k < n)%nat -> cellAt d ts subId k = Some None) ->
  lo = O \/ presentAt d ts subId (lo - 1) ->
  scanBack d ts subId n = Some (n - lo)%nat.
Proof.
  intros Hle Habs Hleft. induction n as [|i IH].
  - reflexivity.
  - destruct (Nat.eq_dec lo (S i)) as [->|Hne].
    + destruct Hleft as [H0|[v Hv]]; [discriminate|].
      simpl in *. rewrite Nat.sub_0_r in Hv. rewrite Hv. simpl.
      f_equal. lia.
    + simpl. rewrite Habs by lia. simpl.
      rewrite IH; [|lia|intros k Hk; apply Habs; lia].
      simpl. f_equal. lia.
Qed.

Lemma scanFwd_gap d ts subId hi m : forall j,
  (hi + 1 - j = m)%nat -> (j <= hi + 1)%nat -> (hi < length ts)%nat ->
  (forall k, (j <= k <= hi)%nat -> cellAt d ts subId k = Some None) ->
  hi = (length ts - 1)%nat \/ presentAt d ts subId (hi + 1) ->
  scanFwd d ts subId (length ts - j) j = Some m.
Proof.
  induction m as [|m IH]; intros j Hm Hj Hhi Habs Hright.
  - assert (j = hi + 1)%nat as -> by lia.
    destruct Hright as [Hlast|[v Hv]].
    + replace (length ts - (hi + 1))%nat with O by lia. reflexivity.
    + pose proof (cellAt_lt _ _ _ _ _ Hv) as Hlt.
      destruct (length ts - (hi + 1))%nat as [|k'] eqn:E; [lia|].
      simpl. rewrite Hv. reflexivity.
  - destruct (length ts - j)%nat as [|k'] eqn:E; [lia|].
    simpl. rewrite Habs by lia. simpl.
    replace k' with (length ts - S j)%nat by lia.
    rewrite (IH (S j)); [reflexivity|lia|lia|lia| |assumption].
    intros k Hk. apply Habs. lia.
Qed.

(** The loops of [analyzeMissingType] count exactly the gap around the
    cell. *)
Lemma analyzeMissingType_gap d ts subId idx lo hi :
  isGap d ts subId lo hi -> (lo <= idx <= hi)%nat ->
  analyzeMissingType d idx subId ts = Some (gapClass ts idx lo hi).
Proof.
  intros [Hord Hin Habs Hl Hr] Hidx. unfold analyzeMissingType.
  rewrite Habs by lia. simpl.
  rewrite (scanBack_gap d ts subId lo idx);
    [|lia|intros k Hk; apply Habs; lia|assumption].
  simpl.
  rewrite (scanFwd_gap d ts subId hi (hi + 1 - S idx) (S idx));
    [|reflexivity|lia|lia|intros k Hk; apply Habs; lia|assumption].
  simpl. unfold gapClass.
  replace (S (idx - lo + (hi + 1 - S idx)))%nat with (hi - lo + 1)%nat by lia.
  rewrite <- orb_assoc. destruct (_ || _); reflexivity.
Qed.

Lemma analyzeMissingType_present d ts subId idx v :
  cellAt d ts subId idx = Some (Some v) ->
  analyzeMissingType d idx subId ts = Some MNone.
Proof. intros H. unfold analyzeMissingType. rewrite H. reflexivity. Qed.

(** The run of absent cells below [n] reaches down to some [lo]. *)
Lemma gap_down d ts subId n :
  seriesDefined d ts subId -> (n < length ts)%nat ->
  cellAt d ts subId n = Some None ->
  exists lo, (lo <= n)%nat /\
    (forall k, (lo <= k <= n)%nat -> cellAt d ts subId k = Some None) /\
    (lo = O \/ presentAt d ts subId (lo - 1)).
Proof.
  intros Hdef. induction n as [|i IH]; intros Hn Hc.
  - exists O. split; [lia|]. split; [|now left].
    intros k Hk. assert (k = O) as -> by lia. assumption.
  - destruct (Hdef i ltac:(lia)) as [[v|] Hi].
    + exists (S i). split; [lia|]. split.
      * intros k Hk. assert (k = S i) as -> by lia. assumption.
      * right. exists v. simpl. rewrite Nat.sub_0_r. assumption.
    + destruct (IH ltac:(lia) Hi) as (lo & Hlo & Habs & Hleft).
      exists lo. split; [lia|]. split; [|assumption].
      intros k Hk. destruct (Nat.eq_dec k (S i)) as [->|Hne];
        [assumption|apply Habs; lia].
Qed.

(** The run of absent cells above [n] reaches up to some [hi]. *)
Lemma gap_up d ts subId m : forall n,
  (length ts - n = m)%nat ->
  seriesDefined d ts subId -> (n < length ts)%nat ->
  cellAt d ts subId n = Some None ->
  exists hi, (n <= hi < length ts)%nat /\
    (forall k, (n <= k <= hi)%nat -> cellAt d ts subId k = Some None) /\
    (hi = (length ts - 1)%nat \/ presentAt d ts subId (hi + 1)).
Proof.
  induction m as [|m IH]; intros n Hm Hdef Hn Hc; [lia|].
  destruct (Nat.eq_dec (S n) (length ts)) as [Hlast|Hmore].
  - exists n. split; [lia|]. split; [|left; lia].
    intros k Hk. assert (k = n) as -> by lia. assumption.
  - destruct (Hdef (S n) ltac:(lia)) as [[v|] Hi].
    + exists n. split; [lia|]. split.
      * intros k Hk. assert (k = n) as -> by lia. assumption.
      * right. exists v. replace (n + 1)%nat with (S n) by lia. assumption.
    + destruct (IH (S n) ltac:(lia) Hdef ltac:(lia) Hi)
        as (hi & Hhi & Habs & Hright).
      exists hi. split; [lia|]. split; [|assumption].
      intros k Hk. destruct (Nat.eq_dec k n) as [->|Hne];
        [assumption|apply Habs; lia].
Qed.

(** Every absent cell of a defined series lies in a gap. *)
Lemma gap_exists d ts subId idx :
  seriesDefined d ts subId -> (idx < length ts)%nat ->
  cellAt d ts subId idx = Some None ->
  exists lo hi, isGap d ts subId lo hi /\ (lo <= idx <= hi)%nat.
Proof.
  intros Hdef Hidx Hc.
  destruct (gap_down d ts subId idx Hdef Hidx Hc) as (lo & Hlo & Hal & Hl).
  destruct (gap_up d ts subId _ idx eq_refl Hdef Hidx Hc)
    as (hi & Hhi & Hah & Hr).
  exists lo, hi. split; [|lia].
  constructor; [lia|lia| |assumption|assumption].
  intros k Hk. destruct (le_lt_dec k idx);
    [apply Hal; lia|apply Hah; lia].
Qed.

(** [analyzeMissingType] answers on every cell of a defined series. *)
Lemma analyzeMissingType_total d ts subId idx :
  seriesDefined d ts subId -> (idx < length ts)%nat ->
  exists mt, analyzeMissingType d idx subId ts = Some mt /\
    (mt = MNone <-> presentAt d ts subId idx).
Proof.
  intros Hdef Hidx. destruct (Hdef idx Hidx) as [[v|] Hc].
  - exists MNone. split; [eapply analyzeMissingType_present; eauto|].
    split; [intros _; exists v; assumption|reflexivity].
  - destruct (gap_exists d ts subId idx Hdef Hidx Hc) as (lo & hi & Hg & Hin).
    exists (gapClass ts idx lo hi).
    split; [apply analyzeMissingType_gap; assumption|].
    split.
    + unfold gapClass. destruct (_ || _); discriminate.
    + intros [v Hv]. congruence.
Qed.

(** C4. [analyzeMissingType] returns [none] exactly when the cell at the
    index is present.  For an absent cell it returns [continuous] exactly
    when the maximal run of absent cells around the index is longer than 2 or
    the index is the first or the last slot, and [discrete] otherwise.  A
    single missing cell strictly between two present cells of the same
    subject is [discrete]. *)
Theorem C4_classify_by_run_and_own_index d ts subId idx :
  seriesDefined d ts subId -> (idx < length ts)%nat ->
  (exists mt, analyzeMissingType d idx subId ts = Some mt) /\
  (analyzeMissingType d idx subId ts = Some MNone <->
     presentAt d ts subId idx) /\
  (cellAt d ts subId idx = Some None ->
     exists lo hi, isGap d ts subId lo hi /\ (lo <= idx <= hi)%nat) /\
  (forall lo hi, isGap d ts subId lo hi -> (lo <= idx <= hi)%nat ->
     (analyzeMissingType d idx subId ts = Some Continuous <->
        (2 < hi - lo + 1 \/ idx = 0 \/ idx = length ts - 1)%nat) /\
     (analyzeMissingType d idx subId ts = Some Discrete <->
        ~ (2 < hi - lo + 1 \/ idx = 0 \/ idx = length ts - 1)%nat)) /\
  (cellAt d ts subId idx = Some None ->
     (0 < idx)%nat -> presentAt d ts subId (idx - 1) ->
     presentAt d ts subId (idx + 1) ->
     analyzeMissingType d idx subId ts = Some Discrete).
Proof.
  intros Hdef Hidx.
  destruct (analyzeMissingType_total d ts subId idx Hdef Hidx)
    as (mt & Hmt & Hnone).
  split; [eauto|]. split.
  { rewrite Hmt. rewrite <- Hnone. split; congruence. }
  split; [apply gap_exists; assumption|]. split.
  - intros lo hi Hg Hin.
    rewrite (analyzeMissingType_gap d ts subId idx lo hi Hg Hin).
    unfold gapClass.
    destruct (Nat.ltb_spec 2 (hi - lo + 1)); simpl;
      [split; split; (congruence || tauto || lia)|].
    destruct (Nat.eqb_spec idx 0); simpl;
      [split; split; (congruence || tauto || lia)|].
    destruct (Nat.eqb_spec idx (length ts - 1)); simpl;
      split; split; (congruence || tauto || lia).
  - intros Hc Hpos Hprev Hnext.
    assert (Hg : isGap d ts subId idx idx).
    { constructor; [lia|lia| |right; assumption|right; assumption].
      intros k Hk. assert (k = idx) as -> by lia. assumption. }
    rewrite (analyzeMissingType_gap d ts subId idx idx idx Hg ltac:(lia)).
    unfold gapClass. destruct Hnext as [v Hv].
    apply cellAt_lt in Hv.
    replace (idx - idx + 1)%nat with 1%nat by lia. simpl.
    destruct (Nat.eqb_spec idx 0); [lia|].
    destruct (Nat.eqb_spec idx (length ts - 1)); [lia|]. reflexivity.
Qed.

Lemma slots3_series_defined (d : Matrix) :
  (forall t, t ∈ ["t1"; "t2"; "t3"] -> is_Some (getCell d t "x")) ->
  seriesDefined d slots3 "x".
Proof.
  intros H i Hi. simpl in Hi.
  destruct i as [|[|[|i]]]; [| | |lia]; simpl; apply H; set_solver.
Defined.

Lemma C4_classify_by_run_and_own_index_witness :
  analyzeMissingType interiorGap 1 "x" slots3 = Some Discrete.
Proof.
  assert (Hdef : seriesDefined interiorGap slots3 "x").
  { apply slots3_series_defined. intros t Ht.
    repeat (apply elem_of_cons in Ht as [->|Ht]; [vm_compute; eauto|]).
    inversion Ht. }
  assert (Hidx : (1 < length slots3)%nat) by (simpl; lia).
  destruct (C4_classify_by_run_and_own_index interiorGap slots3 "x" 1
              Hdef Hidx) as (_ & _ & _ & _ & Hsingle).
  apply Hsingle; [reflexivity|lia|exists 80; reflexivity|exists 90; reflexivity].
Defined.

Lemma leadingGap_isGap : isGap leadingGap slots3 "x" 0 1.
Proof.
  constructor; [lia|simpl; lia| |now left|right; exists 70; reflexivity].
  intros k Hk. destruct k as [|[|k]]; [reflexivity|reflexivity|lia].
Defined.

(** C2, as stated, fails: in the series [null, null, 70] the gap touches the
    first slot, yet its second cell is classified [discrete]. *)
Lemma C2_boundary_run_counterexample :
  ~ (forall d ts subId idx lo hi,
       isGap d ts subId lo hi -> (lo <= idx <= hi)%nat ->
       (lo = 0 \/ hi = length ts - 1)%nat ->
       analyzeMissingType d idx subId ts = Some Continuous).
Proof.
  intros H.
  specialize (H leadingGap slots3 "x" 1%nat 0%nat 1%nat leadingGap_isGap
                ltac:(lia) ltac:(now left)).
  vm_compute in H. discriminate H.
Qed.

(** C2 (amended). For a missing cell at [idx] whose gap is [lo..hi]: the
    cell is [continuous] when it sits itself at the first or the last slot,
    and when the gap is longer than 2; [discrete] is returned only when the
    gap has length at most 2 and the cell itself is at neither end of the
    sequence; and a cell that is at neither end in a gap of length at most 2
    is [discrete], also when the gap touches the first or the last slot. *)
Theorem C2_boundary_is_the_cell_not_the_run d ts subId idx lo hi :
  isGap d ts subId lo hi -> (lo <= idx <= hi)%nat ->
  ((idx = 0 \/ idx = length ts - 1)%nat ->
     analyzeMissingType d idx subId ts = Some Continuous) /\
  ((2 < hi - lo + 1)%nat ->
     analyzeMissingType d idx subId ts = Some Continuous) /\
  (analyzeMissingType d idx subId ts = Some Discrete ->
     (hi - lo + 1 <= 2)%nat /\ idx <> 0%nat /\ idx <> (length ts - 1)%nat) /\
  ((hi - lo + 1 <= 2)%nat -> idx <> 0%nat -> idx <> (length ts - 1)%nat ->
     analyzeMissingType d idx subId ts = Some Discrete).
Proof.
  intros Hg Hin.
  rewrite (analyzeMissingType_gap d ts subId idx lo hi Hg Hin).
  unfold gapClass.
  destruct (Nat.ltb_spec 2 (hi - lo + 1));
    destruct (Nat.eqb_spec idx 0);
    destruct (Nat.eqb_spec idx (length ts - 1)); simpl;
    repeat split; intros; try reflexivity; try discriminate; lia.
Qed.

Lemma C2_boundary_is_the_cell_not_the_run_witness :
  analyzeMissingType leadingGap 0 "x" slots3 = Some Continuous /\
  analyzeMissingType leadingGap 1 "x" slots3 = Some Discrete.
Proof.
  split.
  - destruct (C2_boundary_is_the_cell_not_the_run leadingGap slots3 "x" 0 0 1
                leadingGap_isGap ltac:(lia)) as (Hedge & _).
    apply Hedge. now left.
  - destruct (C2_boundary_is_the_cell_not_the_run leadingGap slots3 "x" 1 0 1
                leadingGap_isGap ltac:(lia)) as (_ & _ & _ & Hinner).
    apply Hinner; simpl; lia.
Defined.

(** ** Scoring and ranking *)

Lemma bigsum_ext {A : Type} (f g : A -> Q) (l : list A) :
  (forall x, f x == g x) -> bigsum f l == bigsum g l.
Proof.
  intros H. induction l as [|x l IH]; simpl; [reflexivity|].
  rewrite (H x), IH. reflexivity.
Qed.

Lemma fold_left_bigsum {A : Type} (f : A -> Q) (l : list A) : forall a,
  fold_left (fun acc x => acc + f x) l a == a + bigsum f l.
Proof.
  induction l as [|x l IH]; intros a; simpl; [ring|].
  rewrite IH. ring.
Qed.

Lemma orZero_eq v : orZero v == v.
Proof.
  unfold orZero. destruct (Qeq_bool v 0) eqn:E; [|reflexivity].
  apply Qeq_bool_eq in E. symmetry. exact E.
Qed.

Lemma scoreVal_cellValue d timeId subId :
  scoreVal d timeId subId == cellValue d timeId subId.
Proof.
  unfold scoreVal, cellValue, getCell.
  destruct (d !! timeId) as [row|]; simpl; [|reflexivity].
  destruct (row !! subId) as [[v|]|]; try reflexivity. apply orZero_eq.
Qed.

Lemma totalScore_weightedSum d tSlots subs :
  totalScore d tSlots subs == weightedSum d tSlots subs.
Proof.
  unfold totalScore, weightedSum.
  rewrite (fold_left_bigsum (fun t => slotScore d subs t * t_weight t)).
  rewrite Qplus_0_l. apply bigsum_ext. intros t.
  unfold slotScore.
  rewrite (fold_left_bigsum
             (fun sb => scoreVal d (t_id t) (s_id sb) * s_weight sb)).
  rewrite Qplus_0_l, Qmult_comm. apply Qmult_comp; [reflexivity|].
  apply bigsum_ext. intros sb. rewrite scoreVal_cellValue. reflexivity.
Qed.

Lemma insertSorted_perm cmp x l : Permutation (insertSorted cmp x l) (x :: l).
Proof.
  induction l as [|y l IH]; simpl; [reflexivity|].
  destruct (Qle_bool (cmp x y) 0); [reflexivity|].
  rewrite IH. apply perm_swap.
Qed.

Lemma stableSort_perm cmp l : Permutation (stableSort cmp l) l.
Proof.
  induction l as [|x l IH]; simpl; [reflexivity|].
  rewrite insertSorted_perm. now apply perm_skip.
Qed.

Lemma recalcScores_perm students tSlots subs :
  Permutation (recalcScores students tSlots subs)
              (map (rescore tSlots subs) students).
Proof. apply stableSort_perm. Qed.

(** C7. Every student of the cohort leaves [recalcScores] with a final score
    equal to the sum over the time slots [t] of [t.weight] times the sum over
    the subjects [s] of [v * s.weight], where [v] is the value of the cell
    when it is present and [0] when it is absent; the matrix is not
    touched. *)
Theorem C7_final_score_is_weighted_sum students tSlots subs :
  Permutation (recalcScores students tSlots subs)
              (map (rescore tSlots subs) students) /\
  (forall s, st_data (rescore tSlots subs s) = st_data s /\
             st_id (rescore tSlots subs s) = st_id s) /\
  Forall (fun s' =>
            st_finalScore s' == weightedSum (st_data s') tSlots subs)
         (recalcScores students tSlots subs).
Proof.
  split; [apply recalcScores_perm|]. split; [intros s; split; reflexivity|].
  apply List.Forall_forall. intros s' Hin.
  apply (Permutation_in _ (recalcScores_perm students tSlots subs)) in Hin.
  apply in_map_iff in Hin as (s & <- & _). simpl.
  apply totalScore_weightedSum.
Qed.

Lemma compareFn_le a b : Qle_bool (compareFn a b) 0 = true <-> scoreGe a b.
Proof.
  rewrite Qle_bool_iff. unfold compareFn, scoreGe. split; intros H; lra.
Qed.

Lemma insertSorted_HdRel a x l :
  scoreGe a x -> HdRel scoreGe a l -> HdRel scoreGe a (insertSorted compareFn x l).
Proof.
  intros Hax Hal. destruct l as [|y l]; simpl; [now constructor|].
  destruct (Qle_bool (compareFn x y) 0); constructor; [assumption|].
  now inversion Hal.
Qed.

Lemma insertSorted_sorted x l :
  Sorted scoreGe l -> Sorted scoreGe (insertSorted compareFn x l).
Proof.
  induction 1 as [|y l Hs IH Hhd]; simpl; [repeat constructor|].
  destruct (Qle_bool (compareFn x y) 0) eqn:E.
  - apply compareFn_le in E. repeat constructor; assumption.
  - constructor; [assumption|].
    apply insertSorted_HdRel; [|assumption].
    assert (Hn : ~ scoreGe x y) by (rewrite <- compareFn_le; congruence).
    unfold scoreGe in *. lra.
Qed.

Lemma stableSort_sorted l : Sorted scoreGe (stableSort compareFn l).
Proof.
  induction l as [|x l IH]; simpl; [constructor|].
  now apply insertSorted_sorted.
Qed.

Lemma withScore_insertSorted q x l :
  withScore q (insertSorted compareFn x l) = withScore q (x :: l).
Proof.
  induction l as [|y l IH]; [reflexivity|].
  simpl insertSorted. destruct (Qle_bool (compareFn x y) 0) eqn:E;
    [reflexivity|].
  assert (Hn : ~ scoreGe x y) by (rewrite <- compareFn_le; congruence).
  unfold withScore in *. simpl in *. rewrite IH.
  destruct (Qeq_bool (st_finalScore y) q) eqn:Ey;
    destruct (Qeq_bool (st_finalScore x) q) eqn:Ex; try reflexivity.
  apply Qeq_bool_eq in Ex, Ey. exfalso. apply Hn.
  unfold scoreGe. rewrite Ex, Ey. apply Qle_refl.
Qed.

Lemma withScore_stableSort q l :
  withScore q (stableSort compareFn l) = withScore q l.
Proof.
  induction l as [|x l IH]; [reflexivity|].
  simpl stableSort. rewrite withScore_insertSorted.
  unfold withScore in *. simpl. rewrite IH. reflexivity.
Qed.

(** C8. After [recalcScores] the cohort is sorted non-increasing by final
    score, and the sort is stable: the students that share a final score
    stand in the order in which the input listed them. *)
Theorem C8_ranking_sorted_and_stable students tSlots subs :
  Sorted scoreGe (recalcScores students tSlots subs) /\
  StronglySorted scoreGe (recalcScores students tSlots subs) /\
  forall q, withScore q (recalcScores students tSlots subs)
            = withScore q (map (rescore tSlots subs) students).
Proof.
  assert (Hs : Sorted scoreGe (recalcScores students tSlots subs))
    by apply stableSort_sorted.
  split; [exact Hs|]. split.
  - apply Sorted_StronglySorted; [|exact Hs].
    intros a b c Hab Hbc. unfold scoreGe in *. lra.
  - intros q. apply withScore_stableSort.
Qed.

Lemma stableSort_of_sorted l :
  Sorted scoreGe l -> stableSort compareFn l = l.
Proof.
  induction 1 as [|x l Hs IH Hhd]; [reflexivity|].
  simpl. rewrite IH. destruct Hhd as [|y l Hxy]; [reflexivity|].
  simpl. apply compareFn_le in Hxy. rewrite Hxy. reflexivity.
Qed.

Lemma rescore_fixed tSlots subs s :
  rescore tSlots subs (rescore tSlots subs s) = rescore tSlots subs s.
Proof. reflexivity. Qed.

Lemma map_fixed {A : Type} (f : A -> A) (l : list A) :
  (forall x, In x l -> f x = x) -> map f l = l.
Proof.
  induction l as [|x l IH]; intros H; simpl; [reflexivity|].
  rewrite H by (now left). rewrite IH; [reflexivity|].
  intros y Hy. apply H. now right.
Qed.

(** C9. [recalcScores] is idempotent: run on its own result, with the same
    weights and nothing changed in between, it returns the same list, so the
    same final score for every student and the same order. *)
Theorem C9_recalcScores_idempotent students tSlots subs :
  recalcScores (recalcScores students tSlots subs) tSlots subs
  = recalcScores students tSlots subs.
Proof.
  unfold recalcScores at 1.
  rewrite map_fixed.
  - apply stableSort_of_sorted. apply stableSort_sorted.
  - intros s Hin.
    apply (Permutation_in _ (recalcScores_perm students tSlots subs)) in Hin.
    apply in_map_iff in Hin as (s0 & <- & _). apply rescore_fixed.
Qed.

(** ** Correlation *)

Lemma sqrtQ_square x : 0 <= x -> sqrtQ (x * x) == x.
Proof.
  destruct x as [a b]. unfold Qle, sqrtQ, Qeq, Qmult. simpl.
  intros Ha. rewrite Z.mul_1_r in Ha.
  replace (a * a * Z.pos (b * b))%Z with ((a * Z.pos b) * (a * Z.pos b))%Z
    by (rewrite Pos2Z.inj_mul; ring).
  rewrite Z.sqrt_square by (apply Z.mul_nonneg_nonneg; lia).
  rewrite Pos2Z.inj_mul. ring.
Defined.

Lemma pow2_mult x : pow2 x = x * x.
Proof. reflexivity. Qed.

Lemma pairedSample_cons s data timeId subA subB :
  pairedSample (s :: data) timeId subA subB
  = if bothPresent timeId subA subB s
    then (cellValue (st_data s) timeId subA,
          cellValue (st_data s) timeId subB)
         :: pairedSample data timeId subA subB
    else pairedSample data timeId subA subB.
Proof.
  unfold pairedSample. simpl.
  destruct (bothPresent timeId subA subB s); reflexivity.
Qed.

Lemma validPair_defined s timeId subA subB a b :
  getCell (st_data s) timeId subA = Some a ->
  getCell (st_data s) timeId subB = Some b ->
  validPair timeId subA subB s
  = Some (match a, b with Some x, Some y => Some (x, y) | _, _ => None end).
Proof.
  intros Ha Hb. unfold validPair. rewrite Ha, Hb. simpl.
  destruct a, b; reflexivity.
Qed.

Lemma validPairs_sample data subA subB timeId :
  cellsDefined data timeId subA -> cellsDefined data timeId subB ->
  exists pairs,
    mapM (validPair timeId subA subB) data = Some pairs /\
    omap (M := list) (fun p : option (Q * Q) => p) pairs
    = pairedSample data timeId subA subB.
Proof.
  induction data as [|s data IH]; intros HA HB.
  - exists []. split; reflexivity.
  - inversion HA as [|? ? [a Ha] HA']; subst.
    inversion HB as [|? ? [b Hb] HB']; subst.
    destruct (IH HA' HB') as (pairs & Hm & Ho).
    rewrite pairedSample_cons. unfold bothPresent, cellValue.
    rewrite Ha, Hb.
    cbn [mapM].
    rewrite (validPair_defined s timeId subA subB a b Ha Hb), Hm. simpl.
    destruct a as [x|], b as [y|]; simpl;
      eexists; (split; [reflexivity|]); cbn [omap list_omap];
      rewrite ?Ho; reflexivity.
Qed.

Lemma calculateCorrelation_pairs Math_sqrt data subA subB timeId :
  cellsDefined data timeId subA -> cellsDefined data timeId subB ->
  calculateCorrelation Math_sqrt data subA subB timeId
  = Some (corrOfPairs Math_sqrt (pairedSample data timeId subA subB)).
Proof.
  intros HA HB. unfold calculateCorrelation.
  destruct (validPairs_sample data subA subB timeId HA HB)
    as (pairs & -> & Ho).
  simpl. rewrite Ho. reflexivity.
Qed.

Lemma corrSums_acc mA mB ps : forall n0 a0 b0,
  let '(num, denA, denB) := fold_left (corrStep mA mB) ps (n0, a0, b0) in
  num == n0 + bigsum (fun p => (fst p - mA) * (snd p - mB)) ps /\
  denA == a0 + bigsum (fun p => (fst p - mA) * (fst p - mA)) ps /\
  denB == b0 + bigsum (fun p => (snd p - mB) * (snd p - mB)) ps.
Proof.
  induction ps as [|p ps IH]; intros n0 a0 b0; simpl.
  - repeat split; ring.
  - specialize (IH (n0 + (fst p - mA) * (snd p - mB))
                   (a0 + pow2 (fst p - mA)) (b0 + pow2 (snd p - mB))).
    destruct (fold_left (corrStep mA mB) ps _) as [[num denA] denB].
    destruct IH as (Hn & Ha & Hb). rewrite !pow2_mult in *.
    repeat split; [rewrite Hn|rewrite Ha|rewrite Hb]; ring.
Qed.

Lemma bigsum_map {A B : Type} (f : B -> Q) (g : A -> B) (l : list A) :
  bigsum f (map g l) = bigsum (fun x => f (g x)) l.
Proof. induction l as [|x l IH]; simpl; [reflexivity|]. now rewrite IH. Qed.

(** The means and the sums of squares of the source are those of the two
    samples. *)
Lemma corrSums_devSq ps :
  let n := inject_Z (Z.of_nat (length ps)) in
  let meanA := fold_left (fun s p => s + fst p) ps 0 / n in
  let meanB := fold_left (fun s p => s + snd p) ps 0 / n in
  let '(num, denA, denB) := corrSums meanA meanB ps in
  denA == devSq (map fst ps) /\ denB == devSq (map snd ps).
Proof.
  intros n meanA meanB. unfold corrSums.
  pose proof (corrSums_acc meanA meanB ps 0 0 0) as H.
  destruct (fold_left (corrStep meanA meanB) ps _) as [[num denA] denB].
  destruct H as (_ & Ha & Hb).
  assert (HmA : meanA == sampleMean (map fst ps)).
  { unfold meanA, sampleMean, n. rewrite length_map, bigsum_map.
    rewrite (fold_left_bigsum (fun p => fst p)). rewrite Qplus_0_l.
    reflexivity. }
  assert (HmB : meanB == sampleMean (map snd ps)).
  { unfold meanB, sampleMean, n. rewrite length_map, bigsum_map.
    rewrite (fold_left_bigsum (fun p => snd p)). rewrite Qplus_0_l.
    reflexivity. }
  unfold devSq. rewrite !bigsum_map. split.
  - rewrite Ha, Qplus_0_l. apply bigsum_ext. intros p. rewrite HmA.
    reflexivity.
  - rewrite Hb, Qplus_0_l. apply bigsum_ext. intros p. rewrite HmB.
    reflexivity.
Qed.

Lemma Qeq_bool_true x y : x == y -> Qeq_bool x y = true.
Proof. intros H. apply Qeq_bool_iff. exact H. Qed.

Lemma Qeq_bool_false x y : ~ x == y -> Qeq_bool x y = false.
Proof.
  intros H. destruct (Qeq_bool x y) eqn:E; [|reflexivity].
  apply Qeq_bool_eq in E. contradiction.
Qed.

Lemma variance_zero_devSq l :
  (0 < length l)%nat -> variance l == 0 -> devSq l == 0.
Proof.
  unfold variance. intros Hn H.
  assert (Hp : 0 < inject_Z (Z.of_nat (length l))).
  { unfold Qlt. simpl. lia. }
  assert (Hd : devSq l == devSq l / inject_Z (Z.of_nat (length l))
                          * inject_Z (Z.of_nat (length l))).
  { field. intros Hz. rewrite Hz in Hp. apply (Qlt_irrefl 0 Hp). }
  rewrite Hd, H. ring.
Qed.

Lemma corrOfPairs_few Math_sqrt ps :
  (length ps < 3)%nat -> corrOfPairs Math_sqrt ps = 0.
Proof.
  intros H. unfold corrOfPairs.
  destruct (Nat.ltb_spec (length ps) 3); [reflexivity|lia].
Qed.

Lemma corrOfPairs_zero_variance Math_sqrt ps :
  variance (map fst ps) == 0 \/ variance (map snd ps) == 0 ->
  corrOfPairs Math_sqrt ps = 0.
Proof.
  intros H. unfold corrOfPairs.
  destruct (Nat.ltb_spec (length ps) 3) as [|Hlen]; [reflexivity|].
  pose proof (corrSums_devSq ps) as Hs. cbv zeta in Hs.
  destruct (corrSums _ _ ps) as [[num denA] denB].
  destruct Hs as (Ha & Hb).
  destruct H as [H|H];
    apply variance_zero_devSq in H; try (rewrite length_map; lia).
  - rewrite (Qeq_bool_true denA 0) by (rewrite Ha; exact H). reflexivity.
  - rewrite (Qeq_bool_true denB 0) by (rewrite Hb; exact H).
    rewrite orb_true_r. reflexivity.
Qed.

Lemma fold_left_same {A S : Type} (f g : S -> A -> S) (l : list A) :
  (forall a x, In x l -> f a x = g a x) ->
  forall a, fold_left f l a = fold_left g l a.
Proof.
  induction l as [|x l IH]; intros H a; simpl; [reflexivity|].
  rewrite H by (now left). apply IH. intros b y Hy. apply H. now right.
Qed.

Lemma corrSums_identical m ps :
  (forall p, In p ps -> fst p = snd p) ->
  exists d, corrSums m m ps = (d, d, d).
Proof.
  intros Hid. unfold corrSums.
  assert (H : forall d0, exists d,
             fold_left (corrStep m m) ps (d0, d0, d0) = (d, d, d)).
  { induction ps as [|p ps IH]; intros d0; simpl; [eauto|].
    rewrite <- (Hid p) by (now left). rewrite pow2_mult.
    apply IH. intros q Hq. apply Hid. now right. }
  apply H.
Qed.

Lemma bigsum_nonneg {A : Type} (f : A -> Q) (l : list A) :
  (forall x, 0 <= f x) -> 0 <= bigsum f l.
Proof.
  intros H. induction l as [|x l IH]; unfold bigsum; cbn [fold_right];
    [apply Qle_refl|].
  fold (bigsum f l). pose proof (H x). lra.
Qed.

Lemma corrOfPairs_identical Math_sqrt ps :
  (forall x, 0 <= x -> Math_sqrt (x * x) == x) ->
  (3 <= length ps)%nat ->
  (forall p, In p ps -> fst p = snd p) ->
  ~ variance (map fst ps) == 0 ->
  corrOfPairs Math_sqrt ps == 1.
Proof.
  intros Hsqrt Hlen Hid Hvar. unfold corrOfPairs.
  destruct (Nat.ltb_spec (length ps) 3) as [|_]; [lia|].
  pose proof (corrSums_devSq ps) as Hs. cbv zeta in Hs.
  rewrite <- (fold_left_same (fun s p => s + fst p) (fun s p => s + snd p))
    in * by (intros a x Hx; rewrite (Hid x Hx); reflexivity).
  destruct (corrSums_identical
              (fold_left (fun s p => s + fst p) ps 0
               / inject_Z (Z.of_nat (length ps))) ps Hid) as (d & Hd).
  rewrite Hd in *. destruct Hs as (Ha & _).
  assert (Hnz : ~ d == 0).
  { intros Hz. apply Hvar. unfold variance. rewrite <- Ha, Hz.
    unfold Qdiv. ring. }
  assert (Hpos : 0 <= d).
  { rewrite Ha. unfold devSq. apply bigsum_nonneg. intros x.
    apply (Qsqr_nonneg (x - sampleMean (map fst ps))). }
  rewrite (Qeq_bool_false d 0 Hnz). simpl.
  rewrite (Hsqrt d Hpos). field. exact Hnz.
Qed.

(** C6, as stated, fails: three students with the same constant score in both
    subjects have identical series, and the zero-variance guard answers 0,
    not 1, whatever the square root is. *)
Lemma C6_identical_constant_counterexample :
  ~ (forall Math_sqrt data subA subB timeId,
       (3 <= length (pairedSample data timeId subA subB))%nat ->
       (forall p, In p (pairedSample data timeId subA subB) -> fst p = snd p) ->
       exists r, calculateCorrelation Math_sqrt data subA subB timeId = Some r
                 /\ r == 1).
Proof.
  intros H.
  destruct (H sqrtQ constantCohort "A" "B" "t1") as (r & Hr & H1).
  - vm_compute. lia.
  - intros p Hp. vm_compute in Hp.
    destruct Hp as [<-|[<-|[<-|[]]]]; reflexivity.
  - vm_compute in Hr. injection Hr as <-. discriminate H1.
Qed.

(** C6 (amended). [calculateCorrelation] returns exactly 0 when fewer than 3
    students have both subjects present at the time slot, and exactly 0 when
    either paired sample has zero variance.  When at least 3 students have
    both present, the two scores of every pair are the same and the common
    series is not constant (its variance is not zero), it returns 1, for a
    square root that is exact on squares. *)
Theorem C6_correlation_guards_and_identity Math_sqrt data subA subB timeId :
  cellsDefined data timeId subA -> cellsDefined data timeId subB ->
  let ps := pairedSample data timeId subA subB in
  let r := calculateCorrelation Math_sqrt data subA subB timeId in
  ((length ps < 3)%nat -> r = Some 0) /\
  (variance (map fst ps) == 0 \/ variance (map snd ps) == 0 -> r = Some 0) /\
  ((forall x, 0 <= x -> Math_sqrt (x * x) == x) ->
   (3 <= length ps)%nat -> (forall p, In p ps -> fst p = snd p) ->
   ~ variance (map fst ps) == 0 ->
   exists c, r = Some c /\ c == 1).
Proof.
  intros HA HB ps r. unfold r.
  rewrite (calculateCorrelation_pairs Math_sqrt data subA subB timeId HA HB).
  fold ps. split; [|split].
  - intros H. f_equal. now apply corrOfPairs_few.
  - intros H. f_equal. now apply corrOfPairs_zero_variance.
  - intros Hsqrt Hlen Hid Hvar. eexists. split; [reflexivity|].
    now apply corrOfPairs_identical.
Qed.

Lemma C6_correlation_guards_and_identity_witness :
  exists c, calculateCorrelation sqrtQ identicalCohort "A" "B" "t1" = Some c
            /\ c == 1.
Proof.
  assert (HA : cellsDefined identicalCohort "t1" "A")
    by (repeat constructor; vm_compute; eauto).
  assert (HB : cellsDefined identicalCohort "t1" "B")
    by (repeat constructor; vm_compute; eauto).
  destruct (C6_correlation_guards_and_identity sqrtQ identicalCohort
              "A" "B" "t1" HA HB) as (_ & _ & Hone).
  apply Hone.
  - exact sqrtQ_square.
  - vm_compute. lia.
  - intros p Hp. vm_compute in Hp.
    destruct Hp as [<-|[<-|[<-|[]]]]; reflexivity.
  - intros Hz. vm_compute in Hz. discriminate Hz.
Defined.

(** ** Imputation engine *)

Lemma discrete_interior d tIdx subId ts :
  analyzeMissingType d tIdx subId ts = Some Discrete ->
  (0 < tIdx)%nat /\ (tIdx < length ts - 1)%nat.
Proof.
  unfold analyzeMissingType.
  destruct (cellAt d ts subId tIdx) as [[v|]|] eqn:E; simpl;
    try discriminate.
  destruct (scanBack d ts subId tIdx) as [back|]; simpl; try discriminate.
  destruct (scanFwd d ts subId _ _) as [fwd|]; simpl; try discriminate.
  apply cellAt_lt in E.
  destruct (Nat.eqb_spec tIdx 0); [rewrite orb_true_r; discriminate|].
  destruct (Nat.eqb_spec tIdx (length ts - 1));
    [rewrite !orb_true_r; discriminate|].
  intros _. lia.
Qed.

Lemma getCell_setCell d timeId subId v d' :
  setCell d timeId subId v = Some d' ->
  getCell d' timeId subId = Some (Some v).
Proof.
  unfold setCell, getCell. destruct (d !! timeId) as [row|]; simpl;
    [|discriminate].
  intros [= <-]. rewrite lookup_insert_eq. simpl. apply lookup_insert_eq.
Qed.

Lemma detailOf_setDetail s ds timeId subId x :
  st_imputedDetails s = setDetail ds timeId subId x ->
  detailOf s timeId subId = Some x.
Proof.
  unfold detailOf, setDetail. intros ->. rewrite lookup_insert_eq. simpl.
  apply lookup_insert_eq.
Qed.

Lemma clampRound_85 full x :
  x == 85 -> 85 <= full -> clampRound full x == 85.
Proof.
  intros Hx Hfull. unfold clampRound, mathRound. rewrite Hx.
  change (inject_Z (Qfloor (85 + (1 # 2)))) with 85.
  rewrite (Q.min_r full 85) by exact Hfull.
  apply Q.max_r. discriminate.
Qed.

Section EngineProperties.

Variable Math_sqrt : Q -> Q.
Variable Math_log : Q -> Q.
Variable Math_cos : Q -> Q.
Variable Math_PI : Q.
Variable Rng : Type.
Variable Math_random : Rng -> Q * Rng.
Variable fuel : nat.

Lemma tryInterpolate_both newData timeSlots tIdx sb g p n :
  (0 < tIdx)%nat -> (tIdx < length timeSlots - 1)%nat ->
  cellAt newData timeSlots (s_id sb) (tIdx - 1) = Some (Some p) ->
  cellAt newData timeSlots (s_id sb) (tIdx + 1) = Some (Some n) ->
  tryInterpolate Rng Math_random newData timeSlots tIdx sb Discrete g
  = Some ((p + n) / 2 + (fst (Math_random g) - (1 # 2)) * 5,
          "时序插值", Discrete, snd (Math_random g)).
Proof.
  intros H0 H1 Hp Hn. unfold tryInterpolate.
  destruct (Nat.ltb_spec 0 tIdx); [|lia].
  destruct (Nat.ltb_spec tIdx (length timeSlots - 1)); [|lia].
  rewrite Hp, Hn. simpl. destruct (Math_random g). reflexivity.
Qed.

Lemma tryInterpolate_degrade newData timeSlots tIdx sb g prev next :
  (0 < tIdx)%nat -> (tIdx < length timeSlots - 1)%nat ->
  cellAt newData timeSlots (s_id sb) (tIdx - 1) = Some prev ->
  cellAt newData timeSlots (s_id sb) (tIdx + 1) = Some next ->
  prev = None \/ next = None ->
  tryInterpolate Rng Math_random newData timeSlots tIdx sb Discrete g
  = Some (0, "", Continuous, g).
Proof.
  intros H0 H1 Hp Hn Hor. unfold tryInterpolate.
  destruct (Nat.ltb_spec 0 tIdx); [|lia].
  destruct (Nat.ltb_spec tIdx (length timeSlots - 1)); [|lia].
  rewrite Hp, Hn. simpl.
  destruct Hor as [->| ->]; [reflexivity|]. destruct prev; reflexivity.
Qed.

(** C5. For a missing cell classified [discrete]: when the cells of the same
    subject at the preceding and at the following slot are both present in
    the working copy, the value before rounding and clamping is
    [(prev + next) / 2] plus a jitter [j] with [-2.5 <= j <= 2.5], the method
    tag is the one of temporal interpolation, and the rounded and clamped
    value is written to the cell (85 for neighbours 80 and 90 and zero
    jitter); when either neighbour is absent, the recorded gap type becomes
    [continuous] and the value is the one of the configured fallback
    estimator. *)
Theorem C5_discrete_gap_midpoint_or_fallback
    students student timeSlots subjects algorithm tIdx time sb ps :
  analyzeMissingType (st_data student) tIdx (s_id sb) timeSlots
    = Some Discrete ->
  timeSlots !! tIdx = Some time ->
  is_Some (ps_data ps !! t_id time) ->
  0 <= fst (Math_random (ps_rng ps)) /\ fst (Math_random (ps_rng ps)) < 1 ->
  (forall p n,
     cellAt (ps_data ps) timeSlots (s_id sb) (tIdx - 1) = Some (Some p) ->
     cellAt (ps_data ps) timeSlots (s_id sb) (tIdx + 1) = Some (Some n) ->
     exists j, - (5 # 2) <= j /\ j <= 5 # 2 /\
       imputeRaw Math_sqrt Math_log Math_cos Math_PI Rng Math_random fuel
                 students student timeSlots subjects algorithm (ps_data ps)
                 tIdx time sb Discrete (ps_rng ps)
       = Some ((p + n) / 2 + j, "时序插值", Discrete,
               snd (Math_random (ps_rng ps))) /\
       (exists ps',
          imputeCell Math_sqrt Math_log Math_cos Math_PI Rng Math_random fuel
                     students student timeSlots subjects algorithm tIdx time
                     ps sb
          = Some ps' /\
          getCell (ps_data ps') (t_id time) (s_id sb)
          = Some (Some (clampRound (s_full sb) ((p + n) / 2 + j))) /\
          ps_details ps'
          = setDetail (ps_details ps) (t_id time) (s_id sb)
              (mkDetail (clampRound (s_full sb) ((p + n) / 2 + j))
                        Discrete "时序插值")) /\
       (fst (Math_random (ps_rng ps)) == 1 # 2 -> p == 80 -> n == 90 ->
        85 <= s_full sb ->
        j == 0 /\ clampRound (s_full sb) ((p + n) / 2 + j) == 85)) /\
  (forall prev next,
     cellAt (ps_data ps) timeSlots (s_id sb) (tIdx - 1) = Some prev ->
     cellAt (ps_data ps) timeSlots (s_id sb) (tIdx + 1) = Some next ->
     prev = None \/ next = None ->
     imputeRaw Math_sqrt Math_log Math_cos Math_PI Rng Math_random fuel
               students student timeSlots subjects algorithm (ps_data ps)
               tIdx time sb Discrete (ps_rng ps)
     = ('(v, m, g2) ←
          fallbackEstimate Math_sqrt Math_log Math_cos Math_PI Rng
                           Math_random fuel students student subjects
                           algorithm (ps_data ps) time sb (ps_rng ps);
        Some (v, m, Continuous, g2)) /\
     imputeRaw Math_sqrt Math_log Math_cos Math_PI Rng Math_random fuel
               students student timeSlots subjects algorithm (ps_data ps)
               tIdx time sb Discrete (ps_rng ps)
     = imputeRaw Math_sqrt Math_log Math_cos Math_PI Rng Math_random fuel
                 students student timeSlots subjects algorithm (ps_data ps)
                 tIdx time sb Continuous (ps_rng ps)).
Proof.
  intros Hdisc Htime [row Hrow] [Hr0 Hr1].
  destruct (discrete_interior _ _ _ _ Hdisc) as [Hlo Hhi].
  split.
  - intros p n Hp Hn.
    exists ((fst (Math_random (ps_rng ps)) - (1 # 2)) * 5).
    split; [lra|]. split; [lra|].
    assert (Hraw :
      imputeRaw Math_sqrt Math_log Math_cos Math_PI Rng Math_random fuel
                students student timeSlots subjects algorithm (ps_data ps)
                tIdx time sb Discrete (ps_rng ps)
      = Some ((p + n) / 2 + (fst (Math_random (ps_rng ps)) - (1 # 2)) * 5,
              "时序插值", Discrete, snd (Math_random (ps_rng ps)))).
    { unfold imputeRaw.
      rewrite (tryInterpolate_both _ _ _ _ _ p n Hlo Hhi Hp Hn).
      reflexivity. }
    split; [exact Hraw|]. split.
    + unfold imputeCell. rewrite Hdisc. simpl.
      rewrite Hraw. simpl.
      unfold setCell. rewrite Hrow. simpl.
      eexists. split; [reflexivity|]. simpl. split; [|reflexivity].
      unfold getCell. rewrite lookup_insert_eq. simpl.
      apply lookup_insert_eq.
    + intros Hhalf H80 H90 Hfull. split; [rewrite Hhalf; reflexivity|].
      apply clampRound_85; [|exact Hfull].
      rewrite Hhalf, H80, H90. reflexivity.
  - intros prev next Hp Hn Hor.
    unfold imputeRaw.
    rewrite (tryInterpolate_degrade _ _ _ _ _ prev next Hlo Hhi Hp Hn Hor).
    split; reflexivity.
Qed.

End EngineProperties.

Lemma C5_discrete_gap_midpoint_or_fallback_witness :
  exists j,
    rawEngine [interiorStudent] interiorStudent slots3 [subjectX] BoxMuller
              interiorGap 1 (mkTimeSlot "t2" "T2" 1) subjectX Discrete tt
    = Some ((80 + 90) / 2 + j, "时序插值", Discrete, tt) /\
    clampRound 100 ((80 + 90) / 2 + j) == 85.
Proof.
  destruct (C5_discrete_gap_midpoint_or_fallback sqrtQ zeroFn zeroFn 0 unit
              halfRandom 1 [interiorStudent] interiorStudent slots3
              [subjectX] BoxMuller 1 (mkTimeSlot "t2" "T2" 1) subjectX
              (mkPassState interiorGap ∅ [] tt))
    as [Hmid _].
  - reflexivity.
  - reflexivity.
  - vm_compute. eauto.
  - unfold halfRandom; simpl; split; lra.
  - destruct (Hmid 80 90 eq_refl eq_refl) as (j & _ & _ & Hraw & _ & H85).
    exists j. split; [exact Hraw|].
    apply H85; [reflexivity|reflexivity|reflexivity|discriminate].
Defined.

(** What the regression branch computes once a reference subject is found:
    the reference value comes from the working copy and the reference mean
    is the sum of the present reference values over the cohort size. *)
Lemma regressionEstimate_found students subjects newData time sb mean r
    refVal refVals :
  findRefSub newData (t_id time) (s_id sb) subjects = Some (Some r) ->
  getCell newData (t_id time) (s_id r) = Some (Some refVal) ->
  validValues students (t_id time) (s_id r) = Some refVals ->
  regressionEstimate students subjects newData time sb mean
  = Some (refVal *
          (mean / orOne (sumQ refVals
                         / inject_Z (Z.of_nat (length students)))),
          String.append "回归(" (String.append (s_name r) ")")).
Proof.
  intros Hf Hc Hv. unfold regressionEstimate, refMeanOf.
  rewrite Hf. simpl. rewrite Hc. simpl. rewrite Hv. reflexivity.
Qed.

(** C1 at a failing input. Cohort [p] (A absent, B = 40) and [q] (A = 50,
    B absent), one time slot, regression.  For [p]'s subject A the reference
    subject is B with reference value 40; the mean of A is 50 and the mean of
    the present values of B is 40, so C1 gives 40 * (50 / 40) = 50.  The
    source divides the sum of B by the number of students (2), takes 20 for
    the reference mean and yields 40 * (50 / 20) = 100, which is what is
    written. *)
Theorem C1_regression_reference_mean_over_cohort_size :
  (exists raw,
     rawEngine refMeanCohort studentP [slot1] subjectsAB Regression
               (st_data studentP) 0 slot1 subjectA Continuous tt
     = Some (raw, "回归(Bio)", Continuous, tt) /\
     raw == 100 /\
     ~ raw == statedRegression 40 50 [40]) /\
  findRefSub (st_data studentP) "t1" "A" subjectsAB = Some (Some subjectB) /\
  validValues refMeanCohort "t1" "A" = Some [50] /\
  validValues refMeanCohort "t1" "B" = Some [40] /\
  statedRegression 40 50 [40] == 50 /\
  outcome (runEngine refMeanCohort [slot1] subjectsAB Regression)
          "p" "t1" "A"
  = Some (Some (Some 100), Some (mkDetail 100 Continuous "回归(Bio)")).
Proof.
  split.
  { eexists. split; [vm_compute; reflexivity|].
    split; [reflexivity|]. intros H. vm_compute in H. discriminate H. }
  repeat split; vm_compute; reflexivity.
Qed.

(** The fallback path takes nothing from the record of the current student
    but its id: its own scores are those of the working copy. *)
Lemma fallbackEstimate_own_scores_from_working_copy
    Math_sqrt Math_log Math_cos Math_PI Rng Math_random fuel
    students student subjects algorithm newData time sb g d' :
  fallbackEstimate Math_sqrt Math_log Math_cos Math_PI Rng Math_random fuel
                   students student subjects algorithm newData time sb g
  = fallbackEstimate Math_sqrt Math_log Math_cos Math_PI Rng Math_random fuel
                     students (withData student d') subjects algorithm
                     newData time sb g.
Proof. reflexivity. Qed.

(** C10. In the fallback path the scores of the current student in the other
    subjects are those of the working copy: the estimate is the same for
    every matrix the current student's record may hold.  So a value imputed
    earlier in the pass is used.  With student [p] missing A and B at the
    only slot, regression first fills A with the mean 70 and then takes A,
    absent in the snapshot, as the reference subject of B with reference
    value 70; on the snapshot the estimate of B is the mean-fill 40.  The
    nearest-neighbour search for B measures the distance to the others along
    A with the imputed 70 and copies 80 from the closest student; on the
    snapshot no dimension is shared and the estimate is the mean 40. *)
Theorem C10_fallback_reads_working_copy :
  (forall Math_sqrt Math_log Math_cos Math_PI Rng Math_random fuel
          students student subjects algorithm newData time sb g d',
     fallbackEstimate Math_sqrt Math_log Math_cos Math_PI Rng Math_random
                      fuel students student subjects algorithm newData time
                      sb g
     = fallbackEstimate Math_sqrt Math_log Math_cos Math_PI Rng Math_random
                        fuel students (withData student d') subjects
                        algorithm newData time sb g) /\
  getCell (st_data missingBoth) "t1" "A" = Some None /\
  (outcome (runEngine bothMissingCohort [slot1] subjectsAB Regression)
           "p" "t1" "A"
   = Some (Some (Some 70), Some (mkDetail 70 Continuous "均值填充")) /\
   outcome (runEngine bothMissingCohort [slot1] subjectsAB Regression)
           "p" "t1" "B"
   = Some (Some (Some 53), Some (mkDetail 53 Continuous "回归(Alg)")) /\
   (exists raw,
      rawEngine bothMissingCohort missingBoth [slot1] subjectsAB Regression
                afterA 0 slot1 subjectB Continuous tt
      = Some (raw, "回归(Alg)", Continuous, tt) /\
      raw == 70 * (40 / ((60 + 60 + 90) / 4))) /\
   (exists raw,
      rawEngine bothMissingCohort missingBoth [slot1] subjectsAB Regression
                (st_data missingBoth) 0 slot1 subjectB Continuous tt
      = Some (raw, "均值填充", Continuous, tt) /\
      raw == 40)) /\
  (outcome (runEngine bothMissingCohort [slot1] subjectsAB Knn)
           "p" "t1" "A"
   = Some (Some (Some 70), Some (mkDetail 70 Continuous "KNN(最近邻)")) /\
   outcome (runEngine bothMissingCohort [slot1] subjectsAB Knn)
           "p" "t1" "B"
   = Some (Some (Some 80), Some (mkDetail 80 Continuous "KNN(最近邻)")) /\
   rawEngine bothMissingCohort missingBoth [slot1] subjectsAB Knn
             afterA 0 slot1 subjectB Continuous tt
   = Some (80, "KNN(最近邻)", Continuous, tt) /\
   (exists raw,
      rawEngine bothMissingCohort missingBoth [slot1] subjectsAB Knn
                (st_data missingBoth) 0 slot1 subjectB Continuous tt
      = Some (raw, "KNN(最近邻)", Continuous, tt) /\
      raw == 40)).
Proof.
  split; [intros; apply fallbackEstimate_own_scores_from_working_copy|].
  split; [reflexivity|]. split.
  - split; [vm_compute; reflexivity|]. split; [vm_compute; reflexivity|].
    split; eexists; (split; [vm_compute; reflexivity|]); reflexivity.
  - split; [vm_compute; reflexivity|]. split; [vm_compute; reflexivity|].
    split; [vm_compute; reflexivity|].
    eexists. split; [vm_compute; reflexivity|]. reflexivity.
Qed.

(** ** The engine leaves no cell absent *)

Lemma foldM_invariant {A S : Type} (f : S -> A -> option S)
    (I : S -> Prop) (R : S -> S -> Prop) (Done : A -> S -> Prop)
    (l : list A) :
  (forall s, R s s) ->
  (forall a b c, R a b -> R b c -> R a c) ->
  (forall x s s', Done x s -> R s s' -> Done x s') ->
  (forall s x, I s -> In x l ->
     exists s', f s x = Some s' /\ I s' /\ R s s' /\ Done x s') ->
  forall s, I s ->
    exists s', foldM f l s = Some s' /\ I s' /\ R s s' /\
               forall x, In x l -> Done x s'.
Proof.
  intros Hrefl Htrans Hmono. induction l as [|x l IH]; intros Hstep s Hs.
  - exists s. simpl. repeat split; auto. intros x [].
  - destruct (Hstep s x Hs (or_introl eq_refl)) as (s1 & Hf & H1 & HR & HD).
    destruct (IH (fun s y Hi Hy => Hstep s y Hi (or_intror Hy)) s1 H1)
      as (s2 & Hf2 & H2 & HR2 & HD2).
    exists s2. simpl. rewrite Hf. simpl. rewrite Hf2.
    repeat split; eauto.
    intros y [<-|Hy]; eauto.
Qed.

Lemma foldM_total {A S : Type} (f : S -> A -> option S) (l : list A) :
  (forall s x, In x l -> is_Some (f s x)) ->
  forall s, is_Some (foldM f l s).
Proof.
  induction l as [|x l IH]; intros H s; simpl; [eauto|].
  destruct (H s x (or_introl eq_refl)) as [s1 ->]. simpl.
  apply IH. intros s0 y Hy. apply H. now right.
Qed.

Lemma clampRound_range full x :
  0 <= full -> 0 <= clampRound full x /\ clampRound full x <= full.
Proof.
  intros Hfull. unfold clampRound. split.
  - apply Q.le_max_l.
  - apply Q.max_lub; [exact Hfull|apply Q.le_min_l].
Qed.

Lemma getCell_setCell_other d timeId subId v d' timeId' subId' :
  setCell d timeId subId v = Some d' ->
  (timeId', subId') <> (timeId, subId) ->
  getCell d' timeId' subId' = getCell d timeId' subId'.
Proof.
  unfold setCell, getCell. destruct (d !! timeId) as [row|] eqn:E; simpl;
    [|discriminate].
  intros [= <-] Hne.
  destruct (decide (timeId = timeId')) as [<-|Ht].
  - rewrite lookup_insert_eq, E. simpl.
    rewrite lookup_insert_ne; [reflexivity|]. congruence.
  - rewrite lookup_insert_ne by exact Ht. reflexivity.
Qed.

Lemma setCell_total d timeId subId v c :
  getCell d timeId subId = Some c -> is_Some (setCell d timeId subId v).
Proof.
  unfold setCell, getCell. destruct (d !! timeId); simpl; [eauto|discriminate].
Qed.

Lemma cellAt_defined d timeSlots subId i :
  (forall t, In t timeSlots -> is_Some (getCell d (t_id t) subId)) ->
  (i < length timeSlots)%nat -> is_Some (cellAt d timeSlots subId i).
Proof.
  intros H Hi. unfold cellAt.
  destruct (lookup_lt_is_Some_2 timeSlots i Hi) as [t Ht]. rewrite Ht. simpl.
  apply H. apply list_elem_of_In. eapply list_elem_of_lookup_2. exact Ht.
Qed.

Lemma matrixDefined_series d timeSlots subjects sb :
  matrixDefined d timeSlots subjects -> In sb subjects ->
  seriesDefined d timeSlots (s_id sb).
Proof.
  intros Hd Hsb i Hi. apply cellAt_defined; [|exact Hi].
  intros t Ht. now apply Hd.
Qed.

Lemma passInv_defined d0 nd timeSlots subjects :
  passInv d0 nd timeSlots subjects -> matrixDefined nd timeSlots subjects.
Proof.
  intros H t sb Ht Hsb. destruct (H t sb Ht Hsb) as (c0 & c & _ & Hc & _).
  rewrite Hc. eauto.
Qed.

Lemma validValues_total students timeId subId :
  (forall s, In s students -> is_Some (getCell (st_data s) timeId subId)) ->
  is_Some (validValues students timeId subId).
Proof.
  intros H. unfold validValues, column.
  assert (Hm : is_Some (mapM (fun s => getCell (st_data s) timeId subId)
                             students)).
  { induction students as [|s l IH]; [simpl; eauto|].
    cbn [mapM]. destruct (H s (or_introl eq_refl)) as [c ->]. simpl.
    destruct IH as [k ->]; [intros; apply H; now right|]. simpl. eauto. }
  destruct Hm as [k ->]. simpl. eauto.
Qed.

Lemma indexed_lookup (timeSlots : list TimeSlot) i t :
  In (i, t) (zip (seq 0 (length timeSlots)) timeSlots) ->
  timeSlots !! i = Some t.
Proof.
  assert (H : forall k (l : list TimeSlot),
             In (i, t) (zip (seq k (length l)) l) ->
                          (k <= i)%nat /\ l !! (i - k)%nat = Some t).
  { intros k l. revert k. induction l as [|x l IH]; intros k; simpl;
      [intros []|].
    intros [[= <- <-]|Hin].
    - split; [lia|]. now rewrite Nat.sub_diag.
    - destruct (IH (S k) Hin) as [Hle Hl]. split; [lia|].
      replace (i - k)%nat with (S (i - S k)) by lia. exact Hl. }
  intros Hin. destruct (H O timeSlots Hin) as [_ Hl].
  now rewrite Nat.sub_0_r in Hl.
Qed.

Lemma indexed_covers (timeSlots : list TimeSlot) t :
  In t timeSlots ->
  exists i, In (i, t) (zip (seq 0 (length timeSlots)) timeSlots).
Proof.
  generalize 0%nat. induction timeSlots as [|x l IH]; intros k; simpl;
    [intros []|].
  intros [->|Hin]; [exists k; now left|].
  destruct (IH (S k) Hin) as [i Hi]. exists i. now right.
Qed.

Section Totality.

Variable Math_sqrt : Q -> Q.
Variable Math_log : Q -> Q.
Variable Math_cos : Q -> Q.
Variable Math_PI : Q.
Variable Rng : Type.
Variable Math_random : Rng -> Q * Rng.
Variable fuel : nat.

Variable students : list Student.
Variable timeSlots : list TimeSlot.
Variable subjects : list Subject.
Variable algorithm : AlgorithmType.

Hypothesis cohort_defined : cohortDefined students timeSlots subjects.
Hypothesis present_in_range : presentInRange students timeSlots subjects.
Hypothesis full_by_id : fullMarksById subjects.
Hypothesis full_nonneg : forall sb, In sb subjects -> 0 <= s_full sb.
Hypothesis draws_end :
  algorithm = BoxMuller ->
  forall g, is_Some (drawNonZero Rng Math_random fuel g).

Lemma findRefSub_total nd timeId subId (l : list Subject) :
  (forall s, In s l -> is_Some (getCell nd timeId (s_id s))) ->
  exists r, findRefSub nd timeId subId l = Some r /\
            (forall s, r = Some s -> In s l).
Proof.
  induction l as [|s l IH]; intros H; simpl.
  - exists None. split; [reflexivity|discriminate].
  - assert (Hl : exists r, findRefSub nd timeId subId l = Some r /\
                           (forall s0, r = Some s0 -> In s0 (s :: l))).
    { destruct IH as (r & Hr & Hin); [intros; apply H; now right|].
      exists r. split; [exact Hr|]. intros s0 Hs0. right. now apply Hin. }
    destruct (String.eqb (s_id s) subId); [exact Hl|].
    destruct (H s (or_introl eq_refl)) as [[v|] ->]; simpl; [|exact Hl].
    exists (Some s). split; [reflexivity|]. intros s0 [= <-]. now left.
Qed.

Lemma column_defined t sb :
  In t timeSlots -> In sb subjects ->
  forall s, In s students -> is_Some (getCell (st_data s) (t_id t) (s_id sb)).
Proof. intros Ht Hsb s Hs. now apply (cohort_defined s Hs). Qed.

Lemma regressionEstimate_total nd time sb mean :
  matrixDefined nd timeSlots subjects -> In time timeSlots ->
  is_Some (regressionEstimate students subjects nd time sb mean).
Proof.
  intros Hnd Ht. unfold regressionEstimate.
  destruct (findRefSub_total nd (t_id time) (s_id sb) subjects)
    as (r & -> & Hr); [intros s Hs; now apply Hnd|].
  simpl. destruct r as [r|]; [|eauto].
  specialize (Hr r eq_refl).
  destruct (Hnd time r Ht Hr) as [c ->]. simpl.
  unfold refMeanOf.
  destruct (validValues_total students (t_id time) (s_id r)
              (column_defined time r Ht Hr)) as [vals ->].
  simpl. eauto.
Qed.

Lemma knnDistance_total nd other time sb :
  matrixDefined nd timeSlots subjects -> In time timeSlots ->
  In other students ->
  is_Some (knnDistance subjects nd other time sb).
Proof.
  intros Hnd Ht Ho. unfold knnDistance. apply foldM_total.
  intros [dist count] s Hs.
  destruct (String.eqb (s_id s) (s_id sb)); [eauto|].
  destruct (Hnd time s Ht Hs) as [v1 ->]. simpl.
  destruct (column_defined time s Ht Hs other Ho) as [v2 ->]. simpl.
  destruct v1, v2; eauto.
Qed.

Lemma knn_total student nd time sb acc :
  matrixDefined nd timeSlots subjects -> In time timeSlots ->
  In sb subjects ->
  is_Some (foldM (knnStep Math_sqrt student subjects nd time sb)
                 students acc).
Proof.
  intros Hnd Ht Hsb. apply foldM_total. intros a other Ho.
  unfold knnStep.
  destruct (String.eqb (st_id other) (st_id student)); [eauto|].
  destruct (column_defined time sb Ht Hsb other Ho) as [c ->]. simpl.
  destruct c as [otherVal|]; [|eauto].
  destruct (knnDistance_total nd other time sb Hnd Ht Ho)
    as [[dist count] ->].
  simpl. destruct (0 <? count)%nat; [|eauto].
  destruct (ltMinDist _ _); eauto.
Qed.

Lemma generateBoxMuller_total mean std g :
  algorithm = BoxMuller ->
  is_Some (generateBoxMuller Math_sqrt Math_log Math_cos Math_PI Rng
                             Math_random fuel mean std g).
Proof.
  intros Ha. unfold generateBoxMuller.
  destruct (draws_end Ha g) as [[u g1] ->]. simpl.
  destruct (draws_end Ha g1) as [[v g2] ->]. simpl. eauto.
Qed.

Lemma fallbackEstimate_total student nd time sb g :
  matrixDefined nd timeSlots subjects -> In time timeSlots ->
  In sb subjects ->
  is_Some (fallbackEstimate Math_sqrt Math_log Math_cos Math_PI Rng
             Math_random fuel students student subjects algorithm nd time
             sb g).
Proof.
  intros Hnd Ht Hsb. unfold fallbackEstimate.
  destruct (validValues_total students (t_id time) (s_id sb)
              (column_defined time sb Ht Hsb)) as [vals ->].
  simpl.
  assert (Halg : algorithm = BoxMuller \/ algorithm = Regression
                 \/ algorithm = Knn) by (clear; destruct algorithm; auto).
  destruct Halg as [Ealg|[Ealg|Ealg]]; rewrite Ealg.
  - destruct (generateBoxMuller_total (cohortMean vals)
                (cohortStd Math_sqrt vals (cohortMean vals)) g Ealg)
      as [[v g'] ->].
    simpl. eauto.
  - destruct (regressionEstimate_total nd time sb (cohortMean vals) Hnd Ht)
      as [[v m] ->].
    simpl. eauto.
  - destruct (knn_total student nd time sb (None, cohortMean vals)
                Hnd Ht Hsb) as [[md nv] ->].
    simpl. eauto.
Qed.

Lemma imputeRaw_total student nd tIdx time sb mt g :
  matrixDefined nd timeSlots subjects -> timeSlots !! tIdx = Some time ->
  In sb subjects ->
  is_Some (imputeRaw Math_sqrt Math_log Math_cos Math_PI Rng Math_random
             fuel students student timeSlots subjects algorithm nd tIdx
             time sb mt g).
Proof.
  intros Hnd Htime Hsb.
  assert (Ht : In time timeSlots).
  { apply list_elem_of_In. eapply list_elem_of_lookup_2. exact Htime. }
  destruct (fallbackEstimate_total student nd time sb g Hnd Ht Hsb)
    as [[[v m] g2] Hfb].
  assert (Hser : forall t, In t timeSlots ->
                           is_Some (getCell nd (t_id t) (s_id sb))).
  { intros t Hin. now apply Hnd. }
  pose proof (lookup_lt_Some _ _ _ Htime) as Hlt.
  unfold imputeRaw, tryInterpolate.
  destruct mt; simpl; try (rewrite Hfb; simpl; eauto; fail).
  destruct (Nat.ltb_spec 0 tIdx) as [H0|H0].
  - destruct (cellAt_defined nd timeSlots (s_id sb) (tIdx - 1) Hser
                ltac:(lia)) as [prev ->].
    simpl. destruct (Nat.ltb_spec tIdx (length timeSlots - 1)) as [H1|H1].
    + destruct (cellAt_defined nd timeSlots (s_id sb) (tIdx + 1) Hser
                  ltac:(lia)) as [next ->].
      simpl. destruct prev as [p|], next as [n|]; simpl;
        try (rewrite Hfb; simpl; eauto; fail).
      destruct (Math_random g). simpl. eauto.
    + simpl. destruct prev; simpl; rewrite Hfb; simpl; eauto.
  - simpl. destruct (Nat.ltb_spec tIdx (length timeSlots - 1)) as [H1|H1].
    + destruct (cellAt_defined nd timeSlots (s_id sb) (tIdx + 1) Hser
                  ltac:(lia)) as [next ->].
      simpl. rewrite Hfb. simpl. eauto.
    + simpl. rewrite Hfb. simpl. eauto.
Qed.

Lemma keepsFilled_refl nd : keepsFilled nd nd.
Proof. intros t s H. exact H. Qed.

Lemma keepsFilled_trans a b c :
  keepsFilled a b -> keepsFilled b c -> keepsFilled a c.
Proof. intros Hab Hbc t s H. apply Hbc, Hab, H. Qed.

(** One cell of the pass: the step goes through, the working copy stays
    related to the snapshot, no number is lost and the cell is filled. *)
Lemma imputeCell_step student tIdx time (ps : PassState Rng) sb :
  In student students ->
  passInv (st_data student) (ps_data ps) timeSlots subjects ->
  timeSlots !! tIdx = Some time -> In sb subjects ->
  exists ps',
    imputeCell Math_sqrt Math_log Math_cos Math_PI Rng Math_random fuel
               students student timeSlots subjects algorithm tIdx time ps sb
    = Some ps' /\
    passInv (st_data student) (ps_data ps') timeSlots subjects /\
    keepsFilled (ps_data ps) (ps_data ps') /\
    filled (ps_data ps') (t_id time) (s_id sb).
Proof.
  intros Hst Hinv Htime Hsb.
  assert (Ht : In time timeSlots).
  { apply list_elem_of_In. eapply list_elem_of_lookup_2. exact Htime. }
  pose proof (lookup_lt_Some _ _ _ Htime) as Hlt.
  pose proof (cohort_defined student Hst) as Hd0.
  destruct (analyzeMissingType_total (st_data student) timeSlots (s_id sb)
              tIdx (matrixDefined_series _ _ _ _ Hd0 Hsb) Hlt)
    as (mt & Hmt & Hnone).
  destruct (Hinv time sb Ht Hsb) as (c0 & c & Hc0 & Hc & Hrel).
  assert (Hcell : cellAt (st_data student) timeSlots (s_id sb) tIdx = Some c0).
  { unfold cellAt. rewrite Htime. exact Hc0. }
  unfold imputeCell. rewrite Hmt. simpl.
  assert (Hmiss : mt <> MNone -> c0 = None).
  { intros Hne. destruct c0 as [v0|]; [|reflexivity].
    exfalso. apply Hne, Hnone. exists v0. exact Hcell. }
  destruct (imputeRaw_total student (ps_data ps) tIdx time sb mt (ps_rng ps)
              (passInv_defined _ _ _ _ Hinv) Htime Hsb)
    as [[[[raw m] mt'] g'] Hraw].
  destruct (setCell_total (ps_data ps) (t_id time) (s_id sb)
              (clampRound (s_full sb) raw) c Hc) as [nd' Hset].
  assert (Hwrite : mt <> MNone ->
    passInv (st_data student) nd' timeSlots subjects /\
    keepsFilled (ps_data ps) nd' /\ filled nd' (t_id time) (s_id sb)).
  { intros Hne. specialize (Hmiss Hne). subst c0. split; [|split].
    - intros t' sb' Ht' Hsb'.
      destruct (decide ((t_id t', s_id sb') = (t_id time, s_id sb)))
        as [[= Et Es]|Hk].
      + rewrite Et, Es. exists None, (Some (clampRound (s_full sb) raw)).
        split; [exact Hc0|]. split; [eapply getCell_setCell; eauto|].
        right. split; [reflexivity|]. eexists. split; [reflexivity|].
        destruct (clampRound_range (s_full sb) raw (full_nonneg sb Hsb))
          as [Hlo Hhi].
        split; [exact Hlo|]. split.
        * rewrite <- (full_by_id sb sb' Hsb Hsb' (eq_sym Es)). exact Hhi.
        * exists sb, raw. auto.
      + destruct (Hinv t' sb' Ht' Hsb') as (c0' & c' & H0' & H' & Hrel').
        exists c0', c'. split; [exact H0'|]. split; [|exact Hrel'].
        rewrite (getCell_setCell_other _ _ _ _ _ _ _ Hset Hk). exact H'.
    - intros t' s' [v Hv].
      destruct (decide ((t', s') = (t_id time, s_id sb))) as [[= -> ->]|Hk].
      + eexists. eapply getCell_setCell; eauto.
      + exists v. rewrite (getCell_setCell_other _ _ _ _ _ _ _ Hset Hk).
        exact Hv.
    - eexists. eapply getCell_setCell; eauto. }
  destruct mt.
  - exists ps. split; [reflexivity|]. split; [exact Hinv|].
    split; [apply keepsFilled_refl|].
    destruct (proj1 Hnone eq_refl) as [v0 Hv0].
    assert (c0 = Some v0) by congruence. subst c0.
    exists v0. destruct Hrel as [->|[Habs _]]; [exact Hc|discriminate].
  - rewrite Hraw. simpl. rewrite Hset. simpl.
    eexists. split; [reflexivity|]. simpl. apply Hwrite. discriminate.
  - rewrite Hraw. simpl. rewrite Hset. simpl.
    eexists. split; [reflexivity|]. simpl. apply Hwrite. discriminate.
Qed.

Lemma filled_mono x nd nd' :
  filled nd (fst x) (snd x) -> keepsFilled nd nd' ->
  filled nd' (fst x) (snd x).
Proof. intros H Hk. apply Hk, H. Qed.

(** One time slot of the pass. *)
Lemma imputeSlot_step student (ps : PassState Rng) it :
  In student students ->
  passInv (st_data student) (ps_data ps) timeSlots subjects ->
  timeSlots !! fst it = Some (snd it) ->
  exists ps',
    imputeSlot Math_sqrt Math_log Math_cos Math_PI Rng Math_random fuel
               students student timeSlots subjects algorithm ps it
    = Some ps' /\
    passInv (st_data student) (ps_data ps') timeSlots subjects /\
    keepsFilled (ps_data ps) (ps_data ps') /\
    forall sb, In sb subjects ->
               filled (ps_data ps') (t_id (snd it)) (s_id sb).
Proof.
  intros Hst Hinv Htime. unfold imputeSlot.
  apply (foldM_invariant
           (imputeCell Math_sqrt Math_log Math_cos Math_PI Rng Math_random
                       fuel students student timeSlots subjects algorithm
                       (fst it) (snd it))
           (fun ps => passInv (st_data student) (ps_data ps) timeSlots
                              subjects)
           (fun ps ps' => keepsFilled (ps_data ps) (ps_data ps'))
           (fun sb ps => filled (ps_data ps) (t_id (snd it)) (s_id sb))).
  - intros s. apply keepsFilled_refl.
  - intros a b c. apply keepsFilled_trans.
  - intros sb s s' H Hk. apply Hk, H.
  - intros s sb Hs Hsb. now apply imputeCell_step.
  - exact Hinv.
Qed.

Lemma passInv_start d :
  matrixDefined d timeSlots subjects -> passInv d d timeSlots subjects.
Proof.
  intros Hd t sb Ht Hsb. destruct (Hd t sb Ht Hsb) as [c Hc].
  exists c, c. auto.
Qed.

(** The pass over one student fills every declared cell within range. *)
Lemma imputeStudent_fills student logs g :
  In student students ->
  exists s' logs' g',
    imputeStudent Math_sqrt Math_log Math_cos Math_PI Rng Math_random fuel
                  students timeSlots subjects algorithm student logs g
    = Some (s', logs', g') /\
    imputedFrom timeSlots subjects student s'.
Proof.
  intros Hst. unfold imputeStudent.
  destruct (foldM_invariant
              (imputeSlot Math_sqrt Math_log Math_cos Math_PI Rng
                          Math_random fuel students student timeSlots
                          subjects algorithm)
              (fun ps => passInv (st_data student) (ps_data ps) timeSlots
                                 subjects)
              (fun ps ps' => keepsFilled (ps_data ps) (ps_data ps'))
              (fun it ps => forall sb, In sb subjects ->
                              filled (ps_data ps) (t_id (snd it)) (s_id sb))
              (indexed timeSlots))
    with (s := mkPassState (st_data student) ∅ logs g)
    as (ps' & Hfold & Hinv & _ & Hdone).
  - intros s. apply keepsFilled_refl.
  - intros a b c. apply keepsFilled_trans.
  - intros it s s' H Hk sb Hsb. apply Hk, H, Hsb.
  - intros s it Hs Hit. apply imputeSlot_step; [exact Hst|exact Hs|].
    destruct it as [i t]. now apply indexed_lookup.
  - apply passInv_start. now apply cohort_defined.
  - rewrite Hfold. simpl. eexists _, _, _. split; [reflexivity|].
    split; [reflexivity|]. split; [reflexivity|].
    split; [exact Hinv|]. simpl.
    intros t sb Ht Hsb.
    destruct (indexed_covers timeSlots t Ht) as [i Hi].
    destruct (Hdone (i, t) Hi sb Hsb) as [v Hv].
    exists v. split; [exact Hv|].
    destruct (Hinv t sb Ht Hsb) as (c0 & c & Hc0 & Hc & Hrel).
    simpl in Hv. rewrite Hv in Hc. injection Hc as <-.
    destruct Hrel as [<-|(_ & w & [= <-] & Hlo & Hhi & _)]; [|auto].
    eapply present_in_range; eauto.
Qed.

(** The pass over the cohort. *)
Lemma imputeAll_fills todo : forall pre out logs g,
  (forall s, In s todo -> In s students) ->
  Forall2 (imputedFrom timeSlots subjects) pre out ->
  exists out' logs' g',
    foldM (fun '(out, logs, g) student =>
             '(s', logs', g') ←
               imputeStudent Math_sqrt Math_log Math_cos Math_PI Rng
                             Math_random fuel students timeSlots subjects
                             algorithm student logs g;
             Some (out ++ [s'], logs', g'))
          todo (out, logs, g)
    = Some (out', logs', g') /\
    Forall2 (imputedFrom timeSlots subjects) (pre ++ todo) out'.
Proof.
  induction todo as [|student todo IH]; intros pre out logs g Hin Hout.
  - exists out, logs, g. simpl. split; [reflexivity|].
    rewrite app_nil_r. exact Hout.
  - destruct (imputeStudent_fills student logs g (Hin _ (or_introl eq_refl)))
      as (s' & logs' & g' & Hs & Hfill).
    destruct (IH (pre ++ [student]) (out ++ [s']) logs' g')
      as (out' & logs'' & g'' & Hf & Hall).
    + intros s Hs0. apply Hin. now right.
    + apply Forall2_app; [exact Hout|]. constructor; [exact Hfill|].
      constructor.
    + exists out', logs'', g''. simpl. rewrite Hs. simpl. rewrite Hf.
      split; [reflexivity|].
      rewrite <- app_assoc in Hall. exact Hall.
Qed.

End Totality.

Lemma Forall2_In_r {A B : Type} (R : A -> B -> Prop) l k y :
  Forall2 R l k -> In y k -> exists x, In x l /\ R x y.
Proof.
  induction 1 as [|x y0 l k Hxy HF IH]; intros Hin; [destruct Hin|].
  destruct Hin as [<-|Hin].
  - exists x. split; [now left|exact Hxy].
  - destruct (IH Hin) as (x' & Hx' & HR). exists x'. split; [now right|exact HR].
Qed.

(** The examples of the specification, run. *)

Example example_normal_sample_80 :
  option_map (fun '(out, _, _) =>
                map (fun s => (st_id s, getCell (st_data s) "t1" "x")) out)
             (runEngine exampleCohort [slot1] [subjectX] BoxMuller)
  = Some [("o1", Some (Some 90)); ("o2", Some (Some 80));
          ("o3", Some (Some 70))].
Proof. vm_compute. reflexivity. Qed.

Example example_midpoint_85 :
  outcome (runEngine [interiorStudent] slots3 [subjectX] Regression)
          "o1" "t2" "x"
  = Some (Some (Some 85), Some (mkDetail 85 Discrete "时序插值")).
Proof. vm_compute. reflexivity. Qed.

Example example_regression_mean_fill :
  outcome (runEngine exampleCohort [slot1] [subjectX] Regression)
          "o2" "t1" "x"
  = Some (Some (Some 80), Some (mkDetail 80 Continuous "均值填充")).
Proof. vm_compute. reflexivity. Qed.

Example example_degraded_discrete_gap :
  outcome (runEngine [doubleGapStudent] slots4 [subjectX] Regression)
          "o1" "t2" "x"
  = Some (Some (Some 0), Some (mkDetail 0 Continuous "均值填充")) /\
  outcome (runEngine [doubleGapStudent] slots4 [subjectX] Regression)
          "o1" "t3" "x"
  = Some (Some (Some 45), Some (mkDetail 45 Discrete "时序插值")).
Proof. split; vm_compute; reflexivity. Qed.

(** * Further properties of the code *)

(** ** Gap classification and rounding *)

Lemma cellAt_agree d1 d2 (ts : list TimeSlot) subId :
  (forall t, In t ts -> getCell d1 (t_id t) subId = getCell d2 (t_id t) subId) ->
  forall i, cellAt d1 ts subId i = cellAt d2 ts subId i.
Proof.
  intros H i. unfold cellAt. destruct (ts !! i) as [t|] eqn:E; [|reflexivity].
  simpl. apply H. apply list_elem_of_In. eapply list_elem_of_lookup_2.
  exact E.
Qed.

(** X1. The classification of a cell of subject S is the same for two
    matrices that agree on the cells of S along the time axis: the scores of
    the other subjects play no part. *)
Theorem analyzeMissingType_own_series d1 d2 (ts : list TimeSlot) subId idx :
  (forall t, In t ts -> getCell d1 (t_id t) subId = getCell d2 (t_id t) subId) ->
  analyzeMissingType d1 idx subId ts = analyzeMissingType d2 idx subId ts.
Proof.
  intros H. pose proof (cellAt_agree d1 d2 ts subId H) as Hc.
  assert (Hb : forall n, scanBack d1 ts subId n = scanBack d2 ts subId n).
  { induction n as [|n IH]; simpl; [reflexivity|]. now rewrite Hc, IH. }
  assert (Hf : forall k j, scanFwd d1 ts subId k j = scanFwd d2 ts subId k j).
  { induction k as [|k IH]; intros j; simpl; [reflexivity|].
    now rewrite Hc, IH. }
  unfold analyzeMissingType. now rewrite Hc, Hb, Hf.
Qed.

Lemma analyzeMissingType_own_series_witness :
  analyzeMissingType leadingGap 1 "x" slots3
  = analyzeMissingType leadingGapWithY 1 "x" slots3.
Proof.
  apply analyzeMissingType_own_series.
  intros t [<-|[<-|[<-|[]]]]; reflexivity.
Defined.

Lemma mathRound_bounds x :
  x - (1 # 2) < mathRound x /\ mathRound x <= x + (1 # 2).
Proof.
  unfold mathRound. pose proof (Qfloor_le (x + (1 # 2))) as Hle.
  pose proof (Qlt_floor (x + (1 # 2))) as Hlt.
  rewrite inject_Z_plus in Hlt. change (inject_Z 1) with 1 in Hlt.
  split; lra.
Qed.

Lemma mathRound_nonneg x : - (1 # 2) <= x -> 0 <= mathRound x.
Proof.
  intros Hx. unfold mathRound.
  change 0 with (inject_Z 0). rewrite <- Zle_Qle.
  apply Qfloor_resp_le in Hx as H0.
  assert (H1 : (0 <= Qfloor (x + (1 # 2)))%Z).
  { change 0%Z with (Qfloor 0). apply Qfloor_resp_le. lra. }
  exact H1.
Qed.

(** X2. A raw value that already lies within [[0, full]] is moved by at most
    one half when it is rounded and clamped. *)
Theorem clampRound_within_half full x :
  0 <= x -> x <= full ->
  - (1 # 2) <= clampRound full x - x /\ clampRound full x - x <= 1 # 2.
Proof.
  intros H0 Hf. unfold clampRound.
  destruct (mathRound_bounds x) as [Hlo Hhi].
  pose proof (mathRound_nonneg x ltac:(lra)) as Hr.
  destruct (Q.min_spec full (mathRound x)) as [[Hlt Hm]|[Hle Hm]];
    rewrite Hm.
  - rewrite Q.max_r by lra. split; lra.
  - rewrite Q.max_r by exact Hr. split; lra.
Qed.

Lemma clampRound_within_half_witness :
  - (1 # 2) <= clampRound 100 (853 # 10) - (853 # 10) /\
  clampRound 100 (853 # 10) - (853 # 10) <= 1 # 2.
Proof.
  apply clampRound_within_half; [discriminate|discriminate].
Defined.

(** X3. When the full marks are a whole number, so is every rounded and
    clamped value. *)
Theorem clampRound_whole full x (f : Z) :
  full == inject_Z f -> exists z : Z, clampRound full x == inject_Z z.
Proof.
  intros Hf. unfold clampRound.
  destruct (Q.min_spec full (mathRound x)) as [[_ Hm]|[_ Hm]];
    destruct (Q.max_spec 0 (Qmin full (mathRound x))) as [[_ HM]|[_ HM]].
  - exists f. rewrite HM, Hm. exact Hf.
  - exists 0%Z. rewrite HM. reflexivity.
  - exists (Qfloor (x + (1 # 2))). rewrite HM, Hm. reflexivity.
  - exists 0%Z. rewrite HM. reflexivity.
Qed.

Lemma clampRound_whole_witness :
  exists z : Z, clampRound 150 (2251 # 20) == inject_Z z.
Proof. apply (clampRound_whole 150 (2251 # 20) 150). reflexivity. Defined.

(** ** The sampler's redraw loop *)

(** X4. The redraw loop [while (u === 0) u = Math.random()] answers the
    first draw of the source that is not zero and leaves the source right
    after it: when the first [k] draws are zero and the next one is not, and
    the bound allows [k + 1] draws, that draw is the result. *)
Theorem drawNonZero_first_nonzero (Rng : Type)
    (Math_random : Rng -> Q * Rng) (fuel k : nat) (g : Rng) :
  (forall i, (i < k)%nat ->
     fst (Math_random (afterDraws Math_random i g)) == 0) ->
  ~ fst (Math_random (afterDraws Math_random k g)) == 0 ->
  (k < fuel)%nat ->
  drawNonZero Rng Math_random fuel g
  = Some (Math_random (afterDraws Math_random k g)).
Proof.
  revert fuel g. induction k as [|k IH]; intros fuel g Hzero Hnz Hfuel;
    (destruct fuel as [|n]; [lia|]); simpl in *.
  - destruct (Math_random g) as [u g'] eqn:E. simpl in Hnz.
    rewrite (Qeq_bool_false u 0 Hnz). reflexivity.
  - pose proof (Hzero O ltac:(lia)) as H0. simpl in H0.
    destruct (Math_random g) as [u g'] eqn:E. simpl in *.
    rewrite (Qeq_bool_true u 0 H0).
    apply IH; [|exact Hnz|lia].
    intros i Hi. pose proof (Hzero (S i) ltac:(lia)) as Hi'.
    simpl in Hi'. rewrite E in Hi'. exact Hi'.
Qed.

Lemma drawNonZero_first_nonzero_witness :
  drawNonZero nat zeroThenHalf 2 0%nat = Some (1 # 2, 2%nat).
Proof.
  apply (drawNonZero_first_nonzero nat zeroThenHalf 2 1 0%nat).
  - intros i Hi. assert (i = 0%nat) as -> by lia. reflexivity.
  - simpl. discriminate.
  - lia.
Defined.

(** ** Scoring *)

Lemma bigsum_le {A : Type} (f g : A -> Q) (l : list A) :
  (forall x, In x l -> f x <= g x) -> bigsum f l <= bigsum g l.
Proof.
  induction l as [|x l IH]; intros H; unfold bigsum; cbn [fold_right];
    [apply Qle_refl|].
  fold (bigsum f l). fold (bigsum g l).
  pose proof (H x (or_introl eq_refl)).
  pose proof (IH (fun y Hy => H y (or_intror Hy))). lra.
Qed.

Lemma bigsum_nonneg_in {A : Type} (f : A -> Q) (l : list A) :
  (forall x, In x l -> 0 <= f x) -> 0 <= bigsum f l.
Proof.
  induction l as [|x l IH]; intros H; unfold bigsum; cbn [fold_right];
    [apply Qle_refl|].
  fold (bigsum f l).
  pose proof (H x (or_introl eq_refl)).
  pose proof (IH (fun y Hy => H y (or_intror Hy))). lra.
Qed.

Lemma weightedSum_monotone d1 d2 tSlots subs :
  (forall t, In t tSlots -> 0 <= t_weight t) ->
  (forall sb, In sb subs -> 0 <= s_weight sb) ->
  (forall t sb, In t tSlots -> In sb subs ->
     cellValue d1 (t_id t) (s_id sb) <= cellValue d2 (t_id t) (s_id sb)) ->
  weightedSum d1 tSlots subs <= weightedSum d2 tSlots subs.
Proof.
  intros Ht Hs Hc. unfold weightedSum. apply bigsum_le. intros t Hin.
  rewrite !(Qmult_comm (t_weight t)).
  apply Qmult_le_compat_r; [|now apply Ht].
  apply bigsum_le. intros sb Hsb.
  apply Qmult_le_compat_r; [now apply Hc|now apply Hs].
Qed.

(** X5. With weights that are not negative the final score is monotone in
    the scores: a matrix whose every declared cell counts at least as much
    as in another one (an absent cell counting 0) gets a final score that is
    not smaller. *)
Theorem totalScore_monotone d1 d2 tSlots subs :
  (forall t, In t tSlots -> 0 <= t_weight t) ->
  (forall sb, In sb subs -> 0 <= s_weight sb) ->
  (forall t sb, In t tSlots -> In sb subs ->
     cellValue d1 (t_id t) (s_id sb) <= cellValue d2 (t_id t) (s_id sb)) ->
  totalScore d1 tSlots subs <= totalScore d2 tSlots subs.
Proof.
  intros Ht Hs Hc. rewrite !totalScore_weightedSum.
  now apply weightedSum_monotone.
Qed.

Lemma totalScore_monotone_witness :
  totalScore leadingGap slots3 [subjectX]
  <= totalScore interiorGap slots3 [subjectX].
Proof.
  apply totalScore_monotone.
  - intros t [<-|[<-|[<-|[]]]]; discriminate.
  - intros sb [<-|[]]. discriminate.
  - intros t sb [<-|[<-|[<-|[]]]] [<-|[]]; vm_compute; discriminate.
Defined.

Lemma bigsum_zero {A : Type} (f : A -> Q) (l : list A) :
  (forall x, In x l -> f x == 0) -> bigsum f l == 0.
Proof.
  induction l as [|x l IH]; intros H; unfold bigsum; cbn [fold_right];
    [reflexivity|].
  fold (bigsum f l). rewrite (H x (or_introl eq_refl)).
  rewrite (IH (fun y Hy => H y (or_intror Hy))). reflexivity.
Qed.

Lemma sorted_all_zero l :
  Forall (fun s => st_finalScore s == 0) l -> Sorted scoreGe l.
Proof.
  induction 1 as [|x l Hx Hl IH]; [constructor|].
  constructor; [exact IH|].
  destruct Hl as [|y l Hy _]; constructor.
  unfold scoreGe. rewrite Hx, Hy. apply Qle_refl.
Qed.

(** X6. When every time slot has weight 0 (in particular when there is no
    time slot), every final score is 0 and the ranking keeps the students in
    the order of the input. *)
Theorem recalcScores_zero_time_weights students tSlots subs :
  (forall t, In t tSlots -> t_weight t == 0) ->
  recalcScores students tSlots subs = map (rescore tSlots subs) students /\
  Forall (fun s => st_finalScore s == 0) (recalcScores students tSlots subs).
Proof.
  intros Hz.
  assert (Hall : Forall (fun s => st_finalScore s == 0)
                        (map (rescore tSlots subs) students)).
  { apply List.Forall_forall. intros s' Hin.
    apply in_map_iff in Hin as (s & <- & _). simpl.
    rewrite totalScore_weightedSum. unfold weightedSum.
    apply bigsum_zero. intros t Ht. rewrite (Hz t Ht). ring. }
  assert (Heq : recalcScores students tSlots subs
                = map (rescore tSlots subs) students).
  { unfold recalcScores. apply stableSort_of_sorted.
    now apply sorted_all_zero. }
  split; [exact Heq|]. rewrite Heq. exact Hall.
Qed.

Lemma recalcScores_zero_time_weights_witness :
  recalcScores refMeanCohort [zeroSlot] subjectsAB
  = map (rescore [zeroSlot] subjectsAB) refMeanCohort.
Proof.
  apply recalcScores_zero_time_weights.
  intros t [<-|[]]. reflexivity.
Defined.

(** ** Correlation *)

Lemma bothPresent_sym timeId subA subB s :
  bothPresent timeId subB subA s = bothPresent timeId subA subB s.
Proof.
  unfold bothPresent.
  destruct (getCell (st_data s) timeId subA) as [[a|]|];
    destruct (getCell (st_data s) timeId subB) as [[b|]|]; reflexivity.
Qed.

Lemma pairedSample_swap data timeId subA subB :
  pairedSample data timeId subB subA
  = map swapPair (pairedSample data timeId subA subB).
Proof.
  induction data as [|s data IH]; [reflexivity|].
  rewrite !pairedSample_cons, bothPresent_sym, IH.
  destruct (bothPresent timeId subA subB s); reflexivity.
Qed.

Lemma fold_sum_swap ps : forall a,
  fold_left (fun s p => s + fst p) (map swapPair ps) a
  = fold_left (fun s p => s + snd p) ps a /\
  fold_left (fun s p => s + snd p) (map swapPair ps) a
  = fold_left (fun s p => s + fst p) ps a.
Proof.
  induction ps as [|p ps IH]; intros a; simpl; [split; reflexivity|].
  split; apply IH.
Qed.

Lemma corrSums_swap mA mB ps : forall n n' a b,
  n' == n ->
  let '(num, denA, denB) := fold_left (corrStep mA mB) ps (n, a, b) in
  let '(num', denA', denB') :=
    fold_left (corrStep mB mA) (map swapPair ps) (n', b, a) in
  num' == num /\ denA' = denB /\ denB' = denA.
Proof.
  induction ps as [|p ps IH]; intros n n' a b Hn; simpl.
  - auto.
  - apply IH. simpl. rewrite Hn. ring.
Qed.

Lemma corrOfPairs_swap Math_sqrt ps :
  (forall x y, x == y -> Math_sqrt x == Math_sqrt y) ->
  corrOfPairs Math_sqrt (map swapPair ps) == corrOfPairs Math_sqrt ps.
Proof.
  intros Hproper. unfold corrOfPairs. rewrite length_map.
  destruct (length ps <? 3)%nat; [reflexivity|].
  destruct (fold_sum_swap ps 0) as [-> ->].
  unfold corrSums.
  pose proof (corrSums_swap
                (fold_left (fun s p => s + fst p) ps 0
                 / inject_Z (Z.of_nat (length ps)))
                (fold_left (fun s p => s + snd p) ps 0
                 / inject_Z (Z.of_nat (length ps)))
                ps 0 0 0 0 ltac:(reflexivity)) as H.
  destruct (fold_left (corrStep _ _) ps _) as [[num denA] denB].
  destruct (fold_left (corrStep _ _) (map swapPair ps) _)
    as [[num' denA'] denB'].
  destruct H as (Hn & -> & ->).
  rewrite (orb_comm (Qeq_bool denB 0)).
  destruct (Qeq_bool denA 0 || Qeq_bool denB 0); [reflexivity|].
  rewrite Hn, (Hproper (denB * denA) (denA * denB)) by ring. reflexivity.
Qed.

(** X7. The correlation is symmetric in its two subjects, for a square root
    that gives equal results on equal numbers. *)
Theorem calculateCorrelation_symmetric Math_sqrt data subA subB timeId :
  (forall x y, x == y -> Math_sqrt x == Math_sqrt y) ->
  cellsDefined data timeId subA -> cellsDefined data timeId subB ->
  exists r1 r2,
    calculateCorrelation Math_sqrt data subA subB timeId = Some r1 /\
    calculateCorrelation Math_sqrt data subB subA timeId = Some r2 /\
    r2 == r1.
Proof.
  intros Hproper HA HB.
  rewrite (calculateCorrelation_pairs Math_sqrt data subA subB timeId HA HB).
  rewrite (calculateCorrelation_pairs Math_sqrt data subB subA timeId HB HA).
  eexists _, _. split; [reflexivity|]. split; [reflexivity|].
  rewrite pairedSample_swap. now apply corrOfPairs_swap.
Qed.

Lemma sqrtRed_proper x y : x == y -> sqrtRed x == sqrtRed y.
Proof.
  intros H. unfold sqrtRed. rewrite (Qred_complete x y H). reflexivity.
Defined.

Lemma calculateCorrelation_symmetric_witness :
  exists r1 r2,
    calculateCorrelation sqrtRed bothMissingCohort "A" "B" "t1" = Some r1 /\
    calculateCorrelation sqrtRed bothMissingCohort "B" "A" "t1" = Some r2 /\
    r2 == r1.
Proof.
  apply calculateCorrelation_symmetric.
  - exact sqrtRed_proper.
  - repeat constructor; vm_compute; eauto.
  - repeat constructor; vm_compute; eauto.
Defined.

(** ** The fallback estimators *)

Lemma findRefSub_none nd timeId subId (l : list Subject) :
  (forall s, In s l -> s_id s <> subId ->
             getCell nd timeId (s_id s) = Some None) ->
  findRefSub nd timeId subId l = Some None.
Proof.
  induction l as [|s l IH]; intros H; simpl; [reflexivity|].
  destruct (String.eqb_spec (s_id s) subId) as [E|E].
  - apply IH. intros s0 Hs0. apply H. now right.
  - rewrite (H s (or_introl eq_refl) E). simpl.
    apply IH. intros s0 Hs0. apply H. now right.
Qed.

(** X8. Regression without a reference: when the working copy holds no
    number for the student in any other subject at the time slot, the
    estimate is the mean of the present scores of the cohort for this
    subject and slot, tagged as mean fill, and no random number is drawn. *)
Theorem regression_without_reference_is_mean_fill
    Math_sqrt Math_log Math_cos Math_PI Rng Math_random fuel
    students student subjects newData time sb g vals :
  (forall s, In s subjects -> s_id s <> s_id sb ->
             getCell newData (t_id time) (s_id s) = Some None) ->
  validValues students (t_id time) (s_id sb) = Some vals ->
  fallbackEstimate Math_sqrt Math_log Math_cos Math_PI Rng Math_random fuel
                   students student subjects Regression newData time sb g
  = Some (cohortMean vals, "均值填充", g).
Proof.
  intros Hnone Hvals. unfold fallbackEstimate, regressionEstimate.
  rewrite Hvals. simpl.
  rewrite (findRefSub_none newData (t_id time) (s_id sb) subjects Hnone).
  reflexivity.
Qed.

Lemma regression_without_reference_is_mean_fill_witness :
  fallbackEstimate sqrtQ zeroFn zeroFn 0 unit halfRandom 1
                   bothMissingCohort missingBoth subjectsAB Regression
                   (st_data missingBoth) slot1 subjectB tt
  = Some (cohortMean [80; 30; 10], "均值填充", tt).
Proof.
  apply regression_without_reference_is_mean_fill.
  - intros s [<-|[<-|[]]] Hne; [reflexivity|].
    exfalso. apply Hne. reflexivity.
  - reflexivity.
Defined.

Lemma validValues_nil students timeId subId :
  validValues students timeId subId = Some [] ->
  forall o, In o students -> getCell (st_data o) timeId subId = Some None.
Proof.
  unfold validValues, column.
  induction students as [|s l IH]; intros H o Ho; [destruct Ho|].
  cbn [mapM] in H.
  destruct (getCell (st_data s) timeId subId) as [c|] eqn:Ec;
    [|discriminate].
  simpl in H.
  destruct (mapM (fun s0 => getCell (st_data s0) timeId subId) l)
    as [cells|] eqn:Em; [|discriminate].
  simpl in H. unfold presentValues in H. cbn [omap list_omap] in H.
  destruct c as [v|]; [discriminate|].
  destruct Ho as [<-|Ho]; [exact Ec|].
  apply IH; [|exact Ho]. simpl. exact H.
Qed.

Lemma foldM_fixed {A S : Type} (f : S -> A -> option S) (l : list A) s :
  (forall x, In x l -> f s x = Some s) -> foldM f l s = Some s.
Proof.
  induction l as [|x l IH]; intros H; simpl; [reflexivity|].
  rewrite (H x (or_introl eq_refl)). simpl.
  apply IH. intros y Hy. apply H. now right.
Qed.

(** X9. A subject that nobody has a score for at a time slot: under
    regression and under nearest neighbour the estimate is 0, the mean of
    the empty cross-section, and no random number is drawn. *)
Theorem empty_cross_section_estimates_zero
    Math_sqrt Math_log Math_cos Math_PI Rng Math_random fuel
    students student timeSlots subjects algorithm newData time sb g :
  cohortDefined students timeSlots subjects ->
  matrixDefined newData timeSlots subjects ->
  In time timeSlots -> In sb subjects ->
  algorithm <> BoxMuller ->
  validValues students (t_id time) (s_id sb) = Some [] ->
  exists v m,
    fallbackEstimate Math_sqrt Math_log Math_cos Math_PI Rng Math_random
                     fuel students student subjects algorithm newData time
                     sb g
    = Some (v, m, g) /\ v == 0.
Proof.
  intros Hcoh Hnd Ht Hsb Halg Hvals.
  destruct (fallbackEstimate_total Math_sqrt Math_log Math_cos Math_PI Rng
              Math_random fuel students timeSlots subjects algorithm Hcoh
              ltac:(intros E; contradiction) student newData time sb g
              Hnd Ht Hsb) as [[[v m] g'] Hfb].
  rewrite Hfb. unfold fallbackEstimate in Hfb. rewrite Hvals in Hfb.
  simpl in Hfb. destruct algorithm; [contradiction| |].
  - unfold regressionEstimate in Hfb.
    destruct (findRefSub _ _ _ _) as [[r|]|]; simpl in Hfb;
      try discriminate.
    + destruct (getCell newData (t_id time) (s_id r)) as [c|]; simpl in Hfb;
        [|discriminate].
      destruct (refMeanOf students (t_id time) (s_id r)) as [rm|];
        simpl in Hfb; [|discriminate].
      injection Hfb as <- <- <-. eexists _, _. split; [reflexivity|].
      assert (H0 : cohortMean [] == 0) by reflexivity.
      rewrite H0. unfold Qdiv. ring.
    + injection Hfb as <- <- <-. eexists _, _. split; reflexivity.
  - rewrite (foldM_fixed (knnStep Math_sqrt student subjects newData time sb)
               students (None, cohortMean [])) in Hfb.
    + simpl in Hfb. injection Hfb as <- <- <-.
      eexists _, _. split; reflexivity.
    + intros o Ho. unfold knnStep.
      destruct (String.eqb (st_id o) (st_id student)); [reflexivity|].
      rewrite (validValues_nil students (t_id time) (s_id sb) Hvals o Ho).
      reflexivity.
Qed.

Lemma empty_cross_section_estimates_zero_witness :
  exists v m,
    fallbackEstimate sqrtQ zeroFn zeroFn 0 unit halfRandom 1 nobodyHasA
                     studentP subjectsAB Regression
                     (st_data studentP) slot1 subjectA tt
    = Some (v, m, tt) /\ v == 0.
Proof.
  apply (empty_cross_section_estimates_zero sqrtQ zeroFn zeroFn 0 unit
           halfRandom 1 nobodyHasA studentP [slot1] subjectsAB Regression).
  - intros s [<-|[<-|[]]] t sb [<-|[]] [<-|[<-|[]]]; vm_compute; eauto.
  - intros t sb [<-|[]] [<-|[<-|[]]]; vm_compute; eauto.
  - now left.
  - now left.
  - discriminate.
  - reflexivity.
Defined.

Lemma knnCandidate_functional student subjects nd time sb o v d v' d' :
  knnCandidate student subjects nd time sb o v d ->
  knnCandidate student subjects nd time sb o v' d' ->
  v' = v /\ d' = d.
Proof.
  intros (_ & Hv & c & Hd & _) (_ & Hv' & c' & Hd' & _).
  rewrite Hv in Hv'. rewrite Hd in Hd'.
  injection Hv' as ->. injection Hd' as -> _. split; reflexivity.
Qed.

Lemma knnStep_outcome Math_sqrt student subjects nd time sb mean pre acc
    other acc' :
  knnOutcome Math_sqrt student subjects nd time sb mean pre acc ->
  knnStep Math_sqrt student subjects nd time sb acc other = Some acc' ->
  knnOutcome Math_sqrt student subjects nd time sb mean (pre ++ [other]) acc'.
Proof.
  intros Hinv Hstep.
  (* a student that does not count leaves the accumulator as it is *)
  assert (Hskip :
    (forall v d, ~ knnCandidate student subjects nd time sb other v d) ->
    knnOutcome Math_sqrt student subjects nd time sb mean (pre ++ [other])
               acc).
  { intros Hno. destruct Hinv as [[-> Hnone]|
      (l1 & o & l2 & v & d & -> & Hc & -> & Hbefore & Hafter)].
    - left. split; [reflexivity|]. intros o v d Hin.
      apply in_app_or in Hin as [Hin|[<-|[]]]; [now apply Hnone|apply Hno].
    - right. exists l1, o, (l2 ++ [other]), v, d.
      split; [now rewrite <- app_assoc|]. split; [exact Hc|].
      split; [reflexivity|]. split; [exact Hbefore|].
      intros o' v' d' Hin Hc'.
      apply in_app_or in Hin as [Hin|[<-|[]]]; [eapply Hafter; eauto|].
      exfalso. eapply Hno. exact Hc'. }
  unfold knnStep in Hstep.
  destruct (String.eqb_spec (st_id other) (st_id student)) as [Eid|Eid].
  { injection Hstep as <-. apply Hskip. intros v d (Hne & _). contradiction. }
  destruct (getCell (st_data other) (t_id time) (s_id sb)) as [c|] eqn:Ec;
    simpl in Hstep; [|discriminate].
  destruct c as [otherVal|].
  2:{ injection Hstep as <-. apply Hskip. intros v d (_ & Hv & _).
      congruence. }
  destruct (knnDistance subjects nd other time sb) as [[dist count]|] eqn:Ed;
    simpl in Hstep; [|discriminate].
  destruct (Nat.ltb_spec 0 count) as [Hcount|Hcount].
  2:{ injection Hstep as <-. apply Hskip. intros v d (_ & _ & c & Hd & Hc).
      rewrite Ed in Hd. injection Hd as _ <-. lia. }
  assert (Hcand : knnCandidate student subjects nd time sb other otherVal dist).
  { split; [exact Eid|]. split; [exact Ec|]. exists count. auto. }
  destruct Hinv as [[-> Hnone]|
      (l1 & o & l2 & v & d & -> & Hc & -> & Hbefore & Hafter)].
  - simpl in Hstep. injection Hstep as <-. right.
    exists pre, other, [], otherVal, dist.
    split; [reflexivity|]. split; [exact Hcand|]. split; [reflexivity|].
    split; [|intros o' v' d' []].
    intros o' v' d' Hin Hc'. exfalso. eapply Hnone; eauto.
  - simpl in Hstep.
    destruct (Qle_bool (Math_sqrt d) (Math_sqrt dist)) eqn:Ele;
      simpl in Hstep; injection Hstep as <-.
    + apply Qle_bool_iff in Ele. right.
      exists l1, o, (l2 ++ [other]), v, d.
      split; [now rewrite <- app_assoc|]. split; [exact Hc|].
      split; [reflexivity|]. split; [exact Hbefore|].
      intros o' v' d' Hin Hc'.
      apply in_app_or in Hin as [Hin|[<-|[]]]; [eapply Hafter; eauto|].
      destruct (knnCandidate_functional _ _ _ _ _ _ _ _ _ _ Hcand Hc')
        as [_ ->].
      exact Ele.
    + assert (Hlt : Math_sqrt dist < Math_sqrt d).
      { apply Qnot_le_lt. intros Hle. apply Qle_bool_iff in Hle. congruence. }
      right. exists (l1 ++ o :: l2), other, [], otherVal, dist.
      split; [reflexivity|]. split; [exact Hcand|]. split; [reflexivity|].
      split; [|intros o' v' d' []].
      intros o' v' d' Hin Hc'.
      apply in_app_or in Hin as [Hin|[<-|Hin]].
      * pose proof (Hbefore o' v' d' Hin Hc'). lra.
      * destruct (knnCandidate_functional _ _ _ _ _ _ _ _ _ _ Hc Hc')
          as [_ ->].
        exact Hlt.
      * pose proof (Hafter o' v' d' Hin Hc'). lra.
Qed.

Lemma knnFold_outcome Math_sqrt student subjects nd time sb mean todo :
  forall pre acc acc',
  knnOutcome Math_sqrt student subjects nd time sb mean pre acc ->
  foldM (knnStep Math_sqrt student subjects nd time sb) todo acc = Some acc' ->
  knnOutcome Math_sqrt student subjects nd time sb mean (pre ++ todo) acc'.
Proof.
  induction todo as [|x todo IH]; intros pre acc acc' Hinv Hfold;
    simpl in Hfold.
  - injection Hfold as <-. now rewrite app_nil_r.
  - destruct (knnStep Math_sqrt student subjects nd time sb acc x)
      as [acc1|] eqn:E; simpl in Hfold; [|discriminate].
    replace (pre ++ x :: todo) with ((pre ++ [x]) ++ todo)
      by (now rewrite <- app_assoc).
    eapply IH; [|exact Hfold]. eapply knnStep_outcome; eauto.
Qed.

(** X10. Nearest-neighbour estimate.  For a well-formed cohort the search
    returns, draws no random number, and its value is the cohort mean when no
    other student counts (another id, the cell present, a subject in common
    in the working copy); otherwise it is the score of the candidate at the
    least distance, the first one in cohort order among those at that
    distance. *)
Theorem knn_estimate_is_first_nearest
    Math_sqrt Math_log Math_cos Math_PI Rng Math_random fuel
    students student timeSlots subjects newData time sb g :
  cohortDefined students timeSlots subjects ->
  matrixDefined newData timeSlots subjects ->
  In time timeSlots -> In sb subjects ->
  exists vals md v,
    validValues students (t_id time) (s_id sb) = Some vals /\
    fallbackEstimate Math_sqrt Math_log Math_cos Math_PI Rng Math_random
                     fuel students student subjects Knn newData time sb g
    = Some (v, "KNN(最近邻)", g) /\
    knnOutcome Math_sqrt student subjects newData time sb (cohortMean vals)
               students (md, v).
Proof.
  intros Hcoh Hnd Ht Hsb.
  destruct (validValues_total students (t_id time) (s_id sb))
    as [vals Hvals]; [intros s Hs; now apply (Hcoh s Hs)|].
  destruct (knn_total Math_sqrt students timeSlots subjects Hcoh student
              newData time sb (None, cohortMean vals) Hnd Ht Hsb)
    as [[md v] Hfold].
  exists vals, md, v. split; [exact Hvals|]. split.
  - unfold fallbackEstimate. rewrite Hvals. simpl. rewrite Hfold.
    reflexivity.
  - apply (knnFold_outcome Math_sqrt student subjects newData time sb
             (cohortMean vals) students [] (None, cohortMean vals));
      [|exact Hfold].
    left. split; [reflexivity|]. intros o v0 d [].
Qed.

Lemma knn_estimate_is_first_nearest_witness :
  exists vals md v,
    validValues bothMissingCohort "t1" "B" = Some vals /\
    fallbackEstimate sqrtQ zeroFn zeroFn 0 unit halfRandom 1
                     bothMissingCohort missingBoth subjectsAB Knn afterA
                     slot1 subjectB tt
    = Some (v, "KNN(最近邻)", tt) /\
    knnOutcome sqrtQ missingBoth subjectsAB afterA slot1 subjectB
               (cohortMean vals) bothMissingCohort (md, v).
Proof.
  apply (knn_estimate_is_first_nearest sqrtQ zeroFn zeroFn 0 unit halfRandom 1
           bothMissingCohort missingBoth [slot1] subjectsAB afterA slot1
           subjectB tt).
  - intros s [<-|[<-|[<-|[<-|[]]]]] t sb [<-|[]] [<-|[<-|[]]];
      vm_compute; eauto.
  - intros t sb [<-|[]] [<-|[<-|[]]]; vm_compute; eauto.
  - now left.
  - right. now left.
Defined.

(** ** The pass, cell by cell *)

Lemma analyzeMissingType_inv d idx subId ts mt :
  analyzeMissingType d idx subId ts = Some mt ->
  (mt = MNone /\ presentAt d ts subId idx) \/
  (mt <> MNone /\ cellAt d ts subId idx = Some None).
Proof.
  unfold analyzeMissingType, presentAt.
  destruct (cellAt d ts subId idx) as [[v|]|]; simpl; [| |discriminate].
  - intros [= <-]. left. eauto.
  - destruct (scanBack d ts subId idx); simpl; [|discriminate].
    destruct (scanFwd d ts subId _ _); simpl; [|discriminate].
    destruct (_ || _); intros [= <-]; right; split;
      (discriminate || reflexivity).
Qed.

Lemma foldM_partial {A S : Type} (f : S -> A -> option S)
    (I : S -> Prop) (R : S -> S -> Prop) (Done : A -> S -> Prop)
    (l : list A) :
  (forall s, R s s) ->
  (forall a b c, R a b -> R b c -> R a c) ->
  (forall x s s', Done x s -> R s s' -> Done x s') ->
  (forall s x s', I s -> In x l -> f s x = Some s' ->
     I s' /\ R s s' /\ Done x s') ->
  forall s s', I s -> foldM f l s = Some s' ->
    I s' /\ R s s' /\ forall x, In x l -> Done x s'.
Proof.
  intros Hrefl Htrans Hmono. induction l as [|x l IH];
    intros Hstep s s' Hs Hfold; simpl in Hfold.
  - injection Hfold as <-. repeat split; auto. intros x [].
  - destruct (f s x) as [s1|] eqn:E; simpl in Hfold; [|discriminate].
    destruct (Hstep s x s1 Hs (or_introl eq_refl) E) as (H1 & HR & HD).
    destruct (IH (fun a y b Hi Hy => Hstep a y b Hi (or_intror Hy))
                 s1 s' H1 Hfold) as (H2 & HR2 & HD2).
    repeat split; eauto. intros y [<-|Hy]; eauto.
Qed.

Lemma detailAt_setDetail ds timeId subId x :
  detailAt (setDetail ds timeId subId x) timeId subId = Some x.
Proof.
  unfold detailAt, setDetail. rewrite lookup_insert_eq. simpl.
  apply lookup_insert_eq.
Qed.

Lemma detailAt_setDetail_other ds timeId subId x timeId' subId' :
  (timeId', subId') <> (timeId, subId) ->
  detailAt (setDetail ds timeId subId x) timeId' subId'
  = detailAt ds timeId' subId'.
Proof.
  intros Hne. unfold detailAt, setDetail.
  destruct (decide (timeId = timeId')) as [<-|Ht].
  - rewrite lookup_insert_eq. simpl.
    rewrite lookup_insert_ne by congruence.
    destruct (ds !! timeId); reflexivity.
  - rewrite lookup_insert_ne by exact Ht. reflexivity.
Qed.

Section PassFacts.

Variable Math_sqrt : Q -> Q.
Variable Math_log : Q -> Q.
Variable Math_cos : Q -> Q.
Variable Math_PI : Q.
Variable Rng : Type.
Variable Math_random : Rng -> Q * Rng.
Variable fuel : nat.

Variable students : list Student.
Variable student : Student.
Variable timeSlots : list TimeSlot.
Variable subjects : list Subject.
Variable algorithm : AlgorithmType.

Lemma imputeRaw_type nd tIdx time sb mt g raw m mt' g' :
  imputeRaw Math_sqrt Math_log Math_cos Math_PI Rng Math_random fuel
            students student timeSlots subjects algorithm nd tIdx time sb
            mt g
  = Some (raw, m, mt', g') ->
  mt <> MNone -> mt' <> MNone.
Proof.
  unfold imputeRaw, tryInterpolate. intros H Hne.
  destruct mt; [contradiction| |].
  - destruct (if (0 <? tIdx)%nat then _ else _) as [prev|]; simpl in H;
      [|discriminate].
    destruct (if (tIdx <? length timeSlots - 1)%nat then _ else _)
      as [next|]; simpl in H; [|discriminate].
    destruct prev as [p|], next as [n|]; simpl in H.
    + destruct (Math_random g). simpl in H. injection H as _ _ <- _.
      discriminate.
    + destruct (fallbackEstimate _ _ _ _ _ _ _ _ _ _ _ _ _ _ _)
        as [[[v m0] g2]|]; simpl in H; [|discriminate].
      injection H as _ _ <- _. discriminate.
    + destruct (fallbackEstimate _ _ _ _ _ _ _ _ _ _ _ _ _ _ _)
        as [[[v m0] g2]|]; simpl in H; [|discriminate].
      injection H as _ _ <- _. discriminate.
    + destruct (fallbackEstimate _ _ _ _ _ _ _ _ _ _ _ _ _ _ _)
        as [[[v m0] g2]|]; simpl in H; [|discriminate].
      injection H as _ _ <- _. discriminate.
  - simpl in H.
    destruct (fallbackEstimate _ _ _ _ _ _ _ _ _ _ _ _ _ _ _)
      as [[[v m0] g2]|]; simpl in H; [|discriminate].
    injection H as _ _ <- _. discriminate.
Qed.

(** What one step of the pass does: nothing on a present cell; on an absent
    one it writes the rounded and clamped estimate, records its detail and
    appends one log line. *)
Lemma imputeCell_inv tIdx time (ps ps' : PassState Rng) sb :
  timeSlots !! tIdx = Some time ->
  imputeCell Math_sqrt Math_log Math_cos Math_PI Rng Math_random fuel
             students student timeSlots subjects algorithm tIdx time ps sb
  = Some ps' ->
  (filled (st_data student) (t_id time) (s_id sb) /\ ps' = ps) \/
  (getCell (st_data student) (t_id time) (s_id sb) = Some None /\
   exists raw m mt' g' nd',
     mt' <> MNone /\
     setCell (ps_data ps) (t_id time) (s_id sb) (clampRound (s_full sb) raw)
     = Some nd' /\
     ps' = mkPassState nd'
             (setDetail (ps_details ps) (t_id time) (s_id sb)
                (mkDetail (clampRound (s_full sb) raw) mt' m))
             (ps_logs ps ++
                [LogImputed (st_name student) (s_name sb) m
                            (clampRound (s_full sb) raw)])
             g').
Proof.
  intros Htime H. unfold imputeCell in H.
  destruct (analyzeMissingType (st_data student) tIdx (s_id sb) timeSlots)
    as [mt|] eqn:Emt; simpl in H; [|discriminate].
  assert (Hcell : cellAt (st_data student) timeSlots (s_id sb) tIdx
                  = getCell (st_data student) (t_id time) (s_id sb)).
  { unfold cellAt. rewrite Htime. reflexivity. }
  destruct (analyzeMissingType_inv _ _ _ _ _ Emt) as [[-> [v Hv]]|[Hne Habs]].
  - injection H as <-. left. split; [|reflexivity].
    exists v. rewrite <- Hcell. exact Hv.
  - right. split; [rewrite <- Hcell; exact Habs|].
    assert (Hbody :
      ('(raw, method, missingType', g') ←
         imputeRaw Math_sqrt Math_log Math_cos Math_PI Rng Math_random fuel
                   students student timeSlots subjects algorithm
                   (ps_data ps) tIdx time sb mt (ps_rng ps);
       newData ← setCell (ps_data ps) (t_id time) (s_id sb)
                   (clampRound (s_full sb) raw);
       Some (mkPassState newData
               (setDetail (ps_details ps) (t_id time) (s_id sb)
                  (mkDetail (clampRound (s_full sb) raw) missingType'
                            method))
               (ps_logs ps ++
                  [LogImputed (st_name student) (s_name sb) method
                              (clampRound (s_full sb) raw)])
               g')) = Some ps').
    { destruct mt; [contradiction|exact H|exact H]. }
    clear H.
    destruct (imputeRaw _ _ _ _ _ _ _ _ _ _ _ _ _ _ _ _ _ _)
      as [[[[raw m] mt'] g']|] eqn:Eraw; simpl in Hbody; [|discriminate].
    destruct (setCell _ _ _ _) as [nd'|] eqn:Eset; simpl in Hbody;
      [|discriminate].
    injection Hbody as <-.
    exists raw, m, mt', g', nd'.
    split; [eapply imputeRaw_type; eauto|].
    split; [exact Eset|reflexivity].
Qed.

End PassFacts.

Lemma snd_indexed (timeSlots : list TimeSlot) :
  map snd (zip (seq 0 (length timeSlots)) timeSlots) = timeSlots.
Proof.
  generalize 0%nat. induction timeSlots as [|t l IH]; intros k; simpl;
    [reflexivity|].
  now rewrite IH.
Qed.

Section PassAccounts.

Variable Math_sqrt : Q -> Q.
Variable Math_log : Q -> Q.
Variable Math_cos : Q -> Q.
Variable Math_PI : Q.
Variable Rng : Type.
Variable Math_random : Rng -> Q * Rng.
Variable fuel : nat.

Variable students : list Student.
Variable student : Student.
Variable timeSlots : list TimeSlot.
Variable subjects : list Subject.
Variable algorithm : AlgorithmType.

Lemma imputeCell_details tIdx time (ps ps' : PassState Rng) sb :
  timeSlots !! tIdx = Some time ->
  detailsSound (st_data student) (ps_data ps) (ps_details ps) ->
  imputeCell Math_sqrt Math_log Math_cos Math_PI Rng Math_random fuel
             students student timeSlots subjects algorithm tIdx time ps sb
  = Some ps' ->
  detailsSound (st_data student) (ps_data ps') (ps_details ps') /\
  keepsDetails ps ps' /\
  (getCell (st_data student) (t_id time) (s_id sb) = Some None ->
   is_Some (detailAt (ps_details ps') (t_id time) (s_id sb))).
Proof.
  intros Htime Hsound Hstep.
  destruct (imputeCell_inv Math_sqrt Math_log Math_cos Math_PI Rng
              Math_random fuel students student timeSlots subjects
              algorithm tIdx time ps ps' sb Htime Hstep)
    as [[[v Hv] ->]|(Habs & raw & m & mt' & g' & nd' & Hmt & Hset & ->)].
  - split; [exact Hsound|]. split; [intros t s H; exact H|].
    intros Hnull. congruence.
  - simpl. split; [|split].
    + intros tid sid det Hdet.
      destruct (decide ((tid, sid) = (t_id time, s_id sb)))
        as [[= -> ->]|Hk].
      * rewrite detailAt_setDetail in Hdet. injection Hdet as <-. simpl.
        split; [exact Habs|]. split; [|exact Hmt].
        eapply getCell_setCell; eauto.
      * rewrite (detailAt_setDetail_other _ _ _ _ _ _ Hk) in Hdet.
        destruct (Hsound tid sid det Hdet) as (H0 & H1 & H2).
        split; [exact H0|]. split; [|exact H2].
        rewrite (getCell_setCell_other _ _ _ _ _ _ _ Hset Hk). exact H1.
    + intros tid sid Hsome. simpl in *.
      destruct (decide ((tid, sid) = (t_id time, s_id sb)))
        as [[= -> ->]|Hk].
      * rewrite detailAt_setDetail. eauto.
      * rewrite (detailAt_setDetail_other _ _ _ _ _ _ Hk). exact Hsome.
    + intros _. rewrite detailAt_setDetail. eauto.
Qed.

Lemma imputeCell_logs tIdx time (ps ps' : PassState Rng) sb :
  timeSlots !! tIdx = Some time ->
  imputeCell Math_sqrt Math_log Math_cos Math_PI Rng Math_random fuel
             students student timeSlots subjects algorithm tIdx time ps sb
  = Some ps' ->
  exists extra,
    ps_logs ps' = ps_logs ps ++ extra /\
    length extra = absentInRow (st_data student) [sb] time.
Proof.
  intros Htime Hstep.
  destruct (imputeCell_inv Math_sqrt Math_log Math_cos Math_PI Rng
              Math_random fuel students student timeSlots subjects
              algorithm tIdx time ps ps' sb Htime Hstep)
    as [[[v Hv] ->]|(Habs & raw & m & mt' & g' & nd' & Hmt & Hset & ->)];
    unfold absentInRow; simpl.
  - exists []. rewrite Hv, app_nil_r. auto.
  - eexists. rewrite Habs. split; reflexivity.
Qed.

Lemma absentInRow_cons d sb (subs : list Subject) t :
  absentInRow d (sb :: subs) t
  = (absentInRow d [sb] t + absentInRow d subs t)%nat.
Proof.
  unfold absentInRow. simpl.
  destruct (getCell d (t_id t) (s_id sb)) as [[v|]|]; reflexivity.
Qed.

Lemma imputeSlot_logs (subs : list Subject) tIdx time :
  timeSlots !! tIdx = Some time ->
  forall ps ps' : PassState Rng,
  foldM (imputeCell Math_sqrt Math_log Math_cos Math_PI Rng Math_random fuel
                    students student timeSlots subjects algorithm tIdx time)
        subs ps
  = Some ps' ->
  exists extra,
    ps_logs ps' = ps_logs ps ++ extra /\
    length extra = absentInRow (st_data student) subs time.
Proof.
  intros Htime. induction subs as [|sb subs IH]; intros ps ps' H;
    simpl in H.
  - injection H as <-. exists []. rewrite app_nil_r. auto.
  - destruct (imputeCell _ _ _ _ _ _ _ _ _ _ _ _ _ _ ps sb) as [ps1|] eqn:E;
      simpl in H; [|discriminate].
    destruct (imputeCell_logs tIdx time ps ps1 sb Htime E) as (e1 & H1 & L1).
    destruct (IH ps1 ps' H) as (e2 & H2 & L2).
    exists (e1 ++ e2). rewrite H2, H1, <- app_assoc. split; [reflexivity|].
    rewrite length_app, L1, L2, (absentInRow_cons _ sb subs). reflexivity.
Qed.

Lemma imputeSlots_logs (its : list (nat * TimeSlot)) :
  (forall it, In it its -> timeSlots !! fst it = Some (snd it)) ->
  forall ps ps' : PassState Rng,
  foldM (imputeSlot Math_sqrt Math_log Math_cos Math_PI Rng Math_random fuel
                    students student timeSlots subjects algorithm)
        its ps
  = Some ps' ->
  exists extra,
    ps_logs ps' = ps_logs ps ++ extra /\
    length extra
    = list_sum (map (absentInRow (st_data student) subjects) (map snd its)).
Proof.
  induction its as [|it its IH]; intros Hits ps ps' H; simpl in H.
  - injection H as <-. exists []. rewrite app_nil_r. auto.
  - destruct (imputeSlot _ _ _ _ _ _ _ _ _ _ _ _ ps it) as [ps1|] eqn:E;
      simpl in H; [|discriminate].
    unfold imputeSlot in E.
    destruct (imputeSlot_logs subjects (fst it) (snd it)
                (Hits it (or_introl eq_refl)) ps ps1 E) as (e1 & H1 & L1).
    destruct (IH (fun x Hx => Hits x (or_intror Hx)) ps1 ps' H)
      as (e2 & H2 & L2).
    exists (e1 ++ e2). rewrite H2, H1, <- app_assoc. split; [reflexivity|].
    rewrite length_app, L1, L2. reflexivity.
Qed.

(** The pass over one student: its details account exactly for the cells
    that were absent, and it appends one log line per absent cell. *)
Lemma imputeStudent_accounts logs g s' logs' g' :
  imputeStudent Math_sqrt Math_log Math_cos Math_PI Rng Math_random fuel
                students timeSlots subjects algorithm student logs g
  = Some (s', logs', g') ->
  detailsExact timeSlots subjects student s' /\
  exists extra,
    logs' = logs ++ extra /\
    length extra = absentCells (st_data student) timeSlots subjects.
Proof.
  unfold imputeStudent. intros H.
  destruct (foldM _ (indexed timeSlots) _) as [ps'|] eqn:Efold;
    simpl in H; [|discriminate].
  injection H as <- <- <-.
  assert (Hidx : forall it, In it (indexed timeSlots) ->
                            timeSlots !! fst it = Some (snd it)).
  { intros [i t] Hin. now apply indexed_lookup. }
  split.
  - destruct (foldM_partial
                (imputeSlot Math_sqrt Math_log Math_cos Math_PI Rng
                            Math_random fuel students student timeSlots
                            subjects algorithm)
                (fun ps => detailsSound (st_data student) (ps_data ps)
                                        (ps_details ps))
                keepsDetails
                (fun it ps => forall sb, In sb subjects ->
                   getCell (st_data student) (t_id (snd it)) (s_id sb)
                   = Some None ->
                   is_Some (detailAt (ps_details ps) (t_id (snd it))
                                     (s_id sb)))
                (indexed timeSlots))
      with (s := mkPassState (st_data student) ∅ logs g) (s' := ps')
      as (Hsound & _ & Hdone).
    + intros s t0 s0 H. exact H.
    + intros a b c Hab Hbc t0 s0 H. apply Hbc, Hab, H.
    + intros it s s0 Hd Hk sb Hsb Hnull. apply Hk, Hd; assumption.
    + intros s it s0 Hs Hit Hstep. unfold imputeSlot in Hstep.
      apply (foldM_partial
               (imputeCell Math_sqrt Math_log Math_cos Math_PI Rng
                           Math_random fuel students student timeSlots
                           subjects algorithm (fst it) (snd it))
               (fun ps => detailsSound (st_data student) (ps_data ps)
                                       (ps_details ps))
               keepsDetails
               (fun sb ps =>
                  getCell (st_data student) (t_id (snd it)) (s_id sb)
                  = Some None ->
                  is_Some (detailAt (ps_details ps) (t_id (snd it))
                                    (s_id sb)))
               subjects); try assumption.
      * intros a t0 s1 H. exact H.
      * intros a b c Hab Hbc t0 s1 H. apply Hbc, Hab, H.
      * intros sb a b Hd Hk Hnull. apply Hk, Hd, Hnull.
      * intros a sb b Ha Hsb Hcell.
        eapply imputeCell_details; eauto.
    + intros t0 s0 det Hdet. unfold detailAt in Hdet. simpl in Hdet.
      rewrite lookup_empty in Hdet. discriminate.
    + exact Efold.
    + split; [exact Hsound|]. simpl.
      intros t sb Ht Hsb Hnull.
      destruct (indexed_covers timeSlots t Ht) as [i Hi].
      exact (Hdone (i, t) Hi sb Hsb Hnull).
  - destruct (imputeSlots_logs (indexed timeSlots) Hidx _ _ Efold)
      as (extra & Hlogs & Hlen).
    exists extra. split; [exact Hlogs|].
    rewrite Hlen. unfold indexed. rewrite snd_indexed. reflexivity.
Qed.

End PassAccounts.

(** ** The run as a whole *)

Section RunAccounts.

Variable Math_sqrt : Q -> Q.
Variable Math_log : Q -> Q.
Variable Math_cos : Q -> Q.
Variable Math_PI : Q.
Variable Rng : Type.
Variable Math_random : Rng -> Q * Rng.
Variable fuel : nat.

Variable students : list Student.
Variable timeSlots : list TimeSlot.
Variable subjects : list Subject.
Variable algorithm : AlgorithmType.

Lemma imputeAll_accounts todo : forall out logs g out' logs' g',
  foldM (fun '(out, logs, g) student =>
           '(s', logs', g') ←
             imputeStudent Math_sqrt Math_log Math_cos Math_PI Rng
                           Math_random fuel students timeSlots subjects
                           algorithm student logs g;
           Some (out ++ [s'], logs', g'))
        todo (out, logs, g)
  = Some (out', logs', g') ->
  exists new extra,
    out' = out ++ new /\
    Forall2 (detailsExact timeSlots subjects) todo new /\
    logs' = logs ++ extra /\
    length extra = absentInCohort todo timeSlots subjects.
Proof.
  induction todo as [|student todo IH]; intros out logs g out' logs' g' H;
    simpl in H.
  - injection H as <- <- <-. exists [], []. rewrite !app_nil_r.
    repeat split; constructor.
  - destruct (imputeStudent _ _ _ _ _ _ _ _ _ _ _ student logs g)
      as [[[s1 logs1] g1]|] eqn:E; simpl in H; [|discriminate].
    destruct (imputeStudent_accounts _ _ _ _ _ _ _ _ _ _ _ _ _ _ _ _ _ E)
      as (Hdet & e1 & Hl1 & Hn1).
    destruct (IH _ _ _ _ _ _ H) as (new & e2 & Hout & Hall & Hl2 & Hn2).
    exists (s1 :: new), (e1 ++ e2).
    split; [rewrite Hout, <- app_assoc; reflexivity|].
    split; [constructor; assumption|].
    split; [rewrite Hl2, Hl1, <- app_assoc; reflexivity|].
    rewrite length_app, Hn1, Hn2. reflexivity.
Qed.

(** On a cohort with no absent cell the pass changes nothing. *)
Lemma imputeStudent_complete student logs g :
  (forall t sb, In t timeSlots -> In sb subjects ->
     filled (st_data student) (t_id t) (s_id sb)) ->
  imputeStudent Math_sqrt Math_log Math_cos Math_PI Rng Math_random fuel
                students timeSlots subjects algorithm student logs g
  = Some (clearDetails student, logs, g).
Proof.
  intros Hfilled. unfold imputeStudent.
  rewrite foldM_fixed; [reflexivity|].
  intros [i t] Hit. pose proof (indexed_lookup timeSlots i t Hit) as Hlook.
  unfold imputeSlot. apply foldM_fixed. intros sb Hsb. simpl.
  assert (Ht : In t timeSlots).
  { apply list_elem_of_In. eapply list_elem_of_lookup_2. exact Hlook. }
  destruct (Hfilled t sb Ht Hsb) as [v Hv].
  unfold imputeCell.
  rewrite (analyzeMissingType_present (st_data student) timeSlots (s_id sb)
             i v); [reflexivity|].
  unfold cellAt. rewrite Hlook. exact Hv.
Qed.

Lemma insertSorted_clearDetails x l :
  insertSorted compareFn (clearDetails x) (map clearDetails l)
  = map clearDetails (insertSorted compareFn x l).
Proof.
  induction l as [|y l IH]; simpl; [reflexivity|].
  change (compareFn (clearDetails x) (clearDetails y)) with (compareFn x y).
  destruct (Qle_bool (compareFn x y) 0); simpl; [reflexivity|].
  now rewrite IH.
Qed.

Lemma recalcScores_clearDetails l :
  recalcScores (map clearDetails l) timeSlots subjects
  = map clearDetails (recalcScores l timeSlots subjects).
Proof.
  unfold recalcScores. induction l as [|x l IH]; simpl; [reflexivity|].
  rewrite IH.
  change (rescore timeSlots subjects (clearDetails x))
    with (clearDetails (rescore timeSlots subjects x)).
  apply insertSorted_clearDetails.
Qed.

Lemma recalcScores_again l :
  recalcScores (recalcScores l timeSlots subjects) timeSlots subjects
  = recalcScores l timeSlots subjects.
Proof.
  unfold recalcScores at 1. rewrite map_fixed.
  - apply stableSort_of_sorted. apply stableSort_sorted.
  - intros s Hin.
    apply (Permutation_in _ (recalcScores_perm l timeSlots subjects)) in Hin.
    apply in_map_iff in Hin as (s0 & <- & _). apply rescore_fixed.
Qed.

Lemma run_on_complete g :
  cohortComplete students timeSlots subjects ->
  handleRunAlgorithm Math_sqrt Math_log Math_cos Math_PI Rng Math_random
                     fuel students timeSlots subjects algorithm g
  = Some (recalcScores (map clearDetails students) timeSlots subjects,
          [LogStart algorithm], g).
Proof.
  intros Hc. unfold handleRunAlgorithm, imputeAll.
  assert (H : forall todo out logs,
    (forall s, In s todo -> In s students) ->
    foldM (fun '(out, logs, g) student =>
             '(s', logs', g') ←
               imputeStudent Math_sqrt Math_log Math_cos Math_PI Rng
                             Math_random fuel students timeSlots subjects
                             algorithm student logs g;
             Some (out ++ [s'], logs', g'))
          todo (out, logs, g)
    = Some (out ++ map clearDetails todo, logs, g)).
  { induction todo as [|s todo IH]; intros out logs Hin; simpl.
    - now rewrite app_nil_r.
    - rewrite imputeStudent_complete
        by (intros t sb Ht Hsb; apply Hc; auto; apply Hin; now left).
      simpl. rewrite IH by (intros s0 Hs0; apply Hin; now right).
      now rewrite <- app_assoc. }
  rewrite (H students [] [LogStart algorithm] (fun s Hs => Hs)).
  reflexivity.
Qed.

Hypothesis cohort_defined : cohortDefined students timeSlots subjects.
Hypothesis present_in_range : presentInRange students timeSlots subjects.
Hypothesis full_by_id : fullMarksById subjects.
Hypothesis full_nonneg : forall sb, In sb subjects -> 0 <= s_full sb.
Hypothesis draws_end :
  algorithm = BoxMuller ->
  forall g, is_Some (drawNonZero Rng Math_random fuel g).

(** The run returns; its result is the ranking of one imputed record per
    student, with the details and the log lines accounted for. *)
Lemma run_shape g :
  exists newStudents extra g',
    handleRunAlgorithm Math_sqrt Math_log Math_cos Math_PI Rng Math_random
                       fuel students timeSlots subjects algorithm g
    = Some (recalcScores newStudents timeSlots subjects,
            LogStart algorithm :: extra, g') /\
    Forall2 (imputedFrom timeSlots subjects) students newStudents /\
    Forall2 (detailsExact timeSlots subjects) students newStudents /\
    length extra = absentInCohort students timeSlots subjects.
Proof.
  unfold handleRunAlgorithm, imputeAll.
  destruct (imputeAll_fills Math_sqrt Math_log Math_cos Math_PI Rng
              Math_random fuel students timeSlots subjects algorithm
              cohort_defined present_in_range full_by_id full_nonneg
              draws_end students [] [] [LogStart algorithm] g)
    as (out & logs & g' & Hrun & Hall); [auto|constructor|].
  destruct (imputeAll_accounts _ _ _ _ _ _ _ Hrun)
    as (new & extra & Hout & Hdet & Hlogs & Hlen).
  simpl in Hout, Hlogs. subst out logs.
  rewrite Hrun. simpl. exists new, extra, g'. auto.
Qed.

End RunAccounts.

Lemma cellValue_after_imputation timeSlots subjects d0 d t sb :
  passInv d0 d timeSlots subjects -> In t timeSlots -> In sb subjects ->
  cellValue d0 (t_id t) (s_id sb) <= cellValue d (t_id t) (s_id sb).
Proof.
  intros Hinv Ht Hsb.
  destruct (Hinv t sb Ht Hsb) as (c0 & c & H0 & H1 & Hrel).
  unfold cellValue. rewrite H0, H1.
  destruct Hrel as [->|(-> & v & -> & Hv & _)];
    [destruct c0; apply Qle_refl|exact Hv].
Qed.

Section RunProperties.

Variable Math_sqrt : Q -> Q.
Variable Math_log : Q -> Q.
Variable Math_cos : Q -> Q.
Variable Math_PI : Q.
Variable Rng : Type.
Variable Math_random : Rng -> Q * Rng.
Variable fuel : nat.

Variable students : list Student.
Variable timeSlots : list TimeSlot.
Variable subjects : list Subject.
Variable algorithm : AlgorithmType.

(** X11. A run over a cohort with no absent cell only ranks it: no cell
    changes, the details of every student are emptied, the log holds the
    start line alone and no random number is drawn. *)
Theorem run_on_complete_cohort_only_ranks g :
  cohortComplete students timeSlots subjects ->
  handleRunAlgorithm Math_sqrt Math_log Math_cos Math_PI Rng Math_random
                     fuel students timeSlots subjects algorithm g
  = Some (recalcScores (map clearDetails students) timeSlots subjects,
          [LogStart algorithm], g).
Proof. apply run_on_complete. Qed.

Hypothesis cohort_defined : cohortDefined students timeSlots subjects.
Hypothesis present_in_range : presentInRange students timeSlots subjects.
Hypothesis full_by_id : fullMarksById subjects.
Hypothesis full_nonneg : forall sb, In sb subjects -> 0 <= s_full sb.
Hypothesis draws_end :
  algorithm = BoxMuller ->
  forall g, is_Some (drawNonZero Rng Math_random fuel g).

(** X12. After a run the imputation details are sparse and exact: a student
    has a detail for a declared cell exactly when the cell was absent before
    the run, and every detail carries the value that now stands in the
    matrix and a gap type other than [none]. *)
Theorem run_details_account_for_absent_cells g :
  exists newStudents logs g',
    handleRunAlgorithm Math_sqrt Math_log Math_cos Math_PI Rng Math_random
                       fuel students timeSlots subjects algorithm g
    = Some (recalcScores newStudents timeSlots subjects, logs, g') /\
    Forall2 (detailsExact timeSlots subjects) students newStudents.
Proof.
  destruct (run_shape Math_sqrt Math_log Math_cos Math_PI Rng Math_random
              fuel students timeSlots subjects algorithm cohort_defined
              present_in_range full_by_id full_nonneg draws_end g)
    as (new & extra & g' & Hrun & _ & Hdet & _).
  eauto.
Qed.

(** X13. The log of a run is the start line followed by one line per absent
    declared cell of the cohort. *)
Theorem run_logs_one_line_per_absent_cell g :
  exists out extra g',
    handleRunAlgorithm Math_sqrt Math_log Math_cos Math_PI Rng Math_random
                       fuel students timeSlots subjects algorithm g
    = Some (out, LogStart algorithm :: extra, g') /\
    length extra = absentInCohort students timeSlots subjects.
Proof.
  destruct (run_shape Math_sqrt Math_log Math_cos Math_PI Rng Math_random
              fuel students timeSlots subjects algorithm cohort_defined
              present_in_range full_by_id full_nonneg draws_end g)
    as (new & extra & g' & Hrun & _ & _ & Hlen).
  eauto.
Qed.

(** X14. A second run on the result of a run changes no cell and no rank:
    it returns the same list with the details emptied, logs the start line
    alone and draws no random number. *)
Theorem second_run_changes_nothing_but_details g :
  exists out logs g',
    handleRunAlgorithm Math_sqrt Math_log Math_cos Math_PI Rng Math_random
                       fuel students timeSlots subjects algorithm g
    = Some (out, logs, g') /\
    handleRunAlgorithm Math_sqrt Math_log Math_cos Math_PI Rng Math_random
                       fuel out timeSlots subjects algorithm g'
    = Some (map clearDetails out, [LogStart algorithm], g').
Proof.
  destruct (run_shape Math_sqrt Math_log Math_cos Math_PI Rng Math_random
              fuel students timeSlots subjects algorithm cohort_defined
              present_in_range full_by_id full_nonneg draws_end g)
    as (new & extra & g' & Hrun & Himp & _ & _).
  eexists _, _, _. split; [exact Hrun|].
  rewrite run_on_complete.
  - rewrite recalcScores_clearDetails, recalcScores_again. reflexivity.
  - intros s' t sb Hs' Ht Hsb.
    apply (Permutation_in _ (recalcScores_perm new timeSlots subjects))
      in Hs'.
    apply in_map_iff in Hs' as (s0 & <- & Hs0).
    destruct (Forall2_In_r _ _ _ _ Himp Hs0) as (s & _ & _ & _ & _ & Hfill).
    destruct (Hfill t sb Ht Hsb) as (v & Hv & _). exists v. exact Hv.
Qed.

(** X15. With weights that are not negative, imputation lowers nobody's
    score: the weighted sum over the matrix after the run is at least the
    one over the matrix before it (where absent cells count 0). *)
Theorem run_never_lowers_a_score g :
  (forall t, In t timeSlots -> 0 <= t_weight t) ->
  (forall sb, In sb subjects -> 0 <= s_weight sb) ->
  exists newStudents logs g',
    handleRunAlgorithm Math_sqrt Math_log Math_cos Math_PI Rng Math_random
                       fuel students timeSlots subjects algorithm g
    = Some (recalcScores newStudents timeSlots subjects, logs, g') /\
    Forall2 (fun s s' =>
               st_id s' = st_id s /\
               totalScore (st_data s) timeSlots subjects
               <= totalScore (st_data s') timeSlots subjects)
            students newStudents.
Proof.
  intros Hwt Hws.
  destruct (run_shape Math_sqrt Math_log Math_cos Math_PI Rng Math_random
              fuel students timeSlots subjects algorithm cohort_defined
              present_in_range full_by_id full_nonneg draws_end g)
    as (new & extra & g' & Hrun & Himp & _ & _).
  eexists _, _, _. split; [exact Hrun|].
  eapply Forall2_impl; [exact Himp|].
  intros s s' (Hid & _ & Hinv & _). split; [exact Hid|].
  rewrite !totalScore_weightedSum.
  apply weightedSum_monotone; [exact Hwt|exact Hws|].
  intros t sb Ht Hsb. eapply cellValue_after_imputation; eauto.
Qed.

(** X16. The list a run returns is ranked on the completed matrices: it is
    sorted non-increasing by final score, and the final score of each of its
    students is the weighted sum over a matrix in which every declared cell
    holds a number. *)
Theorem run_result_ranked_on_completed_matrix g :
  exists out logs g',
    handleRunAlgorithm Math_sqrt Math_log Math_cos Math_PI Rng Math_random
                       fuel students timeSlots subjects algorithm g
    = Some (out, logs, g') /\
    Sorted scoreGe out /\
    Forall (fun s' =>
              filledInRange (st_data s') timeSlots subjects /\
              st_finalScore s'
              == weightedSum (st_data s') timeSlots subjects) out.
Proof.
  destruct (run_shape Math_sqrt Math_log Math_cos Math_PI Rng Math_random
              fuel students timeSlots subjects algorithm cohort_defined
              present_in_range full_by_id full_nonneg draws_end g)
    as (new & extra & g' & Hrun & Himp & _ & _).
  eexists _, _, _. split; [exact Hrun|].
  split; [apply stableSort_sorted|].
  apply List.Forall_forall. intros s' Hs'.
  apply (Permutation_in _ (recalcScores_perm new timeSlots subjects)) in Hs'.
  apply in_map_iff in Hs' as (s0 & <- & Hs0).
  destruct (Forall2_In_r _ _ _ _ Himp Hs0) as (s & _ & _ & _ & _ & Hfill).
  split; [exact Hfill|]. simpl. apply totalScore_weightedSum.
Qed.

End RunProperties.

Lemma bothMissing_defined : cohortDefined bothMissingCohort [slot1] subjectsAB.
Proof.
  intros s [<-|[<-|[<-|[<-|[]]]]] t sb [<-|[]] [<-|[<-|[]]];
    vm_compute; eauto.
Defined.

Lemma bothMissing_in_range : presentInRange bothMissingCohort [slot1] subjectsAB.
Proof.
  intros s t sb v [<-|[<-|[<-|[<-|[]]]]] [<-|[]] [<-|[<-|[]]] H;
    vm_compute in H; try discriminate H;
    injection H as <-; split; discriminate.
Defined.

Lemma subjectsAB_by_id : fullMarksById subjectsAB.
Proof.
  intros sb sb' [<-|[<-|[]]] [<-|[<-|[]]] H; try reflexivity;
    vm_compute in H; discriminate H.
Defined.

Lemma subjectsAB_full_nonneg : forall sb, In sb subjectsAB -> 0 <= s_full sb.
Proof. intros sb [<-|[<-|[]]]; discriminate. Defined.

Lemma regression_needs_no_draw (Rng : Type) (Math_random : Rng -> Q * Rng)
    (fuel : nat) :
  Regression = BoxMuller ->
  forall g, is_Some (drawNonZero Rng Math_random fuel g).
Proof. intros H. discriminate H. Defined.

Lemma run_on_complete_cohort_only_ranks_witness :
  runEngine completeCohort [slot1] subjectsAB Knn
  = Some (recalcScores (map clearDetails completeCohort) [slot1] subjectsAB,
          [LogStart Knn], tt).
Proof.
  apply (run_on_complete_cohort_only_ranks sqrtQ zeroFn zeroFn 0 unit
           halfRandom 1 completeCohort [slot1] subjectsAB Knn tt).
  intros s t sb [<-|[<-|[]]] [<-|[]] [<-|[<-|[]]]; vm_compute; eauto.
Defined.

Lemma run_details_account_for_absent_cells_witness :
  exists newStudents logs g',
    runEngine bothMissingCohort [slot1] subjectsAB Regression
    = Some (recalcScores newStudents [slot1] subjectsAB, logs, g') /\
    Forall2 (detailsExact [slot1] subjectsAB) bothMissingCohort newStudents.
Proof.
  exact (run_details_account_for_absent_cells sqrtQ zeroFn zeroFn 0 unit
           halfRandom 1 bothMissingCohort [slot1] subjectsAB Regression
           bothMissing_defined bothMissing_in_range subjectsAB_by_id
           subjectsAB_full_nonneg
           (regression_needs_no_draw unit halfRandom 1) tt).
Defined.

Lemma run_logs_one_line_per_absent_cell_witness :
  exists out extra g',
    runEngine bothMissingCohort [slot1] subjectsAB Regression
    = Some (out, LogStart Regression :: extra, g') /\
    length extra = 2%nat.
Proof.
  exact (run_logs_one_line_per_absent_cell sqrtQ zeroFn zeroFn 0 unit
           halfRandom 1 bothMissingCohort [slot1] subjectsAB Regression
           bothMissing_defined bothMissing_in_range subjectsAB_by_id
           subjectsAB_full_nonneg
           (regression_needs_no_draw unit halfRandom 1) tt).
Defined.

Lemma second_run_changes_nothing_but_details_witness :
  exists out logs g',
    runEngine bothMissingCohort [slot1] subjectsAB Regression
    = Some (out, logs, g') /\
    handleRunAlgorithm sqrtQ zeroFn zeroFn 0 unit halfRandom 1 out [slot1]
                       subjectsAB Regression g'
    = Some (map clearDetails out, [LogStart Regression], g').
Proof.
  exact (second_run_changes_nothing_but_details sqrtQ zeroFn zeroFn 0 unit
           halfRandom 1 bothMissingCohort [slot1] subjectsAB Regression
           bothMissing_defined bothMissing_in_range subjectsAB_by_id
           subjectsAB_full_nonneg
           (regression_needs_no_draw unit halfRandom 1) tt).
Defined.

Lemma run_never_lowers_a_score_witness :
  exists newStudents logs g',
    runEngine bothMissingCohort [slot1] subjectsAB Regression
    = Some (recalcScores newStudents [slot1] subjectsAB, logs, g') /\
    Forall2 (fun s s' =>
               st_id s' = st_id s /\
               totalScore (st_data s) [slot1] subjectsAB
               <= totalScore (st_data s') [slot1] subjectsAB)
            bothMissingCohort newStudents.
Proof.
  apply (run_never_lowers_a_score sqrtQ zeroFn zeroFn 0 unit
           halfRandom 1 bothMissingCohort [slot1] subjectsAB Regression
           bothMissing_defined bothMissing_in_range subjectsAB_by_id
           subjectsAB_full_nonneg
           (regression_needs_no_draw unit halfRandom 1) tt).
  - intros t [<-|[]]. discriminate.
  - intros sb [<-|[<-|[]]]; discriminate.
Defined.

Lemma run_result_ranked_on_completed_matrix_witness :
  exists out logs g',
    runEngine bothMissingCohort [slot1] subjectsAB Regression
    = Some (out, logs, g') /\
    Sorted scoreGe out /\
    Forall (fun s' =>
              filledInRange (st_data s') [slot1] subjectsAB /\
              st_finalScore s'
              == weightedSum (st_data s') [slot1] subjectsAB) out.
Proof.
  exact (run_result_ranked_on_completed_matrix sqrtQ zeroFn zeroFn 0 unit
           halfRandom 1 bothMissingCohort [slot1] subjectsAB Regression
           bothMissing_defined bothMissing_in_range subjectsAB_by_id
           subjectsAB_full_nonneg
           (regression_needs_no_draw unit halfRandom 1) tt).
Defined.

(** ** The CSV template *)

Lemma fold_left_snoc {A B : Type} (f : B -> A) (l : list B) : forall acc,
  fold_left (fun h x => h ++ [f x]) l acc = acc ++ map f l.
Proof.
  induction l as [|x l IH]; intros acc; simpl; [now rewrite app_nil_r|].
  rewrite IH, <- app_assoc. reflexivity.
Qed.

Lemma templateHeaders_flat timeSlots subjects :
  templateHeaders timeSlots subjects
  = "ID" :: flat_map (fun t => map (cellHeader t) subjects) timeSlots.
Proof.
  unfold templateHeaders.
  assert (H : forall ts acc,
    fold_left (fun headers t =>
                 fold_left (fun headers s =>
                              headers ++
                              [String.append (t_id t)
                                 (String.append "_" (s_id s))])
                           subjects headers) ts acc
    = acc ++ flat_map (fun t => map (cellHeader t) subjects) ts).
  { induction ts as [|t ts IH]; intros acc; simpl; [now rewrite app_nil_r|].
    rewrite IH, (fold_left_snoc (cellHeader t)), <- app_assoc. reflexivity. }
  apply (H timeSlots ["ID"]).
Qed.

Lemma length_cell_headers (timeSlots : list TimeSlot)
    (subjects : list Subject) :
  length (flat_map (fun t => map (cellHeader t) subjects) timeSlots)
  = (length timeSlots * length subjects)%nat.
Proof.
  induction timeSlots as [|t ts IH]; simpl; [reflexivity|].
  rewrite length_app, length_map, IH. reflexivity.
Qed.

Lemma countComma_append s1 s2 :
  countComma (String.append s1 s2) = (countComma s1 + countComma s2)%nat.
Proof.
  induction s1 as [|c s1 IH]; simpl; [reflexivity|]. rewrite IH. lia.
Qed.

Lemma countComma_concat (l : list string) :
  Forall (fun s => countComma s = 0%nat) l ->
  countComma (String.concat "," l) = (length l - 1)%nat.
Proof.
  induction 1 as [|x l Hx Hl IH]; [reflexivity|].
  destruct l as [|y l]; [exact Hx|].
  change (String.concat "," (x :: y :: l))
    with (String.append x (String.append "," (String.concat "," (y :: l)))).
  rewrite !countComma_append, Hx, IH. simpl. lia.
Qed.

(** X17. The CSV template.  Its headers are ["ID"] followed by
    [<slot id>_<subject id>] for every time slot and subject, slot by slot;
    the text is the header line, a line feed and an example row.  With ids
    free of commas, the header line has [k] commas for [k] cells, and the
    example row has [k] commas too when [k >= 1] but one comma when [k = 0]:
    with no time slot or no subject the row has one field more than the
    header. *)
Theorem template_header_and_row timeSlots subjects :
  Forall (fun t => countComma (t_id t) = 0%nat) timeSlots ->
  Forall (fun s => countComma (s_id s) = 0%nat) subjects ->
  let k := (length timeSlots * length subjects)%nat in
  templateHeaders timeSlots subjects
  = "ID" :: flat_map (fun t => map (cellHeader t) subjects) timeSlots /\
  length (templateHeaders timeSlots subjects) = S k /\
  templateCsv timeSlots subjects
  = String.append (templateHeaderLine timeSlots subjects)
      (String.append newline (templateDataLine timeSlots subjects)) /\
  countComma (templateHeaderLine timeSlots subjects) = k /\
  countComma (templateDataLine timeSlots subjects) = Nat.max 1 k.
Proof.
  intros Ht Hs k.
  pose proof (templateHeaders_flat timeSlots subjects) as Hflat.
  pose proof (length_cell_headers timeSlots subjects) as Hlen.
  split; [exact Hflat|]. split; [rewrite Hflat; simpl; now rewrite Hlen|].
  split; [reflexivity|]. split.
  - unfold templateHeaderLine. rewrite countComma_concat.
    + rewrite Hflat. simpl. rewrite Hlen. lia.
    + rewrite Hflat. constructor; [reflexivity|].
      apply List.Forall_forall. intros h Hh.
      apply in_flat_map in Hh as (t & Hin & Hh).
      apply in_map_iff in Hh as (s & <- & Hs0).
      rewrite List.Forall_forall in Ht, Hs.
      unfold cellHeader. rewrite !countComma_append, (Ht t Hin), (Hs s Hs0).
      reflexivity.
  - unfold templateDataLine, templateBlanks.
    rewrite countComma_append, countComma_concat.
    + rewrite length_map, Hflat. simpl. rewrite Hlen. fold k. lia.
    + apply List.Forall_forall. intros h Hh.
      apply in_map_iff in Hh as (x & <- & _). reflexivity.
Qed.

Lemma template_header_and_row_witness :
  countComma (templateHeaderLine DEFAULT_TIME_SLOTS DEFAULT_SUBJECTS) = 54%nat
  /\ countComma (templateDataLine DEFAULT_TIME_SLOTS DEFAULT_SUBJECTS)
     = 54%nat.
Proof.
  destruct (template_header_and_row DEFAULT_TIME_SLOTS DEFAULT_SUBJECTS)
    as (_ & _ & _ & Hh & Hd).
  - repeat constructor.
  - repeat constructor.
  - split; [exact Hh|exact Hd].
Defined.

(** ** The trend chart *)

Lemma presentSubjects_elems d timeId (subjects : list Subject) :
  forall vs, presentSubjects d timeId subjects = Some vs ->
  forall p, In p vs ->
    In (fst p) subjects /\ getCell d timeId (s_id (fst p)) = Some (Some (snd p)).
Proof.
  induction subjects as [|sb subs IH]; intros vs H p Hp; simpl in H.
  - injection H as <-. destruct Hp.
  - destruct (getCell d timeId (s_id sb)) as [c|] eqn:Ec; simpl in H;
      [|discriminate].
    destruct (presentSubjects d timeId subs) as [l|]; simpl in H;
      [|discriminate].
    injection H as <-.
    destruct c as [v|].
    + destruct Hp as [<-|Hp]; [split; [now left|exact Ec]|].
      destruct (IH l eq_refl p Hp). split; [now right|assumption].
    + destruct (IH l eq_refl p Hp). split; [now right|assumption].
Qed.

Lemma presentSubjects_total d timeId (subjects : list Subject) :
  (forall sb, In sb subjects -> is_Some (getCell d timeId (s_id sb))) ->
  is_Some (presentSubjects d timeId subjects).
Proof.
  induction subjects as [|sb subs IH]; intros H; simpl; [eauto|].
  destruct (H sb (or_introl eq_refl)) as [c ->]. simpl.
  destruct IH as [l ->]; [intros; apply H; now right|]. simpl. eauto.
Qed.

Lemma presentSubjects_sums d timeId (subjects : list Subject) :
  forall vs, presentSubjects d timeId subjects = Some vs ->
  bigsum (fun p => s_weight (fst p)) vs
  == presentWeightSum d timeId subjects /\
  bigsum (fun p => snd p * s_weight (fst p)) vs
  == presentScoreSum d timeId subjects.
Proof.
  unfold presentWeightSum, presentScoreSum.
  induction subjects as [|sb subs IH]; intros vs H; simpl in H.
  - injection H as <-. split; reflexivity.
  - destruct (getCell d timeId (s_id sb)) as [c|] eqn:Ec; simpl in H;
      [|discriminate].
    destruct (presentSubjects d timeId subs) as [l|]; simpl in H;
      [|discriminate].
    injection H as <-. destruct (IH l eq_refl) as [HW HS].
    unfold bigsum in *. cbn [fold_right].
    unfold presentWeight at 1. unfold cellValue at 1. rewrite Ec.
    destruct c as [v|]; cbn [fold_right fst snd].
    + rewrite HW, HS. split; reflexivity.
    + rewrite HW, HS. split; ring.
Qed.

(** X18. A point of the trend chart is the weighted mean of the present
    scores of the selected student at the slot, times 10: the sum of
    score times weight over the subjects whose cell holds a number, divided
    by the sum of the weights of these subjects; absent cells take no part.
    With subject weights that are not negative and every present score of
    the slot within [[lo, hi]], the point is 0 when the present subjects
    carry no weight (in particular when every cell of the slot is absent)
    and lies within [[10 lo, 10 hi]] otherwise. *)
Theorem trendPoint_is_weighted_mean students selectedStudentId subjects t s
    lo hi :
  List.find (fun stu => String.eqb (st_id stu) selectedStudentId) students
  = Some s ->
  (forall sb, In sb subjects ->
     is_Some (getCell (st_data s) (t_id t) (s_id sb))) ->
  (forall sb, In sb subjects -> 0 <= s_weight sb) ->
  (forall sb v, In sb subjects ->
     getCell (st_data s) (t_id t) (s_id sb) = Some (Some v) ->
     lo <= v /\ v <= hi) ->
  exists val,
    trendPoint students selectedStudentId subjects t = Some (t_label t, val) /\
    ((presentWeightSum (st_data s) (t_id t) subjects == 0 /\ val = 0) \/
     (0 < presentWeightSum (st_data s) (t_id t) subjects /\
      val == presentScoreSum (st_data s) (t_id t) subjects
             / presentWeightSum (st_data s) (t_id t) subjects * 10 /\
      10 * lo <= val /\ val <= 10 * hi)).
Proof.
  intros Hfind Hdef Hw Hrange.
  destruct (presentSubjects_total (st_data s) (t_id t) subjects Hdef)
    as [vs Hvs].
  pose proof (presentSubjects_elems _ _ _ vs Hvs) as Helems.
  destruct (presentSubjects_sums _ _ _ vs Hvs) as [HWs HSs].
  unfold trendPoint. rewrite Hfind, Hvs. simpl.
  set (W := fold_left (fun acc p => acc + s_weight (fst p)) vs 0).
  set (S := fold_left (fun acc p => acc + snd p * s_weight (fst p)) vs 0).
  assert (HW : W == bigsum (fun p => s_weight (fst p)) vs).
  { unfold W. rewrite (fold_left_bigsum (fun p => s_weight (fst p))).
    ring. }
  assert (HS : S == bigsum (fun p => snd p * s_weight (fst p)) vs).
  { unfold S.
    rewrite (fold_left_bigsum (fun p => snd p * s_weight (fst p))). ring. }
  assert (Hnonneg : 0 <= bigsum (fun p => s_weight (fst p)) vs).
  { apply bigsum_nonneg_in. intros p Hp. apply Hw. now apply Helems. }
  eexists. split; [reflexivity|].
  destruct (Qeq_bool W 0) eqn:E.
  - left. apply Qeq_bool_eq in E.
    split; [rewrite <- HWs, <- HW; exact E|reflexivity].
  - right.
    assert (Hne : ~ W == 0).
    { intros H0. apply Qeq_bool_iff in H0. congruence. }
    assert (Hpos : 0 < W).
    { rewrite HW in *. apply Qle_lteq in Hnonneg as [Hlt|Heq];
        [exact Hlt|]. exfalso. apply Hne. symmetry. exact Heq. }
    split; [rewrite <- HWs, <- HW; exact Hpos|].
    split; [rewrite <- HWs, <- HSs, <- HW, <- HS; reflexivity|].
    assert (Hlo : lo * W <= S).
    { rewrite HW, HS.
      assert (Hm : lo * bigsum (fun p => s_weight (fst p)) vs
                   == bigsum (fun p => lo * s_weight (fst p)) vs).
      { clear. induction vs as [|p vs IH]; unfold bigsum; cbn [fold_right];
          [ring|].
        fold (bigsum (fun p => s_weight (fst p)) vs).
        fold (bigsum (fun p => lo * s_weight (fst p)) vs).
        rewrite <- IH. ring. }
      rewrite Hm. apply bigsum_le. intros p Hp.
      destruct (Helems p Hp) as [Hin Hc].
      apply Qmult_le_compat_r; [apply (Hrange _ _ Hin Hc)|now apply Hw]. }
    assert (Hhi : S <= hi * W).
    { rewrite HW, HS.
      assert (Hm : hi * bigsum (fun p => s_weight (fst p)) vs
                   == bigsum (fun p => hi * s_weight (fst p)) vs).
      { clear. induction vs as [|p vs IH]; unfold bigsum; cbn [fold_right];
          [ring|].
        fold (bigsum (fun p => s_weight (fst p)) vs).
        fold (bigsum (fun p => hi * s_weight (fst p)) vs).
        rewrite <- IH. ring. }
      rewrite Hm. apply bigsum_le. intros p Hp.
      destruct (Helems p Hp) as [Hin Hc].
      apply Qmult_le_compat_r; [apply (Hrange _ _ Hin Hc)|now apply Hw]. }
    pose proof (Qle_shift_div_l lo S W Hpos Hlo) as H1.
    pose proof (Qle_shift_div_r S W hi Hpos Hhi) as H2.
    split; lra.
Qed.

Lemma trendPoint_is_weighted_mean_witness :
  exists val,
    trendPoint refMeanCohort "p" subjectsAB slot1 = Some ("T1", val) /\
    ((presentWeightSum (st_data studentP) "t1" subjectsAB == 0 /\ val = 0) \/
     (0 < presentWeightSum (st_data studentP) "t1" subjectsAB /\
      val == presentScoreSum (st_data studentP) "t1" subjectsAB
             / presentWeightSum (st_data studentP) "t1" subjectsAB * 10 /\
      10 * 0 <= val /\ val <= 10 * 150)).
Proof.
  apply (trendPoint_is_weighted_mean refMeanCohort "p" subjectsAB slot1
           studentP 0 150).
  - reflexivity.
  - intros sb [<-|[<-|[]]]; vm_compute; eauto.
  - intros sb [<-|[<-|[]]]; discriminate.
  - intros sb v [<-|[<-|[]]] H; vm_compute in H; try discriminate H;
      injection H as <-; split; discriminate.
Defined.

(** ** Generated data and loading *)

Lemma objSet_Forall {V : Type} (P : V -> Prop) (o : list (string * V)) k v :
  Forall (fun e => P (snd e)) o -> P v ->
  Forall (fun e => P (snd e)) (objSet o k v).
Proof.
  induction 1 as [|[k' v'] o Hx Ho IH]; intros Hv; simpl.
  - repeat constructor. exact Hv.
  - destruct (String.eqb k' k); constructor; auto.
Qed.

Lemma objGet_Forall {V : Type} (P : V -> Prop) (o : list (string * V)) k v :
  Forall (fun e => P (snd e)) o -> objGet o k = Some v -> P v.
Proof.
  induction 1 as [|[k' v'] o Hx Ho IH]; simpl; [discriminate|].
  destruct (String.eqb k' k); [intros [= <-]; exact Hx|exact IH].
Qed.

Lemma objSet_fresh {V : Type} (o : list (string * V)) k v :
  ~ In k (objKeys o) -> objSet o k v = o ++ [(k, v)].
Proof.
  induction o as [|[k' v'] o IH]; intros Hk; simpl; [reflexivity|].
  destruct (String.eqb_spec k' k) as [->|Hne].
  - exfalso. apply Hk. now left.
  - rewrite IH; [reflexivity|]. intros Hin. apply Hk. now right.
Qed.

Lemma objKeys_objSet_present {V : Type} (o : list (string * V)) k v :
  In k (objKeys o) -> objKeys (objSet o k v) = objKeys o.
Proof.
  induction o as [|[k' v'] o IH]; intros Hk; simpl; [destruct Hk|].
  destruct (String.eqb_spec k' k) as [->|Hne]; [reflexivity|].
  simpl. rewrite IH; [reflexivity|].
  destruct Hk as [Hk|Hk]; [contradiction|exact Hk].
Qed.

Lemma objGet_objSet {V : Type} (o : list (string * V)) k v :
  objGet (objSet o k v) k = Some v.
Proof.
  induction o as [|[k' v'] o IH]; simpl.
  - now rewrite String.eqb_refl.
  - destruct (String.eqb k' k) eqn:E; simpl; rewrite E; [reflexivity|exact IH].
Qed.

Lemma objGet_key {V : Type} (o : list (string * V)) k :
  In k (objKeys o) -> is_Some (objGet o k).
Proof.
  induction o as [|[k' v'] o IH]; simpl; [intros []|].
  destruct (String.eqb_spec k' k) as [->|Hne]; [eauto|].
  intros [Hk|Hk]; [contradiction|now apply IH].
Qed.

Lemma objGet_not_key {V : Type} (o : list (string * V)) k :
  ~ In k (objKeys o) -> objGet o k = None.
Proof.
  induction o as [|[k' v'] o IH]; simpl; [reflexivity|].
  intros Hk. destruct (String.eqb_spec k' k) as [->|Hne].
  - exfalso. apply Hk. now left.
  - apply IH. intros Hin. apply Hk. now right.
Qed.

Lemma mockId_inj i j : mockId i = mockId j -> i = j.
Proof.
  unfold mockId. intros H.
  change (String "o" (NilEmpty.string_of_uint (Nat.to_uint i))
          = String "o" (NilEmpty.string_of_uint (Nat.to_uint j))) in H.
  injection H as H.
  apply DecimalNat.Unsigned.to_uint_inj.
  apply (f_equal NilEmpty.uint_of_string) in H.
  rewrite !NilEmpty.usu in H. now injection H.
Qed.

Lemma getCell_setNull d timeId subId d' :
  setNull d timeId subId = Some d' -> getCell d' timeId subId = Some None.
Proof.
  unfold setNull, getCell. destruct (d !! timeId) as [row|]; simpl;
    [|discriminate].
  intros [= <-]. rewrite lookup_insert_eq. simpl. apply lookup_insert_eq.
Qed.

Lemma getCell_setNull_other d timeId subId d' timeId' subId' :
  setNull d timeId subId = Some d' ->
  (timeId', subId') <> (timeId, subId) ->
  getCell d' timeId' subId' = getCell d timeId' subId'.
Proof.
  unfold setNull, getCell. destruct (d !! timeId) as [row|] eqn:E; simpl;
    [|discriminate].
  intros [= <-] Hne.
  destruct (decide (timeId = timeId')) as [<-|Ht].
  - rewrite lookup_insert_eq, E. simpl.
    rewrite lookup_insert_ne; [reflexivity|]. congruence.
  - rewrite lookup_insert_ne by exact Ht. reflexivity.
Qed.

Lemma setNull_good timeSlots subjects m timeId subId m' :
  matrixGood timeSlots subjects m -> setNull m timeId subId = Some m' ->
  matrixGood timeSlots subjects m'.
Proof.
  intros [Hdef Hrange] Hset. split.
  - intros t sb Ht Hsb.
    destruct (decide ((t_id t, s_id sb) = (timeId, subId))) as [[= <- <-]|Hk].
    + rewrite (getCell_setNull _ _ _ _ Hset). eauto.
    + rewrite (getCell_setNull_other _ _ _ _ _ _ Hset Hk). now apply Hdef.
  - intros t sb v Ht Hsb Hv.
    destruct (decide ((t_id t, s_id sb) = (timeId, subId))) as [[= <- <-]|Hk].
    + rewrite (getCell_setNull _ _ _ _ Hset) in Hv. discriminate.
    + rewrite (getCell_setNull_other _ _ _ _ _ _ Hset Hk) in Hv.
      eapply Hrange; eauto.
Qed.

Lemma setNull_total m timeId subId subId' c :
  getCell m timeId subId' = Some c -> is_Some (setNull m timeId subId).
Proof.
  unfold setNull, getCell. destruct (m !! timeId); simpl; [eauto|discriminate].
Qed.

Lemma DEFAULT_SUBJECTS_by_id : fullMarksById DEFAULT_SUBJECTS.
Proof.
  intros sb sb' Hsb Hsb' Hid.
  repeat (destruct Hsb as [<-|Hsb]; [|]); try destruct Hsb;
    repeat (destruct Hsb' as [<-|Hsb']; [|]); try destruct Hsb';
    try reflexivity; vm_compute in Hid; discriminate Hid.
Defined.

Lemma DEFAULT_SUBJECTS_full_nonneg :
  forall sb, In sb DEFAULT_SUBJECTS -> 0 <= s_full sb.
Proof.
  intros sb Hsb.
  repeat (destruct Hsb as [<-|Hsb]; [discriminate|]). destruct Hsb.
Defined.

Section MockData.

Variable Math_sqrt : Q -> Q.
Variable Math_log : Q -> Q.
Variable Math_cos : Q -> Q.
Variable Math_PI : Q.
Variable Rng : Type.
Variable Math_random : Rng -> Q * Rng.
Variable fuel : nat.
Variable toUpperCase : string -> string.

Variable timeSlots : list TimeSlot.
Variable subjects : list Subject.

Hypothesis full_by_id : fullMarksById subjects.
Hypothesis full_nonneg : forall sb, In sb subjects -> 0 <= s_full sb.
Hypothesis draws_end :
  forall g, is_Some (drawNonZero Rng Math_random fuel g).

Lemma mockScore_ok s g :
  0 <= s_full s ->
  exists c g',
    mockScore Math_sqrt Math_log Math_cos Math_PI Rng Math_random fuel s g
    = Some (c, g') /\
    forall v, c = Some v -> 0 <= v /\ v <= s_full s.
Proof.
  intros Hfull. unfold mockScore.
  destruct (generateBoxMuller_total Math_sqrt Math_log Math_cos Math_PI Rng
              Math_random fuel BoxMuller (fun _ => draws_end)
              (s_full s * (3 # 4)) 15 g eq_refl) as [[x g1] ->].
  simpl. destruct (Math_random g1) as [r g2].
  eexists _, _. split; [reflexivity|].
  intros v Hv. destruct (Qlt_bool r (1 # 5)); [discriminate|].
  injection Hv as <-. split.
  - apply Q.min_glb; [exact Hfull|apply Q.le_max_l].
  - apply Q.le_min_l.
Qed.

Lemma mockRow_ok g :
  exists row g',
    mockRow Math_sqrt Math_log Math_cos Math_PI Rng Math_random fuel
            subjects g
    = Some (row, g') /\
    rowGood subjects row.
Proof.
  unfold mockRow.
  destruct (foldM_invariant
              (fun '(row, g) s =>
                 '(c, g') ← mockScore Math_sqrt Math_log Math_cos Math_PI
                              Rng Math_random fuel s g;
                 Some (<[s_id s := c]> row, g'))
              (fun st : Row * Rng => rowInRange subjects (fst st))
              (fun st st' : Row * Rng =>
                 forall k, is_Some (fst st !! k) -> is_Some (fst st' !! k))
              (fun sb (st : Row * Rng) => is_Some (fst st !! s_id sb))
              subjects)
    with (s := (∅ : Row, g)) as ([row g'] & Hfold & Hin & _ & Hdone).
  - auto.
  - auto.
  - intros sb st st' Hd Hk. apply Hk, Hd.
  - intros [row g0] sb Hinv Hsb. simpl in Hinv.
    destruct (mockScore_ok sb g0 (full_nonneg sb Hsb))
      as (c & g1 & -> & Hc).
    simpl. eexists. split; [reflexivity|]. simpl. split; [|split].
    + intros sb' v Hsb' Hv.
      destruct (decide (s_id sb = s_id sb')) as [E|E].
      * rewrite E, lookup_insert_eq in Hv. injection Hv as ->.
        destruct (Hc v eq_refl) as [H0 H1]. split; [exact H0|].
        rewrite <- (full_by_id sb sb' Hsb Hsb' E). exact H1.
      * rewrite lookup_insert_ne in Hv by exact E. now apply Hinv.
    + intros k Hk. destruct (decide (s_id sb = k)) as [<-|E].
      * rewrite lookup_insert_eq. eauto.
      * rewrite lookup_insert_ne by exact E. exact Hk.
    + rewrite lookup_insert_eq. eauto.
  - intros sb v _ Hv. simpl in Hv. rewrite lookup_empty in Hv. discriminate.
  - exists row, g'. split; [exact Hfold|]. split; assumption.
Qed.

Lemma mockMatrix_ok g :
  exists m g',
    mockMatrix Math_sqrt Math_log Math_cos Math_PI Rng Math_random fuel
               timeSlots subjects g
    = Some (m, g') /\
    matrixGood timeSlots subjects m.
Proof.
  unfold mockMatrix.
  destruct (foldM_invariant
              (fun '(m, g) t =>
                 '(row, g') ← mockRow Math_sqrt Math_log Math_cos Math_PI
                                Rng Math_random fuel subjects g;
                 Some (<[t_id t := row]> m, g'))
              (fun st : Matrix * Rng =>
                 forall k row, fst st !! k = Some row -> rowGood subjects row)
              (fun st st' : Matrix * Rng =>
                 forall k, is_Some (fst st !! k) -> is_Some (fst st' !! k))
              (fun t (st : Matrix * Rng) => is_Some (fst st !! t_id t))
              timeSlots)
    with (s := (∅ : Matrix, g)) as ([m g'] & Hfold & Hin & _ & Hdone).
  - auto.
  - auto.
  - intros t st st' Hd Hk. apply Hk, Hd.
  - intros [m g0] t Hinv Ht. simpl in Hinv.
    destruct (mockRow_ok g0) as (row & g1 & -> & Hrow).
    simpl. eexists. split; [reflexivity|]. simpl. split; [|split].
    + intros k row' Hk. destruct (decide (t_id t = k)) as [<-|E].
      * rewrite lookup_insert_eq in Hk. injection Hk as <-. exact Hrow.
      * rewrite lookup_insert_ne in Hk by exact E. eapply Hinv; eauto.
    + intros k Hk. destruct (decide (t_id t = k)) as [<-|E].
      * rewrite lookup_insert_eq. eauto.
      * rewrite lookup_insert_ne by exact E. exact Hk.
    + rewrite lookup_insert_eq. eauto.
  - intros k row Hk. simpl in Hk. rewrite lookup_empty in Hk. discriminate.
  - exists m, g'. split; [exact Hfold|]. simpl in *. split.
    + intros t sb Ht Hsb. destruct (Hdone t Ht) as [row Hrow].
      unfold getCell. rewrite Hrow. simpl.
      now apply (Hin _ _ Hrow).
    + intros t sb v Ht Hsb Hv. unfold getCell in Hv.
      destruct (m !! t_id t) as [row|] eqn:Hrow; simpl in Hv; [|discriminate].
      now apply (Hin _ _ Hrow).
Qed.

Lemma mockStudents_ok (l : list nat) : forall base g,
  List.NoDup l ->
  (forall i, In i l -> ~ In (mockId i) (objKeys base)) ->
  Forall (fun e => matrixGood timeSlots subjects (snd e)) base ->
  exists base' g',
    foldM (fun '(baseData, g) i =>
             '(m, g') ← mockMatrix Math_sqrt Math_log Math_cos Math_PI Rng
                           Math_random fuel timeSlots subjects g;
             Some (objSet baseData (mockId i) m, g'))
          l (base, g)
    = Some (base', g') /\
    Forall (fun e => matrixGood timeSlots subjects (snd e)) base' /\
    objKeys base' = objKeys base ++ map mockId l.
Proof.
  induction l as [|i l IH]; intros base g Hnd Hfresh Hgood; simpl.
  - exists base, g. rewrite app_nil_r. auto.
  - destruct (mockMatrix_ok g) as (m & g1 & -> & Hm). simpl.
    rewrite (objSet_fresh base (mockId i) m (Hfresh i (or_introl eq_refl))).
    inversion Hnd as [|? ? Hni Hnd']; subst.
    destruct (IH (base ++ [(mockId i, m)]) g1 Hnd')
      as (base' & g' & Hfold & Hall & Hkeys).
    + intros j Hj Hin. unfold objKeys in Hin. rewrite map_app in Hin.
      apply in_app_or in Hin as [Hin|[Heq|[]]].
      * apply (Hfresh j (or_intror Hj)). exact Hin.
      * simpl in Heq. apply mockId_inj in Heq. subst j. contradiction.
    + apply Forall_app. split; [exact Hgood|].
      constructor; [exact Hm|constructor].
    + exists base', g'. split; [exact Hfold|]. split; [exact Hall|].
      rewrite Hkeys. unfold objKeys. rewrite map_app, <- app_assoc.
      reflexivity.
Qed.

Lemma loadData_ok (rawData : list (string * Matrix)) tSlots subs :
  Forall (fun e => matrixGood timeSlots subjects (snd e)) rawData ->
  exists loaded,
    loadData toUpperCase rawData tSlots subs = Some loaded /\
    map st_id loaded = objKeys rawData /\
    Forall (freshStudent timeSlots subjects) loaded.
Proof.
  intros Hgood. unfold loadData.
  assert (H : forall keys, (forall k, In k keys -> In k (objKeys rawData)) ->
    exists loaded,
      mapM (fun key =>
              d ← objGet rawData key;
              Some (mkStudent key (String.append "学生 " (toUpperCase key))
                              d 0 ∅)) keys
      = Some loaded /\
      map st_id loaded = keys /\
      Forall (freshStudent timeSlots subjects) loaded).
  { induction keys as [|k keys IH]; intros Hin.
    - exists []. repeat split; constructor.
    - destruct (objGet_key rawData k (Hin k (or_introl eq_refl))) as [d Hd].
      destruct (IH (fun x Hx => Hin x (or_intror Hx)))
        as (loaded & Hm & Hids & Hall).
      cbn [mapM]. rewrite Hd. simpl. rewrite Hm. simpl.
      eexists. split; [reflexivity|]. simpl. rewrite Hids.
      split; [reflexivity|]. constructor; [|exact Hall].
      split; [|split; reflexivity]. simpl.
      eapply (objGet_Forall (matrixGood timeSlots subjects)); eauto. }
  destruct (H (objKeys rawData) (fun k Hk => Hk))
    as (loaded & Hm & Hids & Hall).
  rewrite Hm. simpl. eauto.
Qed.

End MockData.

Lemma objGet_Some_key {V : Type} (o : list (string * V)) k v :
  objGet o k = Some v -> In k (objKeys o).
Proof.
  induction o as [|[k' v'] o IH]; simpl; [discriminate|].
  destruct (String.eqb_spec k' k) as [->|Hne]; [now left|].
  intros H. right. now apply IH.
Qed.

Lemma t3_is_default_slot : In (mkTimeSlot "t3" "期中" (2 # 10)) DEFAULT_TIME_SLOTS.
Proof. right. right. now left. Defined.

Lemma x1_is_default_subject :
  In (mkSubject "x1" "语文" (14 # 100) 150 TMain) DEFAULT_SUBJECTS.
Proof. now left. Defined.

Lemma punchO1_ok (base : list (string * Matrix)) :
  Forall (fun e => matrixGood DEFAULT_TIME_SLOTS DEFAULT_SUBJECTS (snd e))
         base ->
  exists base',
    punchO1 base = Some base' /\
    Forall (fun e => matrixGood DEFAULT_TIME_SLOTS DEFAULT_SUBJECTS (snd e))
           base' /\
    objKeys base' = objKeys base /\
    (In "o1" (objKeys base) ->
     exists m, objGet base' "o1" = Some m /\
               getCell m "t3" "x4" = Some None /\
               getCell m "t3" "x5" = Some None).
Proof.
  intros Hgood. unfold punchO1.
  destruct (objGet base "o1") as [m|] eqn:Eget.
  - pose proof (objGet_Forall _ _ _ _ Hgood Eget) as Hm.
    destruct (proj1 Hm _ _ t3_is_default_slot x1_is_default_subject)
      as [c Hc]. simpl in Hc.
    destruct (setNull_total m "t3" "x4" "x1" c Hc) as [m1 E1].
    pose proof (setNull_good _ _ _ _ _ _ Hm E1) as Hm1.
    destruct (proj1 Hm1 _ _ t3_is_default_slot x1_is_default_subject)
      as [c1 Hc1]. simpl in Hc1.
    destruct (setNull_total m1 "t3" "x5" "x1" c1 Hc1) as [m2 E2].
    pose proof (setNull_good _ _ _ _ _ _ Hm1 E2) as Hm2.
    rewrite E1. simpl. rewrite E2. simpl.
    eexists. split; [reflexivity|].
    split; [now apply objSet_Forall|].
    split; [apply objKeys_objSet_present; eapply objGet_Some_key; eauto|].
    intros _. exists m2. split; [apply objGet_objSet|].
    split; [|eapply getCell_setNull; eauto].
    rewrite (getCell_setNull_other _ _ _ _ "t3" "x4" E2) by discriminate.
    eapply getCell_setNull; eauto.
  - exists base. split; [reflexivity|]. split; [exact Hgood|].
    split; [reflexivity|].
    intros Hin. destruct (objGet_key base "o1" Hin) as [m Hm]. congruence.
Qed.

Lemma freshStudents_well_formed timeSlots subjects loaded :
  Forall (freshStudent timeSlots subjects) loaded ->
  cohortDefined loaded timeSlots subjects /\
  presentInRange loaded timeSlots subjects.
Proof.
  intros H. rewrite List.Forall_forall in H. split.
  - intros s Hs. apply (H s Hs).
  - intros s t sb v Hs Ht Hsb Hv.
    destruct (H s Hs) as [[_ Hr] _]. eapply Hr; eauto.
Qed.

Section GeneratedData.

Variable Math_sqrt : Q -> Q.
Variable Math_log : Q -> Q.
Variable Math_cos : Q -> Q.
Variable Math_PI : Q.
Variable Rng : Type.
Variable Math_random : Rng -> Q * Rng.
Variable fuel : nat.
Variable toUpperCase : string -> string.

Hypothesis draws_end :
  forall g, is_Some (drawNonZero Rng Math_random fuel g).

Lemma generateMockData_ok count g :
  exists raw g',
    generateMockData Math_sqrt Math_log Math_cos Math_PI Rng Math_random
                     fuel count g
    = Some (raw, g') /\
    Forall (fun e => matrixGood DEFAULT_TIME_SLOTS DEFAULT_SUBJECTS (snd e))
           raw /\
    objKeys raw = map mockId (seq 1 count) /\
    ((1 <= count)%nat ->
     exists m, objGet raw "o1" = Some m /\
               getCell m "t3" "x4" = Some None /\
               getCell m "t3" "x5" = Some None).
Proof.
  unfold generateMockData, mockStudents.
  destruct (mockStudents_ok Math_sqrt Math_log Math_cos Math_PI Rng
              Math_random fuel DEFAULT_TIME_SLOTS DEFAULT_SUBJECTS
              DEFAULT_SUBJECTS_by_id DEFAULT_SUBJECTS_full_nonneg draws_end
              (seq 1 count) [] g)
    as (base & g' & Hfold & Hgood & Hkeys).
  - apply List.seq_NoDup.
  - intros i _ [].
  - constructor.
  - rewrite Hfold. simpl.
    destruct (punchO1_ok base Hgood) as (raw & Hp & Hgood' & Hkeys' & Ho1).
    rewrite Hp. simpl. exists raw, g'. split; [reflexivity|].
    split; [exact Hgood'|]. split; [now rewrite Hkeys', Hkeys|].
    intros Hcount. apply Ho1. rewrite Hkeys. simpl.
    destruct count as [|n]; [lia|]. now left.
Qed.

(** X19. The generated data, once loaded, are a well-formed cohort for the
    default configuration: [count] students with the ids o1, o2, ... in this
    order, every student with a cell for each default slot and subject, every
    present score within [[0, full]], every final score 0 and no details
    (the ranking that [loadData] computes is dropped). *)
Theorem generated_data_load_well_formed count g :
  exists raw g' loaded,
    generateMockData Math_sqrt Math_log Math_cos Math_PI Rng Math_random
                     fuel count g
    = Some (raw, g') /\
    loadData toUpperCase raw DEFAULT_TIME_SLOTS DEFAULT_SUBJECTS
    = Some loaded /\
    map st_id loaded = map mockId (seq 1 count) /\
    Forall (freshStudent DEFAULT_TIME_SLOTS DEFAULT_SUBJECTS) loaded /\
    cohortDefined loaded DEFAULT_TIME_SLOTS DEFAULT_SUBJECTS /\
    presentInRange loaded DEFAULT_TIME_SLOTS DEFAULT_SUBJECTS.
Proof.
  destruct (generateMockData_ok count g)
    as (raw & g' & Hgen & Hgood & Hkeys & _).
  destruct (loadData_ok toUpperCase DEFAULT_TIME_SLOTS DEFAULT_SUBJECTS raw
              DEFAULT_TIME_SLOTS DEFAULT_SUBJECTS Hgood)
    as (loaded & Hload & Hids & Hfresh).
  exists raw, g', loaded. split; [exact Hgen|]. split; [exact Hload|].
  split; [now rewrite Hids, Hkeys|]. split; [exact Hfresh|].
  now apply freshStudents_well_formed.
Qed.

(** X20. Whenever at least one student is generated, student o1 comes out
    with physics (x4) and chemistry (x5) absent at the mid-term slot (t3):
    every generated cohort has something to impute. *)
Theorem generated_o1_misses_t3_x4_x5 count g :
  (1 <= count)%nat ->
  exists raw g' m,
    generateMockData Math_sqrt Math_log Math_cos Math_PI Rng Math_random
                     fuel count g
    = Some (raw, g') /\
    objGet raw "o1" = Some m /\
    getCell m "t3" "x4" = Some None /\
    getCell m "t3" "x5" = Some None.
Proof.
  intros Hcount.
  destruct (generateMockData_ok count g)
    as (raw & g' & Hgen & _ & _ & Ho1).
  destruct (Ho1 Hcount) as (m & Hm & H4 & H5).
  exists raw, g', m. auto.
Qed.

(** X21. A run on generated and loaded data returns, whatever the
    estimator: its result is the ranking of one imputed record per
    generated student, every default cell filled within range. *)
Theorem run_on_generated_data_fills count algorithm g :
  exists raw g1 loaded newStudents logs g2,
    generateMockData Math_sqrt Math_log Math_cos Math_PI Rng Math_random
                     fuel count g
    = Some (raw, g1) /\
    loadData toUpperCase raw DEFAULT_TIME_SLOTS DEFAULT_SUBJECTS
    = Some loaded /\
    handleRunAlgorithm Math_sqrt Math_log Math_cos Math_PI Rng Math_random
                       fuel loaded DEFAULT_TIME_SLOTS DEFAULT_SUBJECTS
                       algorithm g1
    = Some (recalcScores newStudents DEFAULT_TIME_SLOTS DEFAULT_SUBJECTS,
            logs, g2) /\
    Forall2 (imputedFrom DEFAULT_TIME_SLOTS DEFAULT_SUBJECTS)
            loaded newStudents.
Proof.
  destruct (generateMockData_ok count g)
    as (raw & g1 & Hgen & Hgood & _ & _).
  destruct (loadData_ok toUpperCase DEFAULT_TIME_SLOTS DEFAULT_SUBJECTS raw
              DEFAULT_TIME_SLOTS DEFAULT_SUBJECTS Hgood)
    as (loaded & Hload & _ & Hfresh).
  destruct (freshStudents_well_formed _ _ _ Hfresh) as [Hdef Hrange].
  destruct (run_shape Math_sqrt Math_log Math_cos Math_PI Rng Math_random
              fuel loaded DEFAULT_TIME_SLOTS DEFAULT_SUBJECTS algorithm
              Hdef Hrange DEFAULT_SUBJECTS_by_id
              DEFAULT_SUBJECTS_full_nonneg (fun _ => draws_end) g1)
    as (new & extra & g2 & Hrun & Himp & _ & _).
  exists raw, g1, loaded, new, (LogStart algorithm :: extra), g2. auto.
Qed.

End GeneratedData.

Lemma halfRandom_draws : forall g, is_Some (drawNonZero unit halfRandom 1 g).
Proof. intros []. vm_compute. eauto. Defined.

Lemma generated_data_load_well_formed_witness :
  exists raw g' loaded,
    generateMockData sqrtQ zeroFn zeroFn 0 unit halfRandom 1 2 tt
    = Some (raw, g') /\
    loadData (fun s => s) raw DEFAULT_TIME_SLOTS DEFAULT_SUBJECTS
    = Some loaded /\
    map st_id loaded = ["o1"; "o2"] /\
    Forall (freshStudent DEFAULT_TIME_SLOTS DEFAULT_SUBJECTS) loaded /\
    cohortDefined loaded DEFAULT_TIME_SLOTS DEFAULT_SUBJECTS /\
    presentInRange loaded DEFAULT_TIME_SLOTS DEFAULT_SUBJECTS.
Proof.
  exact (generated_data_load_well_formed sqrtQ zeroFn zeroFn 0 unit
           halfRandom 1 (fun s => s) halfRandom_draws 2 tt).
Defined.

Lemma generated_o1_misses_t3_x4_x5_witness :
  exists raw g' m,
    generateMockData sqrtQ zeroFn zeroFn 0 unit halfRandom 1 2 tt
    = Some (raw, g') /\
    objGet raw "o1" = Some m /\
    getCell m "t3" "x4" = Some None /\
    getCell m "t3" "x5" = Some None.
Proof.
  apply (generated_o1_misses_t3_x4_x5 sqrtQ zeroFn zeroFn 0 unit
           halfRandom 1 halfRandom_draws 2 tt).
  lia.
Defined.

Lemma run_on_generated_data_fills_witness :
  exists raw g1 loaded newStudents logs g2,
    generateMockData sqrtQ zeroFn zeroFn 0 unit halfRandom 1 2 tt
    = Some (raw, g1) /\
    loadData (fun s => s) raw DEFAULT_TIME_SLOTS DEFAULT_SUBJECTS
    = Some loaded /\
    handleRunAlgorithm sqrtQ zeroFn zeroFn 0 unit halfRandom 1 loaded
                       DEFAULT_TIME_SLOTS DEFAULT_SUBJECTS Knn g1
    = Some (recalcScores newStudents DEFAULT_TIME_SLOTS DEFAULT_SUBJECTS,
            logs, g2) /\
    Forall2 (imputedFrom DEFAULT_TIME_SLOTS DEFAULT_SUBJECTS)
            loaded newStudents.
Proof.
  exact (run_on_generated_data_fills sqrtQ zeroFn zeroFn 0 unit
           halfRandom 1 (fun s => s) halfRandom_draws 2 Knn tt).
Defined.

Lemma sum_of_equal_scores c l : Forall (fun v => v == c) l -> forall a,
  fold_left Qplus l a == a + inject_Z (Z.of_nat (length l)) * c.
Proof.
  induction 1 as [|x l Hx _ IH]; intros a.
  - simpl. ring.
  - cbn [fold_left length]. rewrite IH, Nat2Z.inj_succ. unfold Z.succ.
    rewrite inject_Z_plus, Hx. ring.
Qed.

Lemma deviations_of_equal_scores c mean l :
  mean == c -> Forall (fun v => v == c) l -> forall a,
  fold_left (fun a b => a + pow2 (b - mean)) l a == a.
Proof.
  intros Hm. induction 1 as [|x l Hx _ IH]; intros a; [reflexivity|].
  cbn [fold_left]. rewrite IH. unfold pow2.
  assert (E : x - mean == 0) by (rewrite Hx, Hm; ring).
  rewrite E. change (0 ^ 2) with (0 * 0). ring.
Qed.

Lemma lenOrOne_nonzero n : ~ lenOrOne n == 0.
Proof.
  unfold lenOrOne. destruct n as [|n]; cbn [Nat.eqb]; [discriminate|].
  unfold Qeq. cbn [Qnum Qden inject_Z]. lia.
Qed.

Lemma cohortMean_of_equal_scores c l :
  l <> [] -> Forall (fun v => v == c) l -> cohortMean l == c.
Proof.
  intros Hne Hall. unfold cohortMean, sumQ.
  rewrite (sum_of_equal_scores c l Hall).
  pose proof (lenOrOne_nonzero (length l)) as Hnz.
  assert (E : lenOrOne (length l) == inject_Z (Z.of_nat (length l))).
  { unfold lenOrOne. destruct l; [contradiction|reflexivity]. }
  rewrite <- E. field. exact Hnz.
Qed.

(** X22. A cross-section with a single value: when the present scores of the
    cohort for the subject at the slot are all equal to [c] (and there is
    one), the Box-Muller estimate is [c] whatever the source draws, for a
    square root that is zero at zero: the spread is 0 and the noise
    vanishes. *)
Theorem boxMuller_on_equal_scores_is_that_score
    Math_sqrt Math_log Math_cos Math_PI Rng Math_random fuel
    students student subjects newData time sb g vals c :
  (forall x y, x == y -> Math_sqrt x == Math_sqrt y) ->
  Math_sqrt 0 == 0 ->
  (forall g0, is_Some (drawNonZero Rng Math_random fuel g0)) ->
  validValues students (t_id time) (s_id sb) = Some vals ->
  vals <> [] ->
  Forall (fun v => v == c) vals ->
  exists v g',
    fallbackEstimate Math_sqrt Math_log Math_cos Math_PI Rng Math_random
                     fuel students student subjects BoxMuller newData time
                     sb g
    = Some (v, "Box-Muller", g') /\ v == c.
Proof.
  intros Hproper Hzero Hdraws Hvals Hne Hall.
  unfold fallbackEstimate. rewrite Hvals. cbn [mbind option_bind].
  unfold generateBoxMuller.
  destruct (Hdraws g) as [[u g1] E1]. rewrite E1. cbn [mbind option_bind].
  destruct (Hdraws g1) as [[v g2] E2]. rewrite E2. cbn [mbind option_bind].
  eexists _, g2. split; [reflexivity|].
  pose proof (cohortMean_of_equal_scores c vals Hne Hall) as Hmean.
  assert (Hstd : cohortStd Math_sqrt vals (cohortMean vals) == 0).
  { unfold cohortStd. transitivity (Math_sqrt 0); [|exact Hzero].
    apply Hproper.
    rewrite (deviations_of_equal_scores c _ vals Hmean Hall).
    unfold Qdiv. ring. }
  rewrite Hstd, Hmean. ring.
Qed.

Lemma sqrtRed_zero : sqrtRed 0 == 0.
Proof. reflexivity. Defined.

Lemma constantCohort_A_values :
  validValues constantCohort (t_id slot1) (s_id subjectA) = Some [50; 50; 50].
Proof. reflexivity. Defined.

Lemma boxMuller_on_equal_scores_is_that_score_witness :
  exists v g',
    fallbackEstimate sqrtRed zeroFn zeroFn 0 unit halfRandom 1 constantCohort
                     studentP subjectsAB BoxMuller (st_data studentP) slot1
                     subjectA tt
    = Some (v, "Box-Muller", g') /\ v == 50.
Proof.
  apply (boxMuller_on_equal_scores_is_that_score sqrtRed zeroFn zeroFn 0 unit
           halfRandom 1 constantCohort studentP subjectsAB
           (st_data studentP) slot1 subjectA tt [50; 50; 50] 50).
  - exact sqrtRed_proper.
  - exact sqrtRed_zero.
  - exact halfRandom_draws.
  - exact constantCohort_A_values.
  - discriminate.
  - repeat constructor.
Defined.

(** * Every absent cell is written by a defined path *)

Lemma clampRound_rounded full raw :
  0 <= full -> roundedThenClamped full raw (clampRound full raw).
Proof.
  intros Hfull. exists (Qfloor (raw + (1 # 2))).
  destruct (mathRound_bounds raw) as [Hlo Hhi].
  unfold clampRound. unfold mathRound in *.
  unfold nearestInteger, clampedTo.
  set (r := inject_Z (Qfloor (raw + (1 # 2)))) in *. clearbody r.
  split; [split; lra|].
  destruct (Q.min_spec full r) as [[H1 Hm]|[H1 Hm]];
    destruct (Q.max_spec 0 (Qmin full r)) as [[H2 Hv]|[H2 Hv]];
    rewrite Hv; rewrite ?Hm in *.
  - right. right. split; [exact H1|reflexivity].
  - right. right. split; [exact H1|lra].
  - right. left. split; [lra|]. split; [exact H1|reflexivity].
  - destruct (Qlt_le_dec r 0) as [Hr|Hr].
    + left. split; [exact Hr|reflexivity].
    + right. left. split; [exact Hr|]. split; [exact H1|lra].
Qed.

Lemma roundedThenClamped_full full full' raw v :
  full == full' ->
  roundedThenClamped full raw v -> roundedThenClamped full' raw v.
Proof.
  intros E (z & Hz & [[H1 H2]|[(H1 & H2 & H3)|[H1 H2]]]); exists z;
    (split; [exact Hz|]); unfold clampedTo.
  - left. auto.
  - right. left. split; [exact H1|]. split; [lra|exact H3].
  - right. right. split; lra.
Qed.

Lemma findRefSub_In nd timeId subId (subjects : list Subject) r :
  findRefSub nd timeId subId subjects = Some (Some r) -> In r subjects.
Proof.
  induction subjects as [|s rest IH]; simpl; [discriminate|].
  destruct (String.eqb (s_id s) subId); [intros H; right; auto|].
  destruct (getCell nd timeId (s_id s)) as [[v|]|]; simpl;
    [|intros H; right; auto|discriminate].
  intros [= ->]. now left.
Qed.

Section Paths.

Variable Math_sqrt : Q -> Q.
Variable Math_log : Q -> Q.
Variable Math_cos : Q -> Q.
Variable Math_PI : Q.
Variable Rng : Type.
Variable Math_random : Rng -> Q * Rng.
Variable fuel : nat.

Variable students : list Student.
Variable timeSlots : list TimeSlot.
Variable subjects : list Subject.
Variable algorithm : AlgorithmType.

(** The fallback tags its estimate with the name of the chosen estimator. *)
Lemma fallbackEstimate_tag student nd time sb g v m g' :
  fallbackEstimate Math_sqrt Math_log Math_cos Math_PI Rng Math_random fuel
                   students student subjects algorithm nd time sb g
  = Some (v, m, g') ->
  definedPath subjects algorithm Continuous m.
Proof.
  unfold fallbackEstimate. intros H. right. split; [reflexivity|].
  destruct (validValues students (t_id time) (s_id sb)) as [vals|];
    simpl in H; [|discriminate].
  destruct algorithm.
  - destruct (generateBoxMuller _ _ _ _ _ _ _ _ _ _) as [[x g1]|];
      simpl in H; [|discriminate].
    now injection H as _ <- _.
  - unfold regressionEstimate in H.
    destruct (findRefSub nd (t_id time) (s_id sb) subjects) as [[r|]|] eqn:Er;
      simpl in H; [| |discriminate].
    + destruct (getCell nd (t_id time) (s_id r)) as [c|]; simpl in H;
        [|discriminate].
      destruct (refMeanOf students (t_id time) (s_id r)) as [rm|];
        simpl in H; [|discriminate].
      injection H as _ <- _. right. exists r.
      split; [eapply findRefSub_In; eauto|reflexivity].
    + injection H as _ <- _. now left.
  - destruct (foldM _ students _) as [[md nv]|]; simpl in H; [|discriminate].
    now injection H as _ <- _.
Qed.

(** The estimate of a gap cell carries the gap type and the tag of a defined
    path. *)
Lemma imputeRaw_path student nd tIdx time sb mt g raw m ty g' :
  imputeRaw Math_sqrt Math_log Math_cos Math_PI Rng Math_random fuel
            students student timeSlots subjects algorithm nd tIdx time sb
            mt g
  = Some (raw, m, ty, g') ->
  mt <> MNone ->
  definedPath subjects algorithm ty m.
Proof.
  unfold imputeRaw, tryInterpolate. intros H Hne.
  assert (Hfall : forall g0,
    ('(v, m0, g2) ← fallbackEstimate Math_sqrt Math_log Math_cos Math_PI Rng
                      Math_random fuel students student subjects algorithm
                      nd time sb g0;
     Some (v, m0, Continuous, g2)) = Some (raw, m, ty, g') ->
    definedPath subjects algorithm ty m).
  { intros g0 H0.
    destruct (fallbackEstimate _ _ _ _ _ _ _ _ _ _ _ _ _ _ g0)
      as [[[v m0] g2]|] eqn:Ef; simpl in H0; [|discriminate].
    injection H0 as _ <- <- _. eapply fallbackEstimate_tag; eauto. }
  destruct mt; [contradiction| |].
  - destruct (if (0 <? tIdx)%nat then _ else _) as [prev|]; simpl in H;
      [|discriminate].
    destruct (if (tIdx <? length timeSlots - 1)%nat then _ else _)
      as [next|]; simpl in H; [|discriminate].
    destruct prev as [p|], next as [n|]; simpl in H;
      try (apply (Hfall g); exact H).
    destruct (Math_random g). simpl in H. injection H as _ <- <- _.
    left. split; reflexivity.
  - simpl in H. apply (Hfall g). exact H.
Qed.

(** What one step of the pass records: nothing for a present cell; for an
    absent one the detail of the estimate that [imputeRaw] gives on the
    working copy. *)
Lemma imputeCell_written student tIdx time (ps ps' : PassState Rng) sb :
  imputeCell Math_sqrt Math_log Math_cos Math_PI Rng Math_random fuel
             students student timeSlots subjects algorithm tIdx time ps sb
  = Some ps' ->
  ps_details ps' = ps_details ps \/
  exists mt raw m ty g',
    analyzeMissingType (st_data student) tIdx (s_id sb) timeSlots = Some mt /\
    mt <> MNone /\
    imputeRaw Math_sqrt Math_log Math_cos Math_PI Rng Math_random fuel
              students student timeSlots subjects algorithm (ps_data ps)
              tIdx time sb mt (ps_rng ps)
    = Some (raw, m, ty, g') /\
    ps_details ps'
    = setDetail (ps_details ps) (t_id time) (s_id sb)
                (mkDetail (clampRound (s_full sb) raw) ty m).
Proof.
  intros H. unfold imputeCell in H.
  destruct (analyzeMissingType (st_data student) tIdx (s_id sb) timeSlots)
    as [mt|] eqn:Emt; simpl in H; [|discriminate].
  assert (Hbody : mt <> MNone ->
    ('(raw, method, missingType', g') ←
       imputeRaw Math_sqrt Math_log Math_cos Math_PI Rng Math_random fuel
                 students student timeSlots subjects algorithm
                 (ps_data ps) tIdx time sb mt (ps_rng ps);
     newData ← setCell (ps_data ps) (t_id time) (s_id sb)
                 (clampRound (s_full sb) raw);
     Some (mkPassState newData
             (setDetail (ps_details ps) (t_id time) (s_id sb)
                (mkDetail (clampRound (s_full sb) raw) missingType'
                          method))
             (ps_logs ps ++
                [LogImputed (st_name student) (s_name sb) method
                            (clampRound (s_full sb) raw)])
             g')) = Some ps').
  { intros Hne. destruct mt; [contradiction|exact H|exact H]. }
  assert (Hcase : mt = MNone \/ mt <> MNone)
    by (destruct mt; [now left|right; discriminate|right; discriminate]).
  destruct Hcase as [->|Hne].
  - injection H as <-. now left.
  - right. specialize (Hbody Hne).
    destruct (imputeRaw _ _ _ _ _ _ _ _ _ _ _ _ _ _ _ _ _ _)
      as [[[[raw m] ty] g']|] eqn:Eraw; simpl in Hbody; [|discriminate].
    destruct (setCell _ _ _ _) as [nd'|]; simpl in Hbody; [|discriminate].
    injection Hbody as <-.
    exists mt, raw, m, ty, g'. auto.
Qed.

Hypothesis cohort_defined : cohortDefined students timeSlots subjects.
Hypothesis full_by_id : fullMarksById subjects.
Hypothesis full_nonneg : forall sb, In sb subjects -> 0 <= s_full sb.
Hypothesis draws_end :
  algorithm = BoxMuller ->
  forall g, is_Some (drawNonZero Rng Math_random fuel g).

Lemma imputeCell_traced student tIdx time (ps ps' : PassState Rng) sb :
  In student students -> timeSlots !! tIdx = Some time -> In sb subjects ->
  passInv (st_data student) (ps_data ps) timeSlots subjects /\
  detailsTraced Math_sqrt Math_log Math_cos Math_PI Rng Math_random fuel
                students student timeSlots subjects algorithm
                (ps_details ps) ->
  imputeCell Math_sqrt Math_log Math_cos Math_PI Rng Math_random fuel
             students student timeSlots subjects algorithm tIdx time ps sb
  = Some ps' ->
  passInv (st_data student) (ps_data ps') timeSlots subjects /\
  detailsTraced Math_sqrt Math_log Math_cos Math_PI Rng Math_random fuel
                students student timeSlots subjects algorithm
                (ps_details ps').
Proof.
  intros Hst Htime Hsb [Hinv Htr] Hstep. split.
  - destruct (imputeCell_step Math_sqrt Math_log Math_cos Math_PI Rng
                Math_random fuel students timeSlots subjects algorithm
                cohort_defined full_by_id full_nonneg draws_end
                student tIdx time ps sb Hst Hinv Htime Hsb)
      as (ps1 & E1 & Hinv1 & _).
    rewrite Hstep in E1. injection E1 as <-. exact Hinv1.
  - destruct (imputeCell_written student tIdx time ps ps' sb Hstep)
      as [->|(mt & raw & m & ty & g' & Hmt & Hne & Hraw & ->)];
      [exact Htr|].
    intros tid sid det Hdet.
    destruct (decide ((tid, sid) = (t_id time, s_id sb)))
      as [[= -> ->]|Hk].
    + rewrite detailAt_setDetail in Hdet. injection Hdet as <-. simpl.
      split; [eapply imputeRaw_path; eauto|].
      exists raw, tIdx, time, sb, mt, (ps_data ps), (ps_rng ps), g'.
      simpl. repeat split; auto.
    + rewrite (detailAt_setDetail_other _ _ _ _ _ _ Hk) in Hdet.
      exact (Htr tid sid det Hdet).
Qed.

(** The pass over one student: every detail it leaves comes from an
    estimate of a defined path. *)
Lemma imputeStudent_traced student logs g s' logs' g' :
  In student students ->
  imputeStudent Math_sqrt Math_log Math_cos Math_PI Rng Math_random fuel
                students timeSlots subjects algorithm student logs g
  = Some (s', logs', g') ->
  detailsTraced Math_sqrt Math_log Math_cos Math_PI Rng Math_random fuel
                students student timeSlots subjects algorithm
                (st_imputedDetails s').
Proof.
  intros Hst H. unfold imputeStudent in H.
  destruct (foldM _ (indexed timeSlots) _) as [ps'|] eqn:Efold;
    simpl in H; [|discriminate].
  injection H as <- <- <-. simpl.
  set (I := fun ps : PassState Rng =>
    passInv (st_data student) (ps_data ps) timeSlots subjects /\
    detailsTraced Math_sqrt Math_log Math_cos Math_PI Rng Math_random fuel
                  students student timeSlots subjects algorithm
                  (ps_details ps)).
  destruct (foldM_partial
              (imputeSlot Math_sqrt Math_log Math_cos Math_PI Rng
                          Math_random fuel students student timeSlots
                          subjects algorithm)
              I (fun _ _ => True) (fun _ _ => True) (indexed timeSlots))
    with (s := mkPassState (st_data student) ∅ logs g) (s' := ps')
    as ([_ Htr] & _); auto.
  - intros ps [i t] ps1 Hps Hit Hstep. split; [|auto].
    pose proof (indexed_lookup timeSlots i t Hit) as Hlook.
    unfold imputeSlot in Hstep. simpl in Hstep.
    destruct (foldM_partial
                (imputeCell Math_sqrt Math_log Math_cos Math_PI Rng
                            Math_random fuel students student timeSlots
                            subjects algorithm i t)
                I (fun _ _ => True) (fun _ _ => True) subjects)
      with (s := ps) (s' := ps1) as (H1 & _); auto.
    intros a sb b Ha Hsb Hcell. split; [|auto].
    eapply imputeCell_traced; eauto.
  - split; simpl.
    + apply passInv_start. now apply cohort_defined.
    + intros tid sid det Hdet. unfold detailAt in Hdet.
      rewrite lookup_empty in Hdet. discriminate.
Qed.

Lemma imputeStudent_paths student logs g s' logs' g' :
  In student students ->
  imputeStudent Math_sqrt Math_log Math_cos Math_PI Rng Math_random fuel
                students timeSlots subjects algorithm student logs g
  = Some (s', logs', g') ->
  writtenByPaths Math_sqrt Math_log Math_cos Math_PI Rng Math_random fuel
                 students timeSlots subjects algorithm student s'.
Proof.
  intros Hst H.
  pose proof (imputeStudent_traced student logs g s' logs' g' Hst H) as Htr.
  destruct (imputeStudent_accounts _ _ _ _ _ _ _ _ _ _ _ _ _ _ _ _ _ H)
    as [[Hsound Hall] _].
  intros t sb Ht Hsb Hnull.
  destruct (Hall t sb Ht Hsb Hnull) as [det Hdet].
  destruct (Hsound _ _ _ Hdet) as (_ & Hcell & _).
  destruct (Htr _ _ _ Hdet) as (Hpath & raw & Hest).
  exists det, raw. split; [exact Hdet|]. split; [exact Hcell|].
  split; [exact Hpath|]. split; [exact Hest|].
  destruct Hest as (idx & t0 & sb0 & mt & nd & g0 & g1 & _ & Hsb0 & _ & Hid
                    & _ & _ & _ & _ & Hval).
  rewrite Hval.
  apply (roundedThenClamped_full (s_full sb0));
    [now apply full_by_id|apply clampRound_rounded; now apply full_nonneg].
Qed.

Lemma imputeAll_paths todo : forall out logs g out' logs' g',
  (forall s, In s todo -> In s students) ->
  foldM (fun '(out, logs, g) student =>
           '(s', logs', g') ←
             imputeStudent Math_sqrt Math_log Math_cos Math_PI Rng
                           Math_random fuel students timeSlots subjects
                           algorithm student logs g;
           Some (out ++ [s'], logs', g'))
        todo (out, logs, g)
  = Some (out', logs', g') ->
  exists new,
    out' = out ++ new /\
    Forall2 (writtenByPaths Math_sqrt Math_log Math_cos Math_PI Rng
                            Math_random fuel students timeSlots subjects
                            algorithm) todo new.
Proof.
  induction todo as [|student todo IH];
    intros out logs g out' logs' g' Hin H; simpl in H.
  - injection H as <- <- <-. exists []. rewrite app_nil_r.
    split; [reflexivity|constructor].
  - destruct (imputeStudent _ _ _ _ _ _ _ _ _ _ _ student logs g)
      as [[[s1 logs1] g1]|] eqn:E; simpl in H; [|discriminate].
    pose proof (imputeStudent_paths _ _ _ _ _ _ (Hin _ (or_introl eq_refl)) E)
      as Hp.
    destruct (IH _ _ _ _ _ _ (fun s Hs => Hin s (or_intror Hs)) H)
      as (new & Hout & Hall).
    exists (s1 :: new).
    split; [rewrite Hout, <- app_assoc; reflexivity|].
    constructor; assumption.
Qed.

End Paths.

(** C3. For a cohort whose present cells all lie in [[0, full]] of their
    subject, [handleRunAlgorithm] returns; its result is the ranking of one
    imputed record per student, and in every record every declared cell
    holds a number within [[0, full]].  The cells that were present are
    untouched.  Every cell that was absent has been written by one of the
    defined paths: the record holds a detail for it whose value is the one
    in the matrix, whose gap type and method tag are those of temporal
    interpolation or of the chosen estimator, and which [imputeRaw] gave on
    a working copy of the pass; and the value is that estimate rounded to
    the nearest integer and then clamped to [[0, full]].  The cohort is well
    formed: every student has a cell for every declared time slot and
    subject, subjects are told apart by their id, full marks are not
    negative; and for the Box-Muller estimator the random source yields a
    non-zero draw within the redraw bound. *)
Theorem C3_run_leaves_every_cell_filled_in_range
    Math_sqrt Math_log Math_cos Math_PI Rng Math_random fuel
    students timeSlots subjects algorithm g :
  cohortDefined students timeSlots subjects ->
  presentInRange students timeSlots subjects ->
  fullMarksById subjects ->
  (forall sb, In sb subjects -> 0 <= s_full sb) ->
  (algorithm = BoxMuller ->
   forall g, is_Some (drawNonZero Rng Math_random fuel g)) ->
  exists newStudents logs g',
    handleRunAlgorithm Math_sqrt Math_log Math_cos Math_PI Rng Math_random
                       fuel students timeSlots subjects algorithm g
    = Some (recalcScores newStudents timeSlots subjects, logs, g') /\
    Forall2 (imputedFrom timeSlots subjects) students newStudents /\
    Forall2 (writtenByPaths Math_sqrt Math_log Math_cos Math_PI Rng
                            Math_random fuel students timeSlots subjects
                            algorithm) students newStudents /\
    Forall (fun s' => filledInRange (st_data s') timeSlots subjects)
           (recalcScores newStudents timeSlots subjects).
Proof.
  intros Hdef Hrange Hid Hfull Hdraw. unfold handleRunAlgorithm, imputeAll.
  destruct (imputeAll_fills Math_sqrt Math_log Math_cos Math_PI Rng
              Math_random fuel students timeSlots subjects algorithm
              Hdef Hrange Hid Hfull Hdraw students [] []
              [LogStart algorithm] g)
    as (out & logs & g' & Hrun & Hall); [auto|constructor|].
  destruct (imputeAll_paths Math_sqrt Math_log Math_cos Math_PI Rng
              Math_random fuel students timeSlots subjects algorithm
              Hdef Hid Hfull Hdraw students [] [LogStart algorithm] g
              out logs g' (fun s Hs => Hs) Hrun)
    as (new & Hout & Hpaths).
  simpl in Hout. subst out.
  rewrite Hrun. simpl. exists new, logs, g'. split; [reflexivity|].
  split; [exact Hall|]. split; [exact Hpaths|].
  apply List.Forall_forall. intros s' Hin.
  apply (Permutation_in _ (recalcScores_perm new timeSlots subjects)) in Hin.
  apply in_map_iff in Hin as (s0 & <- & Hs0).
  destruct (Forall2_In_r _ _ _ _ Hall Hs0) as (s & _ & _ & _ & _ & Hfill).
  exact Hfill.
Qed.

Lemma C3_run_leaves_every_cell_filled_in_range_witness :
  exists newStudents logs g',
    runEngine exampleCohort [slot1] [subjectX] BoxMuller
    = Some (recalcScores newStudents [slot1] [subjectX], logs, g') /\
    Forall2 (imputedFrom [slot1] [subjectX]) exampleCohort newStudents /\
    Forall2 (writtenByPaths sqrtQ zeroFn zeroFn 0 unit halfRandom 1
                            exampleCohort [slot1] [subjectX] BoxMuller)
            exampleCohort newStudents /\
    Forall (fun s' => filledInRange (st_data s') [slot1] [subjectX])
           (recalcScores newStudents [slot1] [subjectX]).
Proof.
  apply (C3_run_leaves_every_cell_filled_in_range sqrtQ zeroFn zeroFn 0 unit
           halfRandom 1 exampleCohort [slot1] [subjectX] BoxMuller tt).
  - intros s [<-|[<-|[<-|[]]]] t sb [<-|[]] [<-|[]]; vm_compute; eauto.
  - intros s t sb v [<-|[<-|[<-|[]]]] [<-|[]] [<-|[]] H;
      vm_compute in H; try discriminate H;
      injection H as <-; split; discriminate.
  - intros sb sb' [<-|[]] [<-|[]] _. reflexivity.
  - intros sb [<-|[]]. discriminate.
  - intros _ []. vm_compute. eauto.
Defined.
